(** * ai_agent.py: the ingestion, chunked summarisation and repurposing pipeline

    A shallow embedding of [src/ai_agent.py].  Python strings are lists of
    characters; a character is a code point below 256 (the Latin-1 range),
    for which the character tables of the interpreter are written out in
    full.  The chunker of the pipeline is the call
    [textwrap.wrap(content, width=2000)]; the standard-library algorithm
    behind it (class [TextWrapper] with its default options) is embedded
    function by function.  The external world (network, file system, the
    text-generation models, the clock) is a record of oracles threaded
    through a state-and-exception monad that also keeps the log of what the
    program did. *)

From Stdlib Require Import String.
From Stdlib Require Import List Ascii Arith PeanoNat Bool Lia.
Import ListNotations.

(* ================================================================== *)
(** * Python strings *)

Module Py.

(** A Python [str]: a sequence of code points. *)
Definition str := list ascii.

(** A string literal of the source (ASCII only). *)
Definition lit (s : String.string) : str := String.list_ascii_of_string s.

Arguments lit s%_string.

Definition code (c : ascii) : nat := nat_of_ascii c.

Definition chr (n : nat) : ascii := ascii_of_nat n.

Definition TAB : ascii := chr 9.
Definition LF : ascii := chr 10.
Definition CR : ascii := chr 13.
Definition SPACE : ascii := chr 32.
Definition HYPHEN : ascii := chr 45.
Definition UNDERSCORE : ascii := chr 95.

Definition between (lo hi : nat) (c : ascii) : bool :=
  (lo <=? code c) && (code c <=? hi).

Definition is_char (n : nat) (c : ascii) : bool := code c =? n.

(** [s1 == s2] on strings. *)
Fixpoint str_eqb (s1 s2 : str) : bool :=
  match s1, s2 with
  | [], [] => true
  | c1 :: r1, c2 :: r2 => Ascii.eqb c1 c2 && str_eqb r1 r2
  | _, _ => false
  end.

(** [ch.isspace()]: the characters [str.strip()] removes.  Below 256 these
    are U+0009..U+000D, U+001C..U+001F, U+0020, U+0085 and U+00A0. *)
Definition isspace (c : ascii) : bool :=
  between 9 13 c || between 28 31 c || is_char 32 c
  || is_char 133 c || is_char 160 c.

(** [s.strip() == ''] : every character of [s] is whitespace. *)
Definition strip_is_empty (s : str) : bool := forallb isspace s.

(** [ch.isalnum()] below 256: letters, decimal digits, and the
    superscript digits and vulgar fractions of Latin-1. *)
Definition isalnum (c : ascii) : bool :=
  between 48 57 c || between 65 90 c || between 97 122 c
  || is_char 170 c || is_char 178 c || is_char 179 c || is_char 181 c
  || is_char 185 c || is_char 186 c || between 188 190 c
  || between 192 214 c || between 216 246 c || between 248 255 c.

(** [ch.isdecimal()] below 256. *)
Definition isdecimal (c : ascii) : bool := between 48 57 c.

(** [ch.lower()] below 256: A..Z and the capital letters U+00C0..U+00DE
    (U+00D7, the multiplication sign, apart) move up by 32. *)
Definition lower_char (c : ascii) : ascii :=
  if between 65 90 c || between 192 214 c || between 216 222 c
  then chr (code c + 32) else c.

(** [s.lower()] *)
Definition lower (s : str) : str := map lower_char s.

(** [sep.join(parts)] *)
Fixpoint join (sep : str) (parts : list str) : str :=
  match parts with
  | [] => []
  | [p] => p
  | p :: rest => p ++ sep ++ join sep rest
  end.

(** [s.expandtabs(tabsize)], [column] being the column reached so far. *)
Fixpoint expandtabs_from (tabsize column : nat) (s : str) : str :=
  match s with
  | [] => []
  | ch :: rest =>
      if is_char 9 ch then
        if 0 <? tabsize then
          let incr := tabsize - column mod tabsize in
          repeat SPACE incr ++ expandtabs_from tabsize (column + incr) rest
        else expandtabs_from tabsize column rest
      else
        ch :: expandtabs_from tabsize
                (if is_char 10 ch || is_char 13 ch then 0 else column + 1)
                rest
  end.

Definition expandtabs (tabsize : nat) (s : str) : str :=
  expandtabs_from tabsize 0 s.

(** [s.rfind(ch, 0, stop)]: the highest index below [stop] that holds
    [ch]; [None] stands for the result -1. *)
Fixpoint rfind_from (ch : ascii) (i stop : nat) (s : str) : option nat :=
  match s, stop with
  | c :: rest, S stop' =>
      match rfind_from ch (S i) stop' rest with
      | Some j => Some j
      | None => if Ascii.eqb c ch then Some i else None
      end
  | _, _ => None
  end.

Definition rfind (ch : ascii) (stop : nat) (s : str) : option nat :=
  rfind_from ch 0 stop s.

(** Exceptions.  Every handler of the program is [except Exception]; the
    exceptions of the model are the instances of [Exception], each with
    the text [str(e)] that the handlers print. *)
Inductive exn : Type :=
| Exception (message : str).

(** The outcome of an expression that may raise. *)
Inductive res (A : Type) : Type :=
| Ok (value : A)
| Raise (e : exn).

Arguments Ok {A} value.
Arguments Raise {A} e.

End Py.

Import Py.

(* ================================================================== *)
(** * textwrap.wrap

    [TextWrapper] of the standard library with the options that
    [textwrap.wrap(content, width=2000)] leaves at their defaults:
    [initial_indent = subsequent_indent = ''], [expand_tabs], [tabsize = 8],
    [replace_whitespace], [drop_whitespace], [break_long_words],
    [break_on_hyphens], no [fix_sentence_endings], no [max_lines]. *)

Module TextWrap.

(** [_whitespace = '\t\n\x0b\x0c\r '] *)
Definition is_whitespace (c : ascii) : bool :=
  between 9 13 c || is_char 32 c.

(** [unicode_whitespace_trans]: every character of [_whitespace] becomes
    a space. *)
Definition translate_whitespace (s : str) : str :=
  map (fun c => if is_whitespace c then SPACE else c) s.

(** [_munge_whitespace] *)
Definition _munge_whitespace (text : str) : str :=
  translate_whitespace (expandtabs 8 text).

(** The character classes of [wordsep_re]. *)

(** [\w] *)
Definition re_word (c : ascii) : bool := isalnum c || is_char 95 c.

(** [word_punct]: the class of [\w] and the seven marks
    ! (33), the double quote (34), & (38), ' (39), comma (44), full stop
    (46) and ? (63). *)
Definition word_punct (c : ascii) : bool :=
  re_word c || is_char 33 c || is_char 34 c || is_char 39 c
  || is_char 38 c || is_char 46 c || is_char 44 c || is_char 63 c.

(** [letter = [^\d\W]] *)
Definition letter (c : ascii) : bool := re_word c && negb (isdecimal c).

Definition is_hyphen (c : ascii) : bool := is_char 45 c.

(** The length of the longest prefix of [s] made of characters in [p]:
    what a greedy [p+] consumes. *)
Fixpoint span (p : ascii -> bool) (s : str) : nat :=
  match s with
  | c :: rest => if p c then S (span p rest) else 0
  | [] => 0
  end.

(** The matcher of [wordsep_re] at one position of the text: [before] is
    the text to the left of the position, nearest character first (the
    look-behinds read it), [rest] the text from the position on.  The
    result is the length of the match. *)

(** First alternative, [whitespace+]. *)
Definition alt_whitespace (rest : str) : option nat :=
  let n := span is_whitespace rest in
  if 0 <? n then Some n else None.

(** [(?<=word_punct)] *)
Definition behind_word_punct (before : str) : bool :=
  match before with
  | c :: _ => word_punct c
  | [] => false
  end.

(** [-{2,}\w] from the start of [rest]: the hyphens it consumes.  The
    character after a shorter run of hyphens is a hyphen, never [\w], so
    only the whole run can match. *)
Definition dashes_then_word (rest : str) : option nat :=
  let k := span is_hyphen rest in
  if (2 <=? k)
     && match nth_error rest k with
        | Some c => re_word c
        | None => false
        end
  then Some k else None.

(** Second alternative, [(?<=word_punct) -{2,} (?=\w)]. *)
Definition alt_emdash (before rest : str) : option nat :=
  if behind_word_punct before then dashes_then_word rest else None.

(** [(?<=letter{2}-) | (?<=letter-letter-)], read just after a hyphen
    that follows [before]. *)
Definition behind_hyphenated (before : str) : bool :=
  match before with
  | b1 :: b2 :: more =>
      letter b1
      && (letter b2
          || (is_hyphen b2
              && match more with
                 | b3 :: _ => letter b3
                 | [] => false
                 end))
  | _ => false
  end.

(** [(?= letter -? letter)] *)
Definition ahead_hyphenated (rest : str) : bool :=
  match rest with
  | c1 :: c2 :: more =>
      letter c1
      && (letter c2
          || (is_hyphen c2
              && match more with
                 | c3 :: _ => letter c3
                 | [] => false
                 end))
  | _ => false
  end.

(** [-(?: (?<=letter{2}-) | (?<=letter-letter-)) (?= letter -? letter)] *)
Definition hyphen_break (before rest : str) : bool :=
  match rest with
  | c :: rest' =>
      is_hyphen c && behind_hyphenated before && ahead_hyphenated rest'
  | [] => false
  end.

(** The tail of the third alternative, once [nowhitespace+?] has consumed
    the characters now at the head of [before]: the number of characters
    the match still takes.  The lazy quantifier tries its three endings
    in order (hyphenated word, end of word, em-dash) before it consumes
    one more character. *)
Fixpoint word_end (before rest : str) : nat :=
  match rest with
  | [] => 0
  | c :: rest' =>
      if hyphen_break before rest then 1
      else if is_whitespace c then 0
      else if behind_word_punct before
              && match dashes_then_word rest with
                 | Some _ => true
                 | None => false
                 end
      then 0
      else S (word_end (c :: before) rest')
  end.

(** Third alternative, a word, possibly hyphenated. *)
Definition alt_word (before rest : str) : option nat :=
  match rest with
  | c :: rest' =>
      if is_whitespace c then None
      else Some (S (word_end (c :: before) rest'))
  | [] => None
  end.

(** [wordsep_re] *)
Definition wordsep_re (before rest : str) : option nat :=
  match alt_whitespace rest with
  | Some n => Some n
  | None =>
      match alt_emdash before rest with
      | Some n => Some n
      | None => alt_word before rest
      end
  end.

(** [wordsep_re.split(text)]: the pattern is one capturing group, so the
    result alternates the text between two matches and the matched text.
    [piece] is the text since the last match, latest character first. *)
Fixpoint re_split_from (fuel : nat) (before piece rest : str) : list str :=
  match fuel with
  | 0 => [rev piece ++ rest]
  | S fuel' =>
      match rest with
      | [] => [rev piece]
      | c :: rest' =>
          match wordsep_re before rest with
          | Some (S n) =>
              let m := firstn (S n) rest in
              rev piece :: m
                :: re_split_from fuel' (rev m ++ before) [] (skipn (S n) rest)
          | _ => re_split_from fuel' (c :: before) (c :: piece) rest'
          end
      end
  end.

Definition re_split (text : str) : list str :=
  re_split_from (S (length text)) [] [] text.

Definition nonempty (s : str) : bool :=
  match s with
  | [] => false
  | _ :: _ => true
  end.

(** [_split]: [chunks = [c for c in chunks if c]] *)
Definition _split (text : str) : list str := filter nonempty (re_split text).

(** [_split_chunks] *)
Definition _split_chunks (text : str) : list str :=
  _split (_munge_whitespace text).

(** The inner loop of [_wrap_chunks]: chunks move to the current line
    while they fit.  The stack [chunks] of the source is a list whose head
    is the next chunk. *)
Fixpoint fill_line (width cur_len : nat) (cur_line chunks : list str)
  : list str * nat * list str :=
  match chunks with
  | [] => (cur_line, cur_len, [])
  | chunk :: rest =>
      let l := length chunk in
      if cur_len + l <=? width
      then fill_line width (cur_len + l) (cur_line ++ [chunk]) rest
      else (cur_line, cur_len, chunks)
  end.

(** [_handle_long_word], the branch of [break_long_words]; it returns the
    chunks and the current line. *)
Definition _handle_long_word (chunks cur_line : list str)
    (cur_len width : nat) : list str * list str :=
  let space_left := if width <? 1 then 1 else width - cur_len in
  match chunks with
  | [] => (chunks, cur_line)
  | chunk :: rest =>
      let end_ :=
        if space_left <? length chunk then
          match rfind HYPHEN space_left chunk with
          | Some hyphen =>
              if (0 <? hyphen)
                 && existsb (fun c => negb (is_hyphen c)) (firstn hyphen chunk)
              then hyphen + 1 else space_left
          | None => space_left
          end
        else space_left in
      (skipn end_ chunk :: rest, cur_line ++ [firstn end_ chunk])
  end.

(** One iteration of the outer loop of [_wrap_chunks], entered with
    [chunks] not empty: the lines and the chunks after it. *)
Definition wrap_step (width : nat) (lines chunks : list str)
  : list str * list str :=
  let chunks1 :=
    match chunks with
    | chunk :: rest =>
        if strip_is_empty chunk && negb (length lines =? 0)
        then rest else chunks
    | [] => chunks
    end in
  let '(cur_line, cur_len, chunks2) := fill_line width 0 [] chunks1 in
  let '(chunks3, cur_line2) :=
    match chunks2 with
    | chunk :: _ =>
        if width <? length chunk
        then _handle_long_word chunks2 cur_line cur_len width
        else (chunks2, cur_line)
    | [] => (chunks2, cur_line)
    end in
  let cur_line3 :=
    match rev cur_line2 with
    | last_chunk :: _ =>
        if strip_is_empty last_chunk then removelast cur_line2 else cur_line2
    | [] => cur_line2
    end in
  let lines' :=
    match cur_line3 with
    | [] => lines
    | _ :: _ => lines ++ [concat cur_line3]
    end in
  (lines', chunks3).

(** [while chunks: ...] *)
Fixpoint wrap_loop (fuel width : nat) (lines chunks : list str) : list str :=
  match fuel with
  | 0 => lines
  | S fuel' =>
      match chunks with
      | [] => lines
      | _ :: _ =>
          let '(lines', chunks') := wrap_step width lines chunks in
          wrap_loop fuel' width lines' chunks'
      end
  end.

(** Every iteration removes a chunk or shortens one: the number of
    iterations is at most the number of chunks plus their lengths. *)
Definition size (chunks : list str) : nat :=
  length chunks + length (concat chunks).

(** [_wrap_chunks] *)
Definition _wrap_chunks (width : nat) (chunks : list str) : res (list str) :=
  if width <=? 0
  then Raise (Exception (lit "invalid width 0 (must be > 0)"))
  else Ok (wrap_loop (size chunks) width [] chunks).

(** [TextWrapper.wrap], and so [textwrap.wrap(text, width)]. *)
Definition wrap (text : str) (width : nat) : res (list str) :=
  _wrap_chunks width (_split_chunks text).

End TextWrap.

(* ================================================================== *)
(** * The agent *)

Module Agent.

Set Implicit Arguments.

(** The four chains of Step 4, each a prompt template piped into a model
    and an output parser. *)
Inductive chain : Type :=
| summary_chain
| linkedin_chain
| tweet_chain
| script_chain.

(** What the program reads of a [requests.Response]. *)
Record response : Type := {
  status_code : nat;
  text : str
}.

(** The [print] statements of the program, each with the values it
    formats. *)
Inductive message : Type :=
| FetchingBlog (url : str)
| ErrorFetchingBlog (e : exn)
| FetchingTranscript (video_id : str)
| ErrorFetchingTranscript (e : exn)
| ReadingPDF (file_path : str)
| ErrorReadingPDF (e : exn)
| ReadingTextFile (file_path : str)
| ErrorReadingTextFile (e : exn)
| InvalidSourceType
| NoContentFound
| SplittingContent
| TotalChunks (n : nat)
| SummarizingChunk (i n : nat)
| SkippingChunk (i : nat) (e : exn)
| GeneratingLinkedInPost
| GeneratingTweetThread
| GeneratingVideoScript
| OutputSaved (output_path : str)
| SummaryPreview (preview : str).

(** The calls that leave the program. *)
Inductive call : Type :=
| RequestsGet (url : str)
| RaiseForStatus (status : nat)
| FindAllP (html : str)
| GetTranscript (video_id : str)
| ReadTextFile (file_path : str)
| ImportPyPDF2
| ExtractPdfText (file_path : str)
| Strftime
| OpenForWriting (path : str)
| FileWrite (path : str) (data : str)
| FileClose (path : str).

(** The trace of a run: what was printed, which calls were made and
    which of them raised, and what each chain was given and returned. *)
Inductive event : Type :=
| Printed (m : message)
| Called (c : call) (raised : option exn)
| Invoked (c : chain) (input : str) (output : res str).

Definition raised_by {A : Type} (r : res A) : option exn :=
  match r with
  | Ok _ => None
  | Raise e => Some e
  end.

(** The files written so far, latest binding first. *)
Definition store : Type := list (str * str).

Fixpoint get_file (path : str) (fs : store) : option str :=
  match fs with
  | [] => None
  | (p, data) :: rest => if str_eqb p path then Some data else get_file path rest
  end.

Definition file_content (path : str) (fs : store) : str :=
  match get_file path fs with
  | Some data => data
  | None => []
  end.

Section Host.

(** The state of the world outside the program. *)
Variable W : Type.

(** The capabilities the program consumes.  Each answers from the state
    of the outside world and may change it; a failure is a raised
    exception. *)
Record host : Type := {
  (** [requests.get(url, timeout=10)] *)
  requests_get : str -> W -> res response * W;
  (** the message of the [HTTPError] of a response *)
  http_error : response -> exn;
  (** [BeautifulSoup(html, "html.parser")], [find_all("p")] and
      [get_text(strip=True)] of every paragraph *)
  find_all_p : str -> res (list str);
  (** [YouTubeTranscriptApi.get_transcript(video_id)], then [t["text"]]
      of every entry *)
  get_transcript : str -> W -> res (list str) * W;
  (** [open(file_path, "r", encoding="utf-8")] and [f.read()] *)
  read_text_file : str -> W -> res str * W;
  (** [import PyPDF2] *)
  import_PyPDF2 : W -> res unit * W;
  (** [open(file_path, "rb")], [PyPDF2.PdfReader] and [extract_text()]
      of every page *)
  extract_pdf_text : str -> W -> res (list str) * W;
  (** [chain.invoke({"text": input})] *)
  invoke : chain -> str -> W -> res str * W;
  (** [datetime.now().strftime("%Y%m%d_%H%M%S")] *)
  strftime_now : W -> str * W;
  (** [open(output_path, "w", encoding="utf-8")] *)
  open_w : str -> W -> res unit * W;
  (** [f.write(data)] *)
  write : str -> str -> W -> res unit * W;
  (** [f.close()], which the [with] block calls when it is left and
      which flushes what the writes have buffered *)
  close : str -> W -> res unit * W;
  (** what the file at a path holds once a write to it or its close has
      raised: what the flushes of the buffers have left there *)
  left_on_disk : str -> W -> str
}.

Variable H : host.

Record state : Type := {
  outside : W;
  files : store
}.

(** A computation: from a state to a result (a value or a raised
    exception), the state reached and the events on the way. *)
Record run (A : Type) : Type := {
  result : res A;
  final : state;
  trace : list event
}.

Definition M (A : Type) : Type := state -> run A.

Definition ret {A : Type} (a : A) : M A :=
  fun s => {| result := Ok a; final := s; trace := [] |}.

Definition bind {A B : Type} (m : M A) (k : A -> M B) : M B :=
  fun s =>
    match m s with
    | {| result := Ok a; final := s1; trace := t1 |} =>
        match k a s1 with
        | {| result := r; final := s2; trace := t2 |} =>
            {| result := r; final := s2; trace := t1 ++ t2 |}
        end
    | {| result := Raise e; final := s1; trace := t1 |} =>
        {| result := Raise e; final := s1; trace := t1 |}
    end.

(** [try: body  except Exception as e: handler e] *)
Definition try_except {A : Type} (body : M A) (handler : exn -> M A) : M A :=
  fun s =>
    match body s with
    | {| result := Ok a; final := s1; trace := t1 |} =>
        {| result := Ok a; final := s1; trace := t1 |}
    | {| result := Raise e; final := s1; trace := t1 |} =>
        match handler e s1 with
        | {| result := r; final := s2; trace := t2 |} =>
            {| result := r; final := s2; trace := t1 ++ t2 |}
        end
    end.

Definition print (m : message) : M unit :=
  fun s => {| result := Ok tt; final := s; trace := [Printed m] |}.

(** A call answered by the outside world. *)
Definition perform {A : Type} (c : call) (oracle : W -> res A * W) : M A :=
  fun s =>
    let (r, x) := oracle (outside s) in
    {| result := r;
       final := {| outside := x; files := files s |};
       trace := [Called c (raised_by r)] |}.

(** A call whose answer depends on its arguments alone. *)
Definition compute {A : Type} (c : call) (r : res A) : M A :=
  fun s => {| result := r; final := s; trace := [Called c (raised_by r)] |}.

(** [chain.invoke({"text": input})] *)
Definition invoke_chain (c : chain) (input : str) : M str :=
  fun s =>
    let (r, x) := invoke H c input (outside s) in
    {| result := r;
       final := {| outside := x; files := files s |};
       trace := [Invoked c input r] |}.

(** [datetime.now().strftime("%Y%m%d_%H%M%S")] *)
Definition timestamp_now : M str :=
  fun s =>
    let (t, x) := strftime_now H (outside s) in
    {| result := Ok t;
       final := {| outside := x; files := files s |};
       trace := [Called Strftime None] |}.

(** [open(path, "w", encoding="utf-8")]: the file is created or
    emptied. *)
Definition open_for_writing (path : str) : M unit :=
  fun s =>
    let (r, x) := open_w H path (outside s) in
    {| result := r;
       final := {| outside := x;
                   files := match r with
                            | Ok _ => (path, []) :: files s
                            | Raise _ => files s
                            end |};
       trace := [Called (OpenForWriting path) (raised_by r)] |}.

(** [f.write(data)] on the file opened at [path].  The data joins what
    the file object holds for the file; it is in the file for good once
    the file is closed without a failure. *)
Definition file_write (path data : str) : M unit :=
  fun s =>
    let (r, x) := write H path data (outside s) in
    {| result := r;
       final := {| outside := x;
                   files := match r with
                            | Ok _ =>
                                (path, file_content path (files s) ++ data)
                                  :: files s
                            | Raise _ => files s
                            end |};
       trace := [Called (FileWrite path data) (raised_by r)] |}.

(** [f.close()] at the end of a [with] block; [clean] tells whether the
    block was left without an exception.  After a block left without an
    exception and a close that returns, the file holds all that was
    written to it; after a write or a close that raised, it holds what
    the flushes of the buffers have left. *)
Definition file_close (path : str) (clean : bool) : M unit :=
  fun s =>
    let (r, x) := close H path (outside s) in
    {| result := r;
       final := {| outside := x;
                   files := match r with
                            | Ok _ =>
                                if clean then files s
                                else (path, left_on_disk H path x) :: files s
                            | Raise _ =>
                                (path, left_on_disk H path x) :: files s
                            end |};
       trace := [Called (FileClose path) (raised_by r)] |}.

(** [with open(path, "w", encoding="utf-8") as f: body].  The file is
    closed however the body ends; an exception of the close takes the
    place of the exception of the body. *)
Definition with_open {A : Type} (path : str) (body : M A) : M A :=
  fun s =>
    match open_for_writing path s with
    | {| result := Ok _; final := s0; trace := t0 |} =>
        match body s0 with
        | {| result := Ok a; final := s1; trace := t1 |} =>
            match file_close path true s1 with
            | {| result := Ok _; final := s2; trace := t2 |} =>
                {| result := Ok a; final := s2; trace := t0 ++ t1 ++ t2 |}
            | {| result := Raise e; final := s2; trace := t2 |} =>
                {| result := Raise e; final := s2; trace := t0 ++ t1 ++ t2 |}
            end
        | {| result := Raise e; final := s1; trace := t1 |} =>
            match file_close path false s1 with
            | {| result := Ok _; final := s2; trace := t2 |} =>
                {| result := Raise e; final := s2; trace := t0 ++ t1 ++ t2 |}
            | {| result := Raise e'; final := s2; trace := t2 |} =>
                {| result := Raise e'; final := s2; trace := t0 ++ t1 ++ t2 |}
            end
        end
    | {| result := Raise e; final := s0; trace := t0 |} =>
        {| result := Raise e; final := s0; trace := t0 |}
    end.

End Host.

Arguments ret {W A} a.
Arguments bind {W A B} m k.
Arguments try_except {W A} body handler.
Arguments print {W} m.
Arguments perform {W A} c oracle.
Arguments compute {W A} c r.

Notation "x <- m ;; k" := (bind m (fun x => k))
  (at level 61, m at next level, right associativity).
Notation "m ;;; k" := (bind m (fun _ => k))
  (at level 61, right associativity).

Section Program.

Variable W : Type.
Variable H : host W.

(** [res.raise_for_status()]: an [HTTPError] for the status codes 400 to
    599. *)
Definition raise_for_status (r : response) : res unit :=
  if (400 <=? status_code r) && (status_code r <? 600)
  then Raise (http_error H r) else Ok tt.

Definition load_blog (url : str) : M W str :=
  print (FetchingBlog url) ;;;
  try_except
    (res_ <- perform (RequestsGet url) (requests_get H url) ;;
     compute (RaiseForStatus (status_code res_)) (raise_for_status res_) ;;;
     paragraphs <- compute (FindAllP (text res_)) (find_all_p H (text res_)) ;;
     ret (join [LF] paragraphs))
    (fun e => print (ErrorFetchingBlog e) ;;; ret []).

Definition load_youtube_transcript (video_id : str) : M W str :=
  print (FetchingTranscript video_id) ;;;
  try_except
    (transcript <- perform (GetTranscript video_id) (get_transcript H video_id) ;;
     ret (join [SPACE] transcript))
    (fun e => print (ErrorFetchingTranscript e) ;;; ret []).

Definition load_pdf (file_path : str) : M W str :=
  perform ImportPyPDF2 (import_PyPDF2 H) ;;;
  print (ReadingPDF file_path) ;;;
  try_except
    (pages <- perform (ExtractPdfText file_path) (extract_pdf_text H file_path) ;;
     ret (join [SPACE] (filter TextWrap.nonempty pages)))
    (fun e => print (ErrorReadingPDF e) ;;; ret []).

Definition load_text_file (file_path : str) : M W str :=
  print (ReadingTextFile file_path) ;;;
  try_except
    (perform (ReadTextFile file_path) (read_text_file H file_path))
    (fun e => print (ErrorReadingTextFile e) ;;; ret []).

(** The loop of lines 127 to 134: [i] is the number of the chunk,
    counted from 1, [n] is [len(chunks)]. *)
Fixpoint summarize_chunks (n i : nat) (chunks summaries : list str)
  : M W (list str) :=
  match chunks with
  | [] => ret summaries
  | chunk :: rest =>
      print (SummarizingChunk i n) ;;;
      summaries' <-
        try_except
          (summary_part <- invoke_chain H summary_chain chunk ;;
           ret (summaries ++ [summary_part]))
          (fun e => print (SkippingChunk i e) ;;; ret summaries) ;;
      summarize_chunks n (S i) rest summaries'
  end.

(** Lines 127 to 136: the combined summary of the chunks. *)
Definition summarize (chunks : list str) : M W str :=
  summaries <- summarize_chunks (length chunks) 1 chunks [] ;;
  ret (join [LF] summaries).

(** Step C, lines 138 to 146. *)
Definition repurpose (combined_summary : str) : M W (str * str * str) :=
  print GeneratingLinkedInPost ;;;
  linkedin_post <- invoke_chain H linkedin_chain combined_summary ;;
  print GeneratingTweetThread ;;;
  tweet_thread <- invoke_chain H tweet_chain combined_summary ;;
  print GeneratingVideoScript ;;;
  video_script <- invoke_chain H script_chain combined_summary ;;
  ret (linkedin_post, tweet_thread, video_script).

(** Step D, lines 148 to 157. *)
Definition save (source_type source_value combined_summary linkedin_post
                 tweet_thread video_script : str) : M W str :=
  timestamp <- timestamp_now H ;;
  let output_path := lit "outputs/ai_agent_" ++ timestamp ++ lit ".txt" in
  with_open H output_path
    (file_write H output_path
       (lit "Source Type: " ++ source_type ++ [LF]
        ++ lit "Source: " ++ source_value ++ [LF; LF]) ;;;
     file_write H output_path
       ((lit "=== Combined Summary ===" ++ [LF]) ++ combined_summary
        ++ [LF; LF]) ;;;
     file_write H output_path
       ((lit "=== LinkedIn Post ===" ++ [LF]) ++ linkedin_post ++ [LF; LF]) ;;;
     file_write H output_path
       ((lit "=== Tweet Thread ===" ++ [LF]) ++ tweet_thread ++ [LF; LF]) ;;;
     file_write H output_path
       ((lit "=== Video Script ===" ++ [LF]) ++ video_script)) ;;;
  ret output_path.

(** [textwrap.wrap(content, width=2000)] inside the program. *)
Definition wrap_content (content : str) : M W (list str) :=
  fun s => {| result := TextWrap.wrap content 2000; final := s; trace := [] |}.

(** The body of [ai_agent] from line 118 on, [content] loaded. *)
Definition process (source_type source_value content : str) : M W unit :=
  if negb (TextWrap.nonempty content) then print NoContentFound
  else
    print SplittingContent ;;;
    chunks <- wrap_content content ;;
    print (TotalChunks (length chunks)) ;;;
    combined_summary <- summarize chunks ;;
    generated <- repurpose combined_summary ;;
    let '(linkedin_post, tweet_thread, video_script) := generated in
    output_path <- save source_type source_value combined_summary
                     linkedin_post tweet_thread video_script ;;
    print (OutputSaved output_path) ;;;
    print (SummaryPreview (firstn 500 combined_summary)).

(** Step A, lines 106 to 116: the adapter chosen by the source type. *)
Definition adapter_for (source_type : str) : option (str -> M W str) :=
  if str_eqb (lower source_type) (lit "blog") then Some load_blog
  else if str_eqb (lower source_type) (lit "youtube")
  then Some load_youtube_transcript
  else if str_eqb (lower source_type) (lit "textfile") then Some load_text_file
  else if str_eqb (lower source_type) (lit "pdf") then Some load_pdf
  else None.

Definition ai_agent (source_type source_value : str) : M W unit :=
  match adapter_for source_type with
  | Some load =>
      content <- load source_value ;;
      process source_type source_value content
  | None => print InvalidSourceType
  end.

End Program.

Unset Implicit Arguments.

End Agent.

(* ================================================================== *)
(** * The command-line menu *)

Module Cli.

(** [s.lstrip()] *)
Fixpoint lstrip (s : str) : str :=
  match s with
  | c :: rest => if isspace c then lstrip rest else s
  | [] => []
  end.

(** [s.rstrip()] *)
Definition rstrip (s : str) : str := rev (lstrip (rev s)).

(** [s.strip()] *)
Definition strip (s : str) : str := rstrip (lstrip s).

(** [s.startswith('/')] and [s.endswith('/')] *)
Definition startswith_sep (s : str) : bool :=
  match s with
  | c :: _ => is_char 47 c
  | [] => false
  end.

Definition endswith_sep (s : str) : bool := startswith_sep (rev s).

(** [os.path.join(a, b)] of [posixpath]: a second component that starts
    with the separator replaces the first; otherwise the two are put
    together, with a separator between them unless the first is empty or
    ends with one. *)
Definition os_path_join (a b : str) : str :=
  if startswith_sep b then b
  else if negb (TextWrap.nonempty a) || endswith_sep a then a ++ b
  else a ++ lit "/" ++ b.

(** What the menu does once the user has answered. *)
Inductive action : Type :=
| RunAgent (source_type source_value : str)
| InvalidChoice.

(** Lines 174 to 188: [choice_line] is what [input] returns at the prompt
    of the choice, [answer_line] what it returns at the prompt that
    follows a choice from 1 to 4.  The result is the call of [ai_agent]
    that the menu makes, or [InvalidChoice] when it prints that the choice
    is invalid and makes none. *)
Definition menu (choice_line answer_line : str) : action :=
  let choice := strip choice_line in
  if str_eqb choice (lit "1") then
    RunAgent (lit "blog") (strip answer_line)
  else if str_eqb choice (lit "2") then
    RunAgent (lit "youtube") (strip answer_line)
  else if str_eqb choice (lit "3") then
    RunAgent (lit "textfile") (os_path_join (lit "inputs") (strip answer_line))
  else if str_eqb choice (lit "4") then
    RunAgent (lit "pdf") (os_path_join (lit "inputs") (strip answer_line))
  else InvalidChoice.

End Cli.

(* ================================================================== *)
(** * The vocabulary of the properties *)

(** The text without its whitespace characters. *)
Definition remove_whitespace (s : str) : str :=
  filter (fun c => negb (isspace c)) s.

(** Modelled from the spec: [normalize_whitespace], which section 4.2 uses
    and no source file defines, read as the usual normal form of a text up
    to whitespace: the whitespace-free words of the text, in order, one
    space between two of them, none before the first or after the last.
    [words_from cur s] lists the words of [s], [cur] being the word begun
    so far, latest character first. *)
Fixpoint words_from (cur s : str) : list str :=
  match s with
  | [] => if TextWrap.nonempty cur then [rev cur] else []
  | c :: rest =>
      if isspace c
      then if TextWrap.nonempty cur
           then rev cur :: words_from [] rest
           else words_from [] rest
      else words_from (c :: cur) rest
  end.

Definition normalize_whitespace (text : str) : str :=
  join [SPACE] (words_from [] text).

(** [drops_whitespace pieces kept]: [kept] is [pieces] less some pieces
    made of whitespace only. *)
Inductive drops_whitespace : list str -> list str -> Prop :=
| dw_nil : drops_whitespace [] []
| dw_keep piece pieces kept :
    drops_whitespace pieces kept ->
    drops_whitespace (piece :: pieces) (piece :: kept)
| dw_drop piece pieces kept :
    strip_is_empty piece = true ->
    drops_whitespace pieces kept ->
    drops_whitespace (piece :: pieces) kept.

(** The maximal runs of whitespace and of other characters of a text,
    in order: what splitting on whitespace alone gives. *)
Fixpoint runs (s : str) : list str :=
  match s with
  | [] => []
  | c :: rest =>
      match runs rest with
      | (d :: run) :: more =>
          if Bool.eqb (TextWrap.is_whitespace c) (TextWrap.is_whitespace d)
          then (c :: d :: run) :: more
          else [c] :: (d :: run) :: more
      | _ => [[c]]
      end
  end.

(** [lines] laid over a text with a gap after each line but the last:
    [interleave [l1; l2; l3] [g1; g2] = l1 ++ g1 ++ l2 ++ g2 ++ l3]. *)
Fixpoint interleave (lines gaps : list str) : str :=
  match lines, gaps with
  | [], _ => []
  | line :: lines', gap :: gaps' => line ++ gap ++ interleave lines' gaps'
  | line :: lines', [] => line ++ interleave lines' []
  end.

Definition whitespace_gap (gap : str) : Prop :=
  gap <> [] /\ forallb isspace gap = true.

(** Every boundary between two chunks falls at whitespace of the text:
    the text is the chunks in order, with whitespace, and at least one
    character of it, between two consecutive chunks, and possibly
    whitespace before the first and after the last. *)
Definition breaks_at_whitespace (text : str) (chunks : list str) : Prop :=
  exists (lead trail : str) (gaps : list str),
    length gaps = pred (length chunks)
    /\ Forall whitespace_gap gaps
    /\ forallb isspace lead = true
    /\ forallb isspace trail = true
    /\ text = lead ++ interleave chunks gaps ++ trail.

(** The chunks lie in the text in order, and only whitespace, if
    anything, lies before the first, between two of them and after the
    last. *)
Definition lies_in (text : str) (chunks : list str) : Prop :=
  exists (lead trail : str) (gaps : list str),
    length gaps = pred (length chunks)
    /\ Forall (fun gap => forallb isspace gap = true) gaps
    /\ forallb isspace lead = true
    /\ forallb isspace trail = true
    /\ text = lead ++ interleave chunks gaps ++ trail.

(** A run of whitespace, or one of at most [width] characters. *)
Definition short_word (width : nat) (run : str) : Prop :=
  forallb TextWrap.is_whitespace run = true \/ length run <= width.

(** The characters at which [wordsep_re] ends a piece: those of
    [_whitespace] and the hyphen. *)
Definition breakable (c : ascii) : bool := TextWrap.is_whitespace c || TextWrap.is_hyphen c.

Definition starts_breakable (s : str) : bool :=
  match s with
  | c :: _ => breakable c
  | [] => false
  end.

Definition ends_breakable (s : str) : bool := starts_breakable (rev s).

(** Between two consecutive pieces of the list there is a character of
    whitespace or a hyphen: the first piece ends with one or the second
    starts with one. *)
Fixpoint soft_boundaries (pieces : list str) : Prop :=
  match pieces with
  | p :: rest =>
      match rest with
      | q :: _ => ends_breakable p || starts_breakable q = true
      | [] => True
      end /\ soft_boundaries rest
  | [] => True
  end.

(** [starts_with prefix s]: [s.startswith(prefix)]. *)
Fixpoint starts_with (prefix s : str) : bool :=
  match prefix, s with
  | [], _ => true
  | p :: prefix', c :: s' => Ascii.eqb p c && starts_with prefix' s'
  | _ :: _, [] => false
  end.

(** The number of positions of [s] at which [sub] occurs. *)
Fixpoint occurrences (sub s : str) : nat :=
  match s with
  | [] => if starts_with sub [] then 1 else 0
  | _ :: rest => (if starts_with sub s then 1 else 0) + occurrences sub rest
  end.

(** The layout of the output file as the program writes it. *)
Definition output_layout (source_type source_value combined_summary
                          linkedin_post tweet_thread video_script : str) : str :=
  lit "Source Type: " ++ source_type ++ [LF]
  ++ lit "Source: " ++ source_value ++ [LF; LF]
  ++ lit "=== Combined Summary ===" ++ [LF] ++ combined_summary ++ [LF; LF]
  ++ lit "=== LinkedIn Post ===" ++ [LF] ++ linkedin_post ++ [LF; LF]
  ++ lit "=== Tweet Thread ===" ++ [LF] ++ tweet_thread ++ [LF; LF]
  ++ lit "=== Video Script ===" ++ [LF] ++ video_script.

(** No character of [s] is the equals sign. *)
Definition no_equals_sign (s : str) : Prop :=
  Forall (fun c => is_char 61 c = false) s.

(** The results of the summarisation of the chunks, one after the other:
    each call is answered in the state of the outside world that the
    calls before it left. *)
Fixpoint chunk_results {W : Type} (H : Agent.host W) (chunks : list str) (x : W)
  : list (res str) * W :=
  match chunks with
  | [] => ([], x)
  | chunk :: rest =>
      let (r, x') := Agent.invoke H Agent.summary_chain chunk x in
      let (rs, x'') := chunk_results H rest x' in
      (r :: rs, x'')
  end.

(** The outputs of the chunks that succeeded, in order. *)
Fixpoint successes (rs : list (res str)) : list str :=
  match rs with
  | [] => []
  | Ok s :: rest => s :: successes rest
  | Raise _ :: rest => successes rest
  end.

(** The invocations of the chains in a trace, in order. *)
Fixpoint invocations (evs : list Agent.event)
  : list (Agent.chain * str * res str) :=
  match evs with
  | [] => []
  | Agent.Invoked c input output :: rest => (c, input, output) :: invocations rest
  | _ :: rest => invocations rest
  end.

(** The repurposing stage ran on the empty summary: the chain of the
    professional post was invoked on the empty string, then, if it
    returned, the chain of the thread, then, if that one returned, the
    chain of the script. *)
Definition repurposed_on_empty_summary (t : list Agent.event) : Prop :=
  exists out,
    In (Agent.Invoked Agent.linkedin_chain [] out) t
    /\ forall post,
         out = Ok post ->
         exists out2,
           In (Agent.Invoked Agent.tweet_chain [] out2) t
           /\ forall thread,
                out2 = Ok thread ->
                exists out3, In (Agent.Invoked Agent.script_chain [] out3) t.

(** The chains of the repurposing stage. *)
Definition repurposing (c : Agent.chain) : bool :=
  match c with
  | Agent.summary_chain => false
  | _ => true
  end.

(** The events of the output sink. *)
Definition file_event (ev : Agent.event) : bool :=
  match ev with
  | Agent.Called (Agent.OpenForWriting _) _ => true
  | Agent.Called (Agent.FileWrite _ _) _ => true
  | Agent.Called (Agent.FileClose _) _ => true
  | _ => false
  end.

(** The events of a generation call. *)
Definition generation_event (ev : Agent.event) : bool :=
  match ev with
  | Agent.Invoked _ _ _ => true
  | _ => false
  end.

(** The text that the writes of a trace have put in the file at [path]:
    the data of the writes to it that succeeded, in order. *)
Fixpoint written (path : str) (t : list Agent.event) : str :=
  match t with
  | [] => []
  | Agent.Called (Agent.FileWrite p data) None :: rest =>
      if str_eqb p path then data ++ written path rest else written path rest
  | _ :: rest => written path rest
  end.

(** The invocations of the repurposing stage on a summary: none when the
    run ended before the stage; otherwise the chain of the post first,
    the chain of the thread if the post was returned, the chain of the
    script if the thread was returned, each on the same summary. *)
Inductive repurposing_run (summary : str)
  : list (Agent.chain * str * res str) -> Prop :=
| not_reached : repurposing_run summary []
| post_failed e :
    repurposing_run summary [(Agent.linkedin_chain, summary, Raise e)]
| thread_failed post e :
    repurposing_run summary
      [(Agent.linkedin_chain, summary, Ok post);
       (Agent.tweet_chain, summary, Raise e)]
| script_invoked post thread outcome :
    repurposing_run summary
      [(Agent.linkedin_chain, summary, Ok post);
       (Agent.tweet_chain, summary, Ok thread);
       (Agent.script_chain, summary, outcome)].

(** The events that can end a run with the exception [e]: the import
    of PyPDF2, an invocation of a repurposing chain, the opening of the
    output file, a write to it or its close, when they raise [e]. *)
Definition fatal (e : exn) (ev : Agent.event) : Prop :=
  ev = Agent.Called Agent.ImportPyPDF2 (Some e)
  \/ (exists c input,
        repurposing c = true /\ ev = Agent.Invoked c input (Raise e))
  \/ (exists c, file_event (Agent.Called c (Some e)) = true
                /\ ev = Agent.Called c (Some e)).

(** What the loop of the summarisation logs for the chunk of number [i]
    out of [n], summarised with the result [r]: the progress message,
    the invocation, and, when it raised, the message that the chunk is
    skipped, with its number and the exception. *)
Definition chunk_log (n i : nat) (chunk : str) (r : res str)
  : list Agent.event :=
  Agent.Printed (Agent.SummarizingChunk i n)
    :: Agent.Invoked Agent.summary_chain chunk r
    :: match r with
       | Ok _ => []
       | Raise e => [Agent.Printed (Agent.SkippingChunk i e)]
       end.

(** The log of the loop on [chunks] with the results [rs], the first
    chunk having the number [i]. *)
Fixpoint loop_log (n i : nat) (chunks : list str) (rs : list (res str))
  : list Agent.event :=
  match chunks, rs with
  | chunk :: chunks', r :: rs' =>
      chunk_log n i chunk r ++ loop_log n (S i) chunks' rs'
  | _, _ => []
  end.

(** The events of the loop of the summarisation. *)
Definition loop_event (ev : Agent.event) : Prop :=
  match ev with
  | Agent.Printed (Agent.SummarizingChunk _ _) => True
  | Agent.Printed (Agent.SkippingChunk _ _) => True
  | Agent.Invoked Agent.summary_chain _ _ => True
  | _ => False
  end.

(* ================================================================== *)
(** * Auxiliary notions of the proofs *)

(** A chunk made of whitespace only: one that [_wrap_chunks] drops at
    the start and at the end of a line. *)
Definition blank (c : str) : Prop := strip_is_empty c = true.

(** The line that the kept chunks of an iteration give, if any. *)
Definition new_line (kept : list str) : list str :=
  match kept with
  | [] => []
  | _ :: _ => [concat kept]
  end.

(** The group of chunks behind that line, if any. *)
Definition group_of (kept : list str) : list (list str) :=
  match kept with
  | [] => []
  | _ :: _ => [kept]
  end.

(** No two neighbours of the list are both visible. *)
Fixpoint spaced (l : list str) : Prop :=
  match l with
  | [] => True
  | p :: rest =>
      match rest with
      | [] => True
      | q :: _ => blank p \/ blank q
      end /\ spaced rest
  end.

(** A chunk that is not empty and that is whitespace or fits the width. *)
Definition fitting (width : nat) (c : str) : Prop :=
  c <> [] /\ (length c <= width \/ blank c).

Definition hyphen_free (s : str) : Prop :=
  Forall (fun c => TextWrap.is_hyphen c = false) s.

Definition same_class (c d : ascii) : bool :=
  Bool.eqb (TextWrap.is_whitespace c) (TextWrap.is_whitespace d).

(** A run of characters that are all whitespace ([b] true) or all not. *)
Definition uniform (b : bool) (run : str) : Prop :=
  run <> [] /\ Forall (fun d => TextWrap.is_whitespace d = b) run.

Fixpoint alternating (b : bool) (l : list str) : Prop :=
  match l with
  | [] => True
  | run :: rest => uniform b run /\ alternating (negb b) rest
  end.

(** An event that is neither a generation call nor a write. *)
Definition quiet (ev : Agent.event) : Prop :=
  generation_event ev = false /\ file_event ev = false.


(** What every adapter does: it never touches the output files, calls no
    chain, and, the import of PyPDF2 apart, raises nothing. *)
Definition adapter_spec {W : Type} (load : str -> Agent.M W str) : Prop :=
  forall (locator : str) (s : Agent.state W),
    Agent.files (Agent.final (load locator s)) = Agent.files s
    /\ Forall quiet (Agent.trace (load locator s))
    /\ (forall e, Agent.result (load locator s) = Raise e ->
                  Agent.trace (load locator s)
                  = [Agent.Called Agent.ImportPyPDF2 (Some e)]).

(** The invocations of the summarisation stage on [chunks] with the
    results [rs]. *)
Definition summary_calls (chunks : list str) (rs : list (res str))
  : list (Agent.chain * str * res str) :=
  map (fun p => (Agent.summary_chain, fst p, snd p)) (combine chunks rs).

(* ================================================================== *)
(** * Inputs of the examples *)

(** 1995 letters, a space and a hyphenated word: 2001 characters. *)
Definition hyphenated_text : str := repeat "a"%char 1995 ++ lit " bb-cc".

(** A word of 2000 letters, a space and a one-letter word. *)
Definition two_word_text : str := repeat "a"%char 2000 ++ lit " b".

(** Two one-letter words 2001 spaces apart. *)
Definition wide_gap_text : str := lit "a" ++ repeat SPACE 2001 ++ lit "b".

(** 300 times a letter and a tab: 600 characters, 2400 once the tabs are
    expanded. *)
Definition tabbed_text : str := concat (repeat [ "a"%char; TAB ] 300).

Definition GenerationError : exn := Exception (lit "GenerationError").

(** A host for the examples: the network is unreachable, no PDF can be
    read, every text file holds [file_text]; a chain fails where
    [failing] says so and answers with a fixed text otherwise; the clock
    and the output sink work. *)
Definition stub (file_text : str) (failing : Agent.chain -> str -> bool)
  : Agent.host unit :=
  {| Agent.requests_get :=
       fun _ x => (Raise (Exception (lit "ConnectionError")), x);
     Agent.http_error := fun _ => Exception (lit "HTTPError");
     Agent.find_all_p := fun _ => Ok [];
     Agent.get_transcript :=
       fun _ x => (Raise (Exception (lit "TranscriptsDisabled")), x);
     Agent.read_text_file := fun _ x => (Ok file_text, x);
     Agent.import_PyPDF2 := fun x => (Ok tt, x);
     Agent.extract_pdf_text :=
       fun _ x => (Raise (Exception (lit "FileNotFoundError")), x);
     Agent.invoke :=
       fun c input x =>
         (if failing c input then Raise GenerationError
          else Ok match c with
                  | Agent.summary_chain => lit "summary1"
                  | Agent.linkedin_chain => lit "post"
                  | Agent.tweet_chain => lit "thread"
                  | Agent.script_chain => lit "script"
                  end, x);
     Agent.strftime_now := fun x => (lit "20260101_120000", x);
     Agent.open_w := fun _ x => (Ok tt, x);
     Agent.write := fun _ _ x => (Ok tt, x);
     Agent.close := fun _ x => (Ok tt, x);
     Agent.left_on_disk := fun _ _ => [] |}.

Definition never (c : Agent.chain) (input : str) : bool := false.

Definition summaries_fail (c : Agent.chain) (input : str) : bool :=
  match c with
  | Agent.summary_chain => true
  | _ => false
  end.

Definition post_fails (c : Agent.chain) (input : str) : bool :=
  match c with
  | Agent.linkedin_chain => true
  | _ => false
  end.

Definition all_but_first_chunk (c : Agent.chain) (input : str) : bool :=
  match c with
  | Agent.summary_chain => negb (str_eqb input (lit "AAA BBB"))
  | _ => false
  end.

Definition start : Agent.state unit := {| Agent.outside := tt; Agent.files := [] |}.

(** The host [stub (lit "AAA BBB CCC") never] with an output sink that
    may fail: the file opens if [opens] holds, a write succeeds if
    [writes] holds of its data, the close succeeds if [closes] holds;
    after a failure nothing has reached the file. *)
Definition failing_sink (opens : bool) (writes : str -> bool) (closes : bool)
  : Agent.host unit :=
  let h := stub (lit "AAA BBB CCC") never in
  {| Agent.requests_get := Agent.requests_get h;
     Agent.http_error := Agent.http_error h;
     Agent.find_all_p := Agent.find_all_p h;
     Agent.get_transcript := Agent.get_transcript h;
     Agent.read_text_file := Agent.read_text_file h;
     Agent.import_PyPDF2 := Agent.import_PyPDF2 h;
     Agent.extract_pdf_text := Agent.extract_pdf_text h;
     Agent.invoke := Agent.invoke h;
     Agent.strftime_now := Agent.strftime_now h;
     Agent.open_w :=
       fun _ x =>
         (if opens then Ok tt else Raise (Exception (lit "PermissionError")),
          x);
     Agent.write :=
       fun _ data x =>
         (if writes data then Ok tt
          else Raise (Exception (lit "UnicodeEncodeError")),
          x);
     Agent.close :=
       fun _ x =>
         (if closes then Ok tt else Raise (Exception (lit "OSError")), x);
     Agent.left_on_disk := fun _ _ => [] |}.

(** A sink on which the write of the section of the thread fails. *)
Definition until_thread (data : str) : bool :=
  negb (starts_with (lit "=== Tweet Thread ===") data).

(** The host [stub [] never] on which PyPDF2 is not installed. *)
Definition ModuleNotFoundError : exn :=
  Exception (lit "No module named 'PyPDF2'").

Definition no_PyPDF2 : Agent.host unit :=
  let h := stub [] never in
  {| Agent.requests_get := Agent.requests_get h;
     Agent.http_error := Agent.http_error h;
     Agent.find_all_p := Agent.find_all_p h;
     Agent.get_transcript := Agent.get_transcript h;
     Agent.read_text_file := Agent.read_text_file h;
     Agent.import_PyPDF2 := fun x => (Raise ModuleNotFoundError, x);
     Agent.extract_pdf_text := Agent.extract_pdf_text h;
     Agent.invoke := Agent.invoke h;
     Agent.strftime_now := Agent.strftime_now h;
     Agent.open_w := Agent.open_w h;
     Agent.write := Agent.write h;
     Agent.close := Agent.close h;
     Agent.left_on_disk := Agent.left_on_disk h |}.

(** A state in which an output of a former run exists. *)
Definition with_old_file : Agent.state unit :=
  {| Agent.outside := tt;
     Agent.files := [(lit "outputs/old.txt", lit "old")] |}.

(** The host [stub [] never] with PDF files whose pages have the texts
    [pages]. *)
Definition pdf_stub (pages : list str) : Agent.host unit :=
  let h := stub [] never in
  {| Agent.requests_get := Agent.requests_get h;
     Agent.http_error := Agent.http_error h;
     Agent.find_all_p := Agent.find_all_p h;
     Agent.get_transcript := Agent.get_transcript h;
     Agent.read_text_file := Agent.read_text_file h;
     Agent.import_PyPDF2 := Agent.import_PyPDF2 h;
     Agent.extract_pdf_text := fun _ x => (Ok pages, x);
     Agent.invoke := Agent.invoke h;
     Agent.strftime_now := Agent.strftime_now h;
     Agent.open_w := Agent.open_w h;
     Agent.write := Agent.write h;
     Agent.close := Agent.close h;
     Agent.left_on_disk := Agent.left_on_disk h |}.

(* ================================================================== *)
(** * Facts about the chunker *)

Import TextWrap.

(** The example of the docstring of [_split]. *)
Example split_docstring :
  _split (lit "Hello there -- you goof-ball, use the -b option!")
  = [lit "Hello"; lit " "; lit "there"; lit " "; lit "--"; lit " ";
     lit "you"; lit " "; lit "goof-"; lit "ball,"; lit " "; lit "use";
     lit " "; lit "the"; lit " "; lit "-b"; lit " "; lit "option!"].
Proof. vm_compute. reflexivity. Qed.

(** The scenario of section 8 of the specification, at width 7. *)
Example wrap_small :
  wrap (lit "AAA BBB CCC") 7 = Ok [lit "AAA BBB"; lit "CCC"].
Proof. vm_compute. reflexivity. Qed.

Lemma length_concat_cons (c : str) (l : list str) :
  length (concat (c :: l)) = length c + length (concat l).
Proof. simpl. apply length_app. Qed.

Lemma concat_snoc (l : list str) (c : str) : concat (l ++ [c]) = concat l ++ c.
Proof. rewrite concat_app. simpl. now rewrite app_nil_r. Qed.

(** ** The loop of [_wrap_chunks] *)

(** The inner loop takes a prefix of the chunks that fits and stops at
    the first chunk that does not. *)
Lemma fill_line_spec (width : nat) :
  forall (chunks : list str) (cur_len : nat) (cur_line : list str),
  exists taken rest,
    chunks = taken ++ rest
    /\ fill_line width cur_len cur_line chunks
       = (cur_line ++ taken, cur_len + length (concat taken), rest)
    /\ (cur_len <= width -> cur_len + length (concat taken) <= width)
    /\ match rest with
       | [] => True
       | c :: _ => width < cur_len + length (concat taken) + length c
       end.
Proof.
  induction chunks as [|chunk chunks IH]; intros cur_len cur_line.
  - exists [], []. simpl. rewrite app_nil_r, Nat.add_0_r. auto.
  - simpl. destruct (cur_len + length chunk <=? width) eqn:Fits.
    + apply Nat.leb_le in Fits.
      destruct (IH (cur_len + length chunk) (cur_line ++ [chunk]))
        as (taken & rest & -> & Eq & Bound & Stop).
      exists (chunk :: taken), rest. rewrite Eq, length_concat_cons.
      rewrite <- app_assoc. simpl. rewrite Nat.add_assoc.
      repeat split; auto.
    + apply Nat.leb_gt in Fits.
      exists [], (chunk :: chunks). simpl. rewrite app_nil_r, Nat.add_0_r.
      repeat split; auto.
Qed.

Lemma rfind_from_bound (ch : ascii) :
  forall (s : str) (i stop j : nat),
    rfind_from ch i stop s = Some j -> i <= j < i + stop.
Proof.
  induction s as [|c s IH]; intros i stop j; destruct stop as [|stop]; simpl;
    try discriminate.
  destruct (rfind_from ch (S i) stop s) as [k|] eqn:Found.
  - intros E. inversion E; subst. apply IH in Found. lia.
  - destruct (Ascii.eqb c ch); [|discriminate].
    intros E. inversion E; subst. lia.
Qed.

(** [_handle_long_word] cuts the chunk at an index within the room left
    on the line. *)
Lemma handle_long_word_spec (chunk : str) (rest cur_line : list str)
    (cur_len width : nat) :
  0 < width ->
  exists end_,
    end_ <= width - cur_len
    /\ (0 < width - cur_len -> 0 < end_)
    /\ _handle_long_word (chunk :: rest) cur_line cur_len width
       = (skipn end_ chunk :: rest, cur_line ++ [firstn end_ chunk]).
Proof.
  intros Pos. unfold _handle_long_word.
  replace (width <? 1) with false by (symmetry; apply Nat.ltb_ge; lia).
  destruct (width - cur_len <? length chunk);
    [|exists (width - cur_len); auto].
  destruct (rfind HYPHEN (width - cur_len) chunk) as [hyphen|] eqn:Found;
    [|exists (width - cur_len); auto].
  apply rfind_from_bound in Found.
  destruct ((0 <? hyphen) && _); [|exists (width - cur_len); auto].
  exists (hyphen + 1). repeat split; auto; lia.
Qed.

Lemma drop_last_whitespace (cur_line : list str) :
  exists kept dropped,
    cur_line = kept ++ dropped
    /\ Forall (fun c => strip_is_empty c = true) dropped
    /\ length dropped <= 1
    /\ (dropped = [] ->
        forall front last_chunk,
          kept = front ++ [last_chunk] -> strip_is_empty last_chunk = false)
    /\ match rev cur_line with
       | last_chunk :: _ =>
           if strip_is_empty last_chunk then removelast cur_line else cur_line
       | [] => cur_line
       end = kept.
Proof.
  destruct (rev cur_line) as [|last_chunk front] eqn:Rev.
  - exists cur_line, []. rewrite app_nil_r. repeat split; auto.
    intros _ front l ->. rewrite rev_app_distr in Rev. discriminate.
  - assert (cur_line = rev front ++ [last_chunk]) as ->.
    { rewrite <- (rev_involutive cur_line), Rev. reflexivity. }
    destruct (strip_is_empty last_chunk) eqn:Blank.
    + exists (rev front), [last_chunk]. rewrite removelast_last.
      repeat split; auto. discriminate.
    + exists (rev front ++ [last_chunk]), []. rewrite app_nil_r.
      repeat split; auto.
      intros _ front' l E. apply app_inj_tail in E as [_ <-]. exact Blank.
Qed.

(** One iteration: a whitespace chunk may be dropped first; the chunks
    that fit are taken; the next chunk is cut if it is longer than the
    width; a whitespace chunk at the end of the line is dropped; what is
    kept, if anything, is the new line. *)
Lemma wrap_step_spec (width : nat) (lines chunks : list str) :
  0 < width -> chunks <> [] ->
  exists lead taken tail cur_line kept dropped chunks',
    chunks = lead ++ taken ++ tail
    /\ Forall blank lead /\ length lead <= 1 /\ (lines = [] -> lead = [])
    /\ (lead = [] -> lines <> [] ->
        forall c r, chunks = c :: r -> strip_is_empty c = false)
    /\ length (concat taken) <= width
    /\ ((cur_line = taken /\ chunks' = tail
         /\ match tail with
            | [] => True
            | c :: _ =>
                length c <= width /\ width < length (concat taken) + length c
            end)
        \/ exists c r e,
             tail = c :: r /\ width < length c
             /\ e <= width - length (concat taken)
             /\ (taken = [] -> 0 < e)
             /\ cur_line = taken ++ [firstn e c]
             /\ chunks' = skipn e c :: r)
    /\ cur_line = kept ++ dropped /\ Forall blank dropped /\ length dropped <= 1
    /\ (dropped = [] ->
        forall front last_chunk,
          kept = front ++ [last_chunk] -> strip_is_empty last_chunk = false)
    /\ wrap_step width lines chunks = (lines ++ new_line kept, chunks').
Proof.
  intros Pos Nonempty. unfold wrap_step.
  set (chunks1 := match chunks with
                  | chunk :: rest =>
                      if strip_is_empty chunk && negb (length lines =? 0)
                      then rest else chunks
                  | [] => chunks
                  end).
  assert (exists lead, chunks = lead ++ chunks1 /\ Forall blank lead
                       /\ length lead <= 1 /\ (lines = [] -> lead = [])
                       /\ (lead = [] -> lines <> [] ->
                           forall c r, chunks = c :: r ->
                                       strip_is_empty c = false))
    as (lead & Split & Blank & Short & First & Kept1).
  { subst chunks1. destruct chunks as [|chunk rest]; [congruence|].
    destruct (strip_is_empty chunk) eqn:B; simpl.
    - destruct lines as [|l ls]; simpl.
      + exists []. repeat split; auto. congruence.
      + exists [chunk]. repeat split; auto; discriminate.
    - exists []. repeat split; auto. congruence. }
  clearbody chunks1.
  destruct (fill_line_spec width chunks1 0 []) as (taken & tail & -> & Eq & Bound & Stop).
  rewrite Eq. simpl in *. specialize (Bound (Nat.le_0_l _)).
  destruct tail as [|c r].
  - destruct (drop_last_whitespace taken) as (kept & dropped & E & D & L & Mx & ->).
    exists lead, taken, [], taken, kept, dropped, [].
    repeat split; auto. destruct kept; simpl; rewrite ?app_nil_r; reflexivity.
  - destruct (width <? length c) eqn:Long.
    + apply Nat.ltb_lt in Long.
      destruct (handle_long_word_spec c r taken (length (concat taken)) width Pos)
        as (e & Le & Gt & ->).
      destruct (drop_last_whitespace (taken ++ [firstn e c]))
        as (kept & dropped & E & D & L & Mx & ->).
      exists lead, taken, (c :: r), (taken ++ [firstn e c]), kept, dropped,
        (skipn e c :: r).
      repeat split; auto.
      * right. exists c, r, e. repeat split; auto.
        intros ->. simpl in *. apply Gt. lia.
      * destruct kept; simpl; rewrite ?app_nil_r; reflexivity.
    + apply Nat.ltb_ge in Long.
      destruct (drop_last_whitespace taken) as (kept & dropped & E & D & L & Mx & ->).
      exists lead, taken, (c :: r), taken, kept, dropped, (c :: r).
      repeat split; auto. destruct kept; simpl; rewrite ?app_nil_r; reflexivity.
Qed.

Lemma size_app (a b : list str) : size (a ++ b) = size a + size b.
Proof. unfold size. rewrite concat_app, !length_app. lia. Qed.

Lemma size_cons (c : str) (l : list str) : size (c :: l) = S (length c) + size l.
Proof. unfold size. rewrite length_concat_cons. simpl. lia. Qed.

(** Every iteration consumes something: the loop ends. *)
Lemma wrap_step_progress (width : nat) (lines chunks : list str) :
  0 < width -> chunks <> [] ->
  size (snd (wrap_step width lines chunks)) < size chunks.
Proof.
  intros Pos Nonempty.
  destruct (wrap_step_spec width lines chunks Pos Nonempty)
    as (lead & taken & tail & cur_line & kept & dropped & chunks'
        & -> & _ & _ & _ & _ & Fit & Cases & _ & _ & _ & _ & ->).
  simpl. rewrite !size_app.
  destruct Cases as [(_ & -> & Stop) | (c & r & e & -> & Long & Le & Gt & _ & ->)].
  - destruct lead as [|l lead]; [|rewrite size_cons; lia].
    destruct taken as [|t taken]; [|rewrite size_cons; lia].
    destruct tail as [|c r]; [contradiction Nonempty; reflexivity|].
    simpl in Stop. lia.
  - rewrite !size_cons, length_skipn.
    destruct lead as [|l lead]; [|rewrite size_cons; lia].
    destruct taken as [|t taken]; [|rewrite size_cons; lia].
    specialize (Gt eq_refl). simpl. lia.
Qed.

(** The fuel that [_wrap_chunks] gives the loop is enough: with it the
    loop runs until no chunk is left, and more fuel changes nothing. *)
Lemma wrap_loop_fuel (width : nat) :
  0 < width ->
  forall (fuel1 fuel2 : nat) (lines chunks : list str),
    size chunks <= fuel1 -> size chunks <= fuel2 ->
    wrap_loop fuel1 width lines chunks = wrap_loop fuel2 width lines chunks.
Proof.
  intros Pos. induction fuel1 as [|fuel1 IH]; intros fuel2 lines chunks L1 L2.
  - destruct chunks; [|rewrite size_cons in L1; lia].
    destruct fuel2; reflexivity.
  - destruct chunks as [|c chunks]; [destruct fuel2; reflexivity|].
    destruct fuel2 as [|fuel2]; [rewrite size_cons in L2; lia|].
    simpl.
    assert (Progress := wrap_step_progress width lines (c :: chunks) Pos
                          ltac:(discriminate)).
    destruct (wrap_step width lines (c :: chunks)) as [lines' chunks'].
    simpl in Progress. apply IH; lia.
Qed.

Lemma wrap_step_bound (width : nat) (lines chunks : list str) :
  0 < width -> chunks <> [] ->
  Forall (fun l => length l <= width) lines ->
  Forall (fun l => length l <= width) (fst (wrap_step width lines chunks)).
Proof.
  intros Pos Nonempty Bounded.
  destruct (wrap_step_spec width lines chunks Pos Nonempty)
    as (lead & taken & tail & cur_line & kept & dropped & chunks'
        & _ & _ & _ & _ & _ & Fit & Cases & Kept & _ & _ & _ & ->).
  simpl. apply Forall_app. split; [assumption|].
  destruct kept as [|k kept]; simpl; constructor; [|constructor].
  change (length (concat (k :: kept)) <= width).
  assert (length (concat cur_line) <= width) as Line.
  { destruct Cases as [(-> & _) | (c & r & e & _ & _ & Le & _ & -> & _)].
    - assumption.
    - rewrite concat_snoc, length_app, length_firstn. lia. }
  rewrite Kept, concat_app, length_app in Line. lia.
Qed.

Lemma wrap_loop_bound (width : nat) :
  0 < width ->
  forall (fuel : nat) (lines chunks : list str),
    Forall (fun l => length l <= width) lines ->
    Forall (fun l => length l <= width) (wrap_loop fuel width lines chunks).
Proof.
  intros Pos. induction fuel as [|fuel IH]; intros lines chunks Bounded.
  - assumption.
  - destruct chunks as [|c chunks]; [assumption|]. simpl.
    assert (Step := wrap_step_bound width lines (c :: chunks) Pos
                      ltac:(discriminate) Bounded).
    destruct (wrap_step width lines (c :: chunks)) as [lines' chunks'].
    apply IH. exact Step.
Qed.

Lemma remove_whitespace_app (a b : str) :
  remove_whitespace (a ++ b) = remove_whitespace a ++ remove_whitespace b.
Proof. apply filter_app. Qed.

Lemma remove_whitespace_blank (s : str) :
  blank s -> remove_whitespace s = [].
Proof.
  unfold blank, strip_is_empty, remove_whitespace.
  induction s as [|c s IH]; simpl; [reflexivity|].
  intros B. apply andb_true_iff in B as [Bc Bs]. rewrite Bc. simpl. auto.
Qed.

Lemma remove_whitespace_blanks (l : list str) :
  Forall blank l -> remove_whitespace (concat l) = [].
Proof.
  induction 1 as [|c l Bc _ IH]; simpl; [reflexivity|].
  now rewrite remove_whitespace_app, IH, remove_whitespace_blank.
Qed.

Lemma concat_new_line (kept : list str) : concat (new_line kept) = concat kept.
Proof. destruct kept; simpl; [reflexivity|]. now rewrite app_nil_r. Qed.

Lemma wrap_step_content (width : nat) (lines chunks : list str) :
  0 < width -> chunks <> [] ->
  remove_whitespace (concat (fst (wrap_step width lines chunks))
                     ++ concat (snd (wrap_step width lines chunks)))
  = remove_whitespace (concat lines ++ concat chunks).
Proof.
  intros Pos Nonempty.
  destruct (wrap_step_spec width lines chunks Pos Nonempty)
    as (lead & taken & tail & cur_line & kept & dropped & chunks'
        & -> & Blank & _ & _ & _ & _ & Cases & Kept & Dropped & _ & _ & ->).
  simpl. rewrite !concat_app, concat_new_line, !remove_whitespace_app.
  rewrite (remove_whitespace_blanks lead Blank). simpl.
  rewrite <- app_assoc. f_equal.
  assert (remove_whitespace (concat kept) = remove_whitespace (concat cur_line))
    as ->.
  { rewrite Kept, concat_app, remove_whitespace_app.
    rewrite (remove_whitespace_blanks dropped Dropped). now rewrite app_nil_r. }
  destruct Cases as [(-> & -> & _) | (c & r & e & -> & _ & _ & _ & -> & ->)].
  - reflexivity.
  - rewrite concat_snoc. simpl. rewrite <- !remove_whitespace_app.
    rewrite <- app_assoc, (app_assoc (firstn e c)), firstn_skipn. reflexivity.
Qed.

Lemma wrap_loop_content (width : nat) :
  0 < width ->
  forall (fuel : nat) (lines chunks : list str),
    size chunks <= fuel ->
    remove_whitespace (concat (wrap_loop fuel width lines chunks))
    = remove_whitespace (concat lines ++ concat chunks).
Proof.
  intros Pos. induction fuel as [|fuel IH]; intros lines chunks Enough.
  - destruct chunks; [|rewrite size_cons in Enough; lia].
    simpl. now rewrite app_nil_r.
  - destruct chunks as [|c chunks]; [simpl; now rewrite app_nil_r|]. simpl.
    assert (Progress := wrap_step_progress width lines (c :: chunks) Pos
                          ltac:(discriminate)).
    assert (Content := wrap_step_content width lines (c :: chunks) Pos
                         ltac:(discriminate)).
    destruct (wrap_step width lines (c :: chunks)) as [lines' chunks'].
    simpl in Progress, Content. rewrite IH by lia. exact Content.
Qed.

Lemma drops_whitespace_refl (l : list str) : drops_whitespace l l.
Proof. induction l; constructor; assumption. Qed.

Lemma drops_whitespace_blanks (l : list str) :
  Forall blank l -> drops_whitespace l [].
Proof. induction 1; constructor; assumption. Qed.

Lemma drops_whitespace_app (a a' b b' : list str) :
  drops_whitespace a a' -> drops_whitespace b b' ->
  drops_whitespace (a ++ b) (a' ++ b').
Proof. induction 1; intros Hb; simpl; try constructor; auto. Qed.

Lemma drops_whitespace_lead (lead l kept : list str) :
  Forall blank lead -> drops_whitespace l kept ->
  drops_whitespace (lead ++ l) kept.
Proof. induction 1; intros Hl; simpl; try constructor; auto. Qed.

Lemma drops_whitespace_tail (kept dropped : list str) :
  Forall blank dropped -> drops_whitespace (kept ++ dropped) kept.
Proof.
  intros B. induction kept; simpl.
  - now apply drops_whitespace_blanks.
  - now constructor.
Qed.

Lemma concat_group_of (kept : list str) : concat (group_of kept) = kept.
Proof. destruct kept; simpl; now rewrite ?app_nil_r. Qed.

Lemma wrap_step_groups (width : nat) (lines chunks : list str) :
  0 < width -> chunks <> [] ->
  Forall (fun c => length c <= width) chunks ->
  exists consumed groups,
    chunks = consumed ++ snd (wrap_step width lines chunks)
    /\ fst (wrap_step width lines chunks) = lines ++ map (@concat ascii) groups
    /\ Forall (fun g => g <> []) groups
    /\ drops_whitespace consumed (concat groups).
Proof.
  intros Pos Nonempty Short.
  destruct (wrap_step_spec width lines chunks Pos Nonempty)
    as (lead & taken & tail & cur_line & kept & dropped & chunks'
        & -> & Blank & _ & _ & _ & _ & Cases & Kept & Dropped & _ & _ & ->).
  simpl.
  destruct Cases as [(-> & -> & _) | (c & r & e & -> & Long & _)].
  - exists (lead ++ kept ++ dropped).
    exists (group_of kept).
    subst taken. repeat split.
    + now rewrite <- !app_assoc.
    + destruct kept; reflexivity.
    + destruct kept; repeat constructor. discriminate.
    + rewrite concat_group_of.
      apply drops_whitespace_lead; [assumption|].
      now apply drops_whitespace_tail.
  - exfalso. rewrite !Forall_app in Short. destruct Short as (_ & _ & Short).
    inversion Short; subst. lia.
Qed.

(** When no chunk is longer than the width, every line is made of whole
    consecutive chunks, and only whitespace chunks are left out. *)
Lemma wrap_loop_groups (width : nat) :
  0 < width ->
  forall (fuel : nat) (lines chunks : list str),
    size chunks <= fuel ->
    Forall (fun c => length c <= width) chunks ->
    exists groups,
      wrap_loop fuel width lines chunks = lines ++ map (@concat ascii) groups
      /\ Forall (fun g => g <> []) groups
      /\ drops_whitespace chunks (concat groups).
Proof.
  intros Pos. induction fuel as [|fuel IH]; intros lines chunks Enough Short.
  - destruct chunks; [|rewrite size_cons in Enough; lia].
    exists []. simpl. rewrite app_nil_r. repeat constructor.
  - destruct chunks as [|c chunks].
    { exists []. simpl. rewrite app_nil_r. repeat constructor. }
    simpl.
    assert (Progress := wrap_step_progress width lines (c :: chunks) Pos
                          ltac:(discriminate)).
    destruct (wrap_step_groups width lines (c :: chunks) Pos
                ltac:(discriminate) Short)
      as (consumed & groups & Split & Lines & Full & Drops).
    destruct (wrap_step width lines (c :: chunks)) as [lines' chunks'].
    simpl in Progress, Split, Lines.
    assert (Forall (fun c => length c <= width) chunks') as Short'.
    { rewrite Split in Short. apply Forall_app in Short. tauto. }
    destruct (IH lines' chunks' ltac:(lia) Short')
      as (groups' & -> & Full' & Drops').
    exists (groups ++ groups'). rewrite Split, Lines, map_app, concat_app.
    rewrite <- app_assoc. repeat split.
    + apply Forall_app. tauto.
    + now apply drops_whitespace_app.
Qed.

(** ** The splitter *)

(** The pieces of a split, put end to end, are the text. *)
Lemma re_split_from_concat :
  forall (fuel : nat) (before piece rest : str),
    concat (re_split_from fuel before piece rest) = rev piece ++ rest.
Proof.
  induction fuel as [|fuel IH]; intros before piece rest; simpl.
  - now rewrite app_nil_r.
  - destruct rest as [|c rest]; [simpl; now rewrite !app_nil_r|].
    destruct (wordsep_re before (c :: rest)) as [[|n]|].
    + rewrite IH. simpl. now rewrite <- app_assoc.
    + cbn [concat]. rewrite IH. simpl. now rewrite firstn_skipn.
    + rewrite IH. simpl. now rewrite <- app_assoc.
Qed.

(** The fuel of [re_split] is enough: more fuel changes nothing. *)
Lemma re_split_from_fuel :
  forall (fuel1 fuel2 : nat) (before piece rest : str),
    length rest <= fuel1 -> length rest <= fuel2 ->
    re_split_from fuel1 before piece rest = re_split_from fuel2 before piece rest.
Proof.
  induction fuel1 as [|fuel1 IH]; intros fuel2 before piece rest L1 L2.
  - destruct rest; [|simpl in L1; lia].
    destruct fuel2; simpl; now rewrite ?app_nil_r.
  - destruct rest as [|c rest].
    { destruct fuel2; simpl; now rewrite ?app_nil_r. }
    destruct fuel2 as [|fuel2]; [simpl in L2; lia|].
    simpl in L1, L2. simpl.
    destruct (wordsep_re before (c :: rest)) as [[|n]|].
    + apply IH; lia.
    + do 2 f_equal. apply IH; rewrite length_skipn; simpl; lia.
    + apply IH; lia.
Qed.

Lemma concat_filter_nonempty (l : list str) :
  concat (filter nonempty l) = concat l.
Proof.
  induction l as [|c l IH]; simpl; [reflexivity|].
  destruct c; simpl; now rewrite IH.
Qed.

Lemma split_concat (text : str) : concat (_split text) = text.
Proof.
  unfold _split, re_split.
  now rewrite concat_filter_nonempty, re_split_from_concat.
Qed.

(** ** Whitespace munging *)

Lemma is_char_code (n : nat) (c : ascii) : is_char n c = true -> code c = n.
Proof. apply Nat.eqb_eq. Qed.

Lemma is_whitespace_isspace (c : ascii) :
  is_whitespace c = true -> isspace c = true.
Proof.
  unfold is_whitespace, isspace. intros Ws.
  apply orb_true_iff in Ws as [Ws|Ws]; rewrite Ws; simpl;
    rewrite ?orb_true_r; reflexivity.
Qed.

Lemma remove_whitespace_spaces (n : nat) (s : str) :
  remove_whitespace (repeat SPACE n ++ s) = remove_whitespace s.
Proof. induction n; simpl; auto. Qed.

Lemma remove_whitespace_expandtabs (tabsize : nat) :
  forall (s : str) (column : nat),
    remove_whitespace (expandtabs_from tabsize column s) = remove_whitespace s.
Proof.
  induction s as [|ch s IH]; intros column; simpl; [reflexivity|].
  destruct (is_char 9 ch) eqn:Tab.
  - assert (isspace ch = true) as ->.
    { unfold isspace, between. rewrite (is_char_code _ _ Tab). reflexivity. }
    simpl. destruct (0 <? tabsize).
    + rewrite remove_whitespace_spaces. apply IH.
    + apply IH.
  - simpl. now rewrite IH.
Qed.

Lemma remove_whitespace_translate (s : str) :
  remove_whitespace (translate_whitespace s) = remove_whitespace s.
Proof.
  induction s as [|c s IH]; simpl; [reflexivity|].
  destruct (is_whitespace c) eqn:Ws.
  - rewrite (is_whitespace_isspace c Ws). simpl. exact IH.
  - now rewrite IH.
Qed.

Lemma remove_whitespace_munge (text : str) :
  remove_whitespace (_munge_whitespace text) = remove_whitespace text.
Proof.
  unfold _munge_whitespace, expandtabs.
  now rewrite remove_whitespace_translate, remove_whitespace_expandtabs.
Qed.

Lemma length_munge (text : str) :
  length (_munge_whitespace text) = length (expandtabs 8 text).
Proof. apply length_map. Qed.

Lemma split_chunks_content (text : str) :
  remove_whitespace (concat (_split_chunks text)) = remove_whitespace text.
Proof.
  unfold _split_chunks. now rewrite split_concat, remove_whitespace_munge.
Qed.

(** ** Boundaries at whitespace *)

Lemma spaced_app_r (a b : list str) : spaced (a ++ b) -> spaced b.
Proof.
  induction a as [|p a IH]; simpl; [auto|]. intros [_ S]. auto.
Qed.

Lemma spaced_middle (a : list str) (p q : str) (b : list str) :
  spaced (a ++ p :: q :: b) -> blank p \/ blank q.
Proof.
  intros S. apply spaced_app_r in S. simpl in S. tauto.
Qed.

Lemma blank_concat (l : list str) :
  Forall blank l -> forallb isspace (concat l) = true.
Proof.
  induction 1 as [|c l B _ IH]; simpl; [reflexivity|].
  unfold blank, strip_is_empty in B. rewrite forallb_app. now rewrite B, IH.
Qed.

Lemma blank_firstn (n : nat) (c : str) : blank c -> blank (firstn n c).
Proof.
  unfold blank, strip_is_empty. intros B.
  rewrite <- (firstn_skipn n c), forallb_app in B.
  now apply andb_true_iff in B.
Qed.

Lemma blank_skipn (n : nat) (c : str) : blank c -> blank (skipn n c).
Proof.
  unfold blank, strip_is_empty. intros B.
  rewrite <- (firstn_skipn n c), forallb_app in B.
  now apply andb_true_iff in B.
Qed.

Lemma concat_full (l : list str) :
  Forall (fun c => c <> []) l -> l <> [] -> concat l <> [].
Proof.
  intros F N. destruct l as [|c l]; [congruence|].
  inversion F as [|? ? Nc _]; subst. destruct c; [congruence | discriminate].
Qed.

Lemma fitting_full (width : nat) (l : list str) :
  Forall (fitting width) l -> Forall (fun c => c <> []) l.
Proof. apply Forall_impl. now intros c [N _]. Qed.

Lemma spaced_blank_head (c c' : str) (r : list str) :
  blank c' -> spaced (c :: r) -> spaced (c' :: r).
Proof.
  intros B [_ S]. split; [|exact S]. destruct r; [exact I | now left].
Qed.

(** The chunk that [_handle_long_word] cuts is dropped from the line when
    it is whitespace. *)
Lemma cut_blank_dropped (taken kept dropped : list str) (piece : str) :
  blank piece ->
  taken ++ [piece] = kept ++ dropped ->
  length dropped <= 1 ->
  (dropped = [] ->
   forall front last_chunk,
     kept = front ++ [last_chunk] -> strip_is_empty last_chunk = false) ->
  kept = taken /\ dropped = [piece].
Proof.
  intros B E Short Last. destruct dropped as [|d [|d' ds]].
  - rewrite app_nil_r in E. specialize (Last eq_refl taken piece (eq_sym E)).
    unfold blank in B. congruence.
  - apply app_inj_tail in E as [-> ->]. auto.
  - simpl in Short. lia.
Qed.

(** When every chunk is whitespace or fits the width and no two
    neighbours are both visible, the lines lie in the text with
    whitespace between them.  [separated] tells whether whitespace has
    been dropped since the last line. *)
Lemma wrap_loop_gaps (width : nat) :
  0 < width ->
  forall (fuel : nat) (lines chunks : list str) (separated : bool),
    size chunks <= fuel ->
    Forall (fitting width) chunks ->
    spaced chunks ->
    (separated = false ->
     lines <> [] /\ forall c r, chunks = c :: r -> blank c) ->
    exists new lead gaps trail,
      wrap_loop fuel width lines chunks = lines ++ new
      /\ concat chunks = lead ++ interleave new gaps ++ trail
      /\ length gaps = pred (length new)
      /\ Forall whitespace_gap gaps
      /\ forallb isspace lead = true
      /\ forallb isspace trail = true
      /\ (separated = false -> new <> [] -> lead <> []).
Proof.
  intros Pos. induction fuel as [|fuel IH];
    intros lines chunks separated Enough Pieces Spaced Sep.
  { destruct chunks; [|rewrite size_cons in Enough; lia].
    exists [], [], [], []. simpl. rewrite app_nil_r.
    repeat split; auto. }
  destruct chunks as [|c0 cs].
  { exists [], [], [], []. simpl. rewrite app_nil_r. repeat split; auto. }
  cbn [wrap_loop].
  assert (Progress := wrap_step_progress width lines (c0 :: cs) Pos
                        ltac:(discriminate)).
  destruct (wrap_step_spec width lines (c0 :: cs) Pos ltac:(discriminate))
    as (lead_p & taken & tail & cur_line & kept & dropped & chunks'
        & Split & Blank & _ & _ & Lead & _ & Cases & Kept & Dropped & Short
        & Last & Step).
  rewrite Step in *. cbn [snd] in Progress.
  assert (Forall (fitting width) lead_p /\ Forall (fitting width) taken
          /\ Forall (fitting width) tail)
    as (P1 & P2 & P4).
  { rewrite Split, !Forall_app in Pieces. tauto. }
  assert (spaced tail) as SpacedTail.
  { rewrite Split in Spaced. now do 2 apply spaced_app_r in Spaced. }
  assert (separated = false -> concat lead_p <> []) as LeadNonempty.
  { intros F. apply concat_full; [now apply (fitting_full width)|].
    destruct (Sep F) as [NoLines Head]. intros ->.
    specialize (Lead eq_refl NoLines c0 cs eq_refl).
    specialize (Head c0 cs eq_refl). unfold blank in Head. congruence. }
  assert (exists rest,
             concat (c0 :: cs)
             = concat lead_p ++ concat kept ++ concat dropped ++ concat chunks'
             /\ chunks' = rest
             /\ Forall (fitting width) chunks' /\ spaced chunks'
             /\ (kept <> [] ->
                 concat dropped = [] ->
                 forall c r, chunks' = c :: r -> blank c))
    as (rest & Text & _ & P' & S' & NextBlank).
  { exists chunks'.
    destruct Cases as [(-> & -> & _) | (c & r & e & -> & Long & Le & _ & -> & ->)].
    - split; [|split; [reflexivity|split; [exact P4|split; [exact SpacedTail|]]]].
      + rewrite Split, Kept, !concat_app, <- !app_assoc. reflexivity.
      + intros Full Empty c r ->.
        assert (dropped = []) as ->.
        { destruct dropped as [|d ds]; [reflexivity|]. exfalso.
          rewrite Kept, !Forall_app in P2. destruct P2 as [_ P3].
          apply (concat_full (d :: ds));
            [now apply (fitting_full width) | discriminate | exact Empty]. }
        destruct (exists_last Full) as (front & last_chunk & E).
        specialize (Last eq_refl front last_chunk E).
        rewrite Split, Kept, E, app_nil_r in Spaced.
        rewrite <- !app_assoc in Spaced.
        rewrite app_assoc in Spaced. apply spaced_middle in Spaced.
        unfold blank in *. destruct Spaced; congruence.
    - inversion P4 as [|? ? [Full [Fits|Bc]] Pr]; subst; [lia|].
      destruct (cut_blank_dropped taken kept dropped (firstn e c)
                  (blank_firstn e c Bc) Kept Short Last) as [-> ->].
      assert (blank (skipn e c)) as Bs by now apply blank_skipn.
      split; [|split; [reflexivity|split; [|split]]].
      + rewrite Split, !concat_app. simpl. rewrite ?app_nil_r.
        do 2 f_equal. now rewrite app_assoc, firstn_skipn.
      + constructor; [|exact Pr]. split; [|now right].
        intros Empty. apply (f_equal (@length ascii)) in Empty.
        rewrite length_skipn in Empty. simpl in Empty. lia.
      + now apply (spaced_blank_head c).
      + intros _ _ c' r' [= <- _]. exact Bs. }
  rewrite Text.
  destruct kept as [|k ks].
  - (* no line: everything taken was whitespace *)
    unfold new_line. rewrite app_nil_r.
    destruct (IH lines chunks' true ltac:(lia) P' S' ltac:(discriminate))
      as (new & lead' & gaps & trail & -> & -> & Len & Gaps & L & T & _).
    exists new, (concat lead_p ++ concat dropped ++ lead'), gaps, trail.
    simpl. rewrite <- !app_assoc. repeat split; auto.
    + rewrite !forallb_app, L, !blank_concat; auto.
    + intros F _ E. apply app_eq_nil in E as [E _].
      now apply (LeadNonempty F).
  - (* a line *)
    assert (match concat dropped with [] => false | _ :: _ => true end = false ->
            lines ++ new_line (k :: ks) <> []
            /\ forall c r, chunks' = c :: r -> blank c) as Sep1.
    { intros F. split; [destruct lines; discriminate|].
      apply NextBlank; [discriminate|]. now destruct (concat dropped). }
    destruct (IH (lines ++ new_line (k :: ks)) chunks'
                match concat dropped with [] => false | _ :: _ => true end
                ltac:(lia) P' S' Sep1)
      as (new & lead' & gaps & trail & -> & -> & Len & Gaps & L & T & Sep').
    destruct new as [|n1 ns].
    + exists [concat (k :: ks)], (concat lead_p), [],
        (concat dropped ++ lead' ++ trail).
      unfold new_line. rewrite <- app_assoc.
      cbn [interleave]. rewrite !app_nil_r.
      repeat split; auto;
        try (now apply blank_concat);
        try (rewrite !forallb_app, L, T, blank_concat; now auto).
    + exists (concat (k :: ks) :: n1 :: ns), (concat lead_p),
        ((concat dropped ++ lead') :: gaps), trail.
      unfold new_line. rewrite <- app_assoc.
      cbn [interleave]. rewrite <- !app_assoc.
      split; [reflexivity|]. split; [reflexivity|].
      split; [simpl; simpl in Len; lia|].
      split; [|repeat split; auto; now apply blank_concat].
      constructor; [|assumption]. split.
      * destruct (concat dropped) as [|d ds] eqn:D.
        -- simpl. apply Sep'; [reflexivity | discriminate].
        -- discriminate.
      * rewrite forallb_app, L, blank_concat; auto.
Qed.

(** Whatever the chunks, the lines lie in their text with whitespace, if
    anything, between them. *)
Lemma wrap_loop_lies (width : nat) :
  0 < width ->
  forall (fuel : nat) (lines chunks : list str),
    size chunks <= fuel ->
    exists new lead gaps trail,
      wrap_loop fuel width lines chunks = lines ++ new
      /\ concat chunks = lead ++ interleave new gaps ++ trail
      /\ length gaps = pred (length new)
      /\ Forall (fun gap => forallb isspace gap = true) gaps
      /\ forallb isspace lead = true
      /\ forallb isspace trail = true.
Proof.
  intros Pos. induction fuel as [|fuel IH]; intros lines chunks Enough.
  { destruct chunks; [|rewrite size_cons in Enough; lia].
    exists [], [], [], []. simpl. rewrite app_nil_r. repeat split; auto. }
  destruct chunks as [|c0 cs].
  { exists [], [], [], []. simpl. rewrite app_nil_r. repeat split; auto. }
  cbn [wrap_loop].
  assert (Progress := wrap_step_progress width lines (c0 :: cs) Pos
                        ltac:(discriminate)).
  destruct (wrap_step_spec width lines (c0 :: cs) Pos ltac:(discriminate))
    as (lead_p & taken & tail & cur_line & kept & dropped & chunks'
        & Split & Blank & _ & _ & _ & _ & Cases & Kept & Dropped & _ & _
        & Step).
  rewrite Step in *. cbn [snd] in Progress.
  assert (concat (c0 :: cs)
          = concat lead_p ++ concat kept ++ concat dropped ++ concat chunks')
    as Text.
  { apply (f_equal (@concat ascii)) in Kept. rewrite concat_app in Kept.
    rewrite Split, !concat_app. f_equal.
    rewrite (app_assoc (concat kept)), <- Kept.
    destruct Cases as [(-> & -> & _) | (c & r & e & -> & _ & _ & _ & -> & ->)];
      [reflexivity|].
    rewrite concat_snoc. simpl. rewrite <- !app_assoc. f_equal.
    now rewrite app_assoc, firstn_skipn. }
  rewrite Text.
  destruct (IH (lines ++ new_line kept) chunks' ltac:(lia))
    as (new & lead' & gaps & trail & -> & -> & Len & Gaps & L & T).
  destruct kept as [|k ks].
  - exists new, (concat lead_p ++ concat dropped ++ lead'), gaps, trail.
    simpl. rewrite app_nil_r, <- !app_assoc. repeat split; auto.
    rewrite !forallb_app, L, !blank_concat; auto.
  - destruct new as [|n1 ns].
    + exists [concat (k :: ks)], (concat lead_p), [],
        (concat dropped ++ lead' ++ trail).
      unfold new_line. rewrite <- app_assoc.
      cbn [interleave]. rewrite !app_nil_r.
      repeat split; auto;
        try (now apply blank_concat);
        try (rewrite !forallb_app, L, T, blank_concat; now auto).
    + exists (concat (k :: ks) :: n1 :: ns), (concat lead_p),
        ((concat dropped ++ lead') :: gaps), trail.
      unfold new_line. rewrite <- app_assoc.
      cbn [interleave]. rewrite <- !app_assoc.
      split; [reflexivity|]. split; [reflexivity|].
      split; [simpl; simpl in Len; lia|].
      split; [|repeat split; auto; now apply blank_concat].
      constructor; [|assumption].
      rewrite forallb_app, L, blank_concat; auto.
Qed.

(** ** The boundaries of the pieces *)

Lemma span_le (p : ascii -> bool) (s : str) : span p s <= length s.
Proof. induction s as [|c s IH]; simpl; [lia|]. destruct (p c); simpl; lia. Qed.

Lemma span_firstn (p : ascii -> bool) (s : str) :
  Forall (fun c => p c = true) (firstn (span p s) s).
Proof.
  induction s as [|c s IH]; simpl; [constructor|].
  destruct (p c) eqn:Pc; simpl; [constructor; assumption | constructor].
Qed.

Lemma ends_breakable_Forall (s : str) :
  s <> [] -> Forall (fun c => breakable c = true) s -> ends_breakable s = true.
Proof.
  intros Full F. unfold ends_breakable.
  destruct (rev s) as [|c r] eqn:Rev.
  - apply (f_equal (@rev ascii)) in Rev. rewrite rev_involutive in Rev.
    contradiction.
  - simpl. rewrite Forall_forall in F. apply F. apply in_rev. rewrite Rev.
    now left.
Qed.

Lemma ends_breakable_cons (c : ascii) (s : str) :
  s <> [] -> ends_breakable (c :: s) = ends_breakable s.
Proof.
  intros Full. unfold ends_breakable. simpl.
  destruct (rev s) as [|d r] eqn:Rev; [|reflexivity].
  apply (f_equal (@rev ascii)) in Rev. rewrite rev_involutive in Rev.
  contradiction.
Qed.

Lemma firstn_full (n : nat) (s : str) :
  0 < n -> s <> [] -> firstn n s <> [].
Proof. destruct n; [lia|]. destruct s; [congruence | discriminate]. Qed.

Lemma dashes_then_word_hyphen (rest : str) (k : nat) :
  dashes_then_word rest = Some k ->
  k = span is_hyphen rest /\ 2 <= k.
Proof.
  unfold dashes_then_word.
  destruct (2 <=? span is_hyphen rest) eqn:Two; [|discriminate].
  destruct (nth_error rest (span is_hyphen rest)) as [c|]; [|discriminate].
  destruct (re_word c); [|discriminate].
  intros [= <-]. apply Nat.leb_le in Two. auto.
Qed.

(** Where the tail of a word ends: at the end of the text, before a
    character of whitespace or a hyphen, or after a hyphen. *)
Lemma word_end_soft :
  forall (rest before : str),
    word_end before rest <= length rest
    /\ (skipn (word_end before rest) rest = []
        \/ starts_breakable (skipn (word_end before rest) rest) = true
        \/ (0 < word_end before rest
            /\ ends_breakable (firstn (word_end before rest) rest) = true)).
Proof.
  induction rest as [|c rest IH]; intros before; [simpl; auto|].
  cbn [word_end].
  destruct (hyphen_break before (c :: rest)) eqn:Break.
  { cbn [hyphen_break] in Break. apply andb_true_iff in Break as [Break _].
    apply andb_true_iff in Break as [Hyphen _].
    split; [cbn [length]; lia|]. right; right. split; [lia|].
    unfold ends_breakable. cbn [firstn rev app starts_breakable].
    unfold breakable. now rewrite Hyphen, orb_true_r. }
  destruct (is_whitespace c) eqn:Ws.
  { split; [cbn [length]; lia|]. right; left. cbn [skipn starts_breakable].
    unfold breakable. now rewrite Ws. }
  destruct (behind_word_punct before
            && match dashes_then_word (c :: rest) with
               | Some _ => true
               | None => false
               end) eqn:Dash.
  { split; [cbn [length]; lia|]. right; left.
    apply andb_true_iff in Dash as [_ Dash].
    destruct (dashes_then_word (c :: rest)) as [k|] eqn:D; [|discriminate].
    apply dashes_then_word_hyphen in D as [-> Two]. cbn [span] in Two.
    cbn [skipn starts_breakable]. unfold breakable.
    destruct (is_hyphen c); [apply orb_true_r | lia]. }
  destruct (IH (c :: before)) as [Le Ends].
  split; [cbn [length]; lia|]. cbn [skipn firstn].
  destruct Ends as [End | [Soft | [Pos Soft]]]; auto.
  right; right. split; [lia|].
  rewrite ends_breakable_cons; [exact Soft|].
  apply firstn_full; [exact Pos|]. destruct rest; [simpl in *; lia | discriminate].
Qed.

(** A match of [wordsep_re] is not empty; it ends at the end of the
    text, before a character of whitespace or a hyphen, or with one. *)
Lemma wordsep_re_soft (before : str) (c : ascii) (rest : str) :
  exists n,
    wordsep_re before (c :: rest) = Some (S n)
    /\ S n <= length (c :: rest)
    /\ (skipn (S n) (c :: rest) = []
        \/ starts_breakable (skipn (S n) (c :: rest)) = true
        \/ ends_breakable (firstn (S n) (c :: rest)) = true).
Proof.
  unfold wordsep_re, alt_whitespace.
  assert (forall (p : ascii -> bool) (n : nat),
             (forall d, p d = true -> breakable d = true) ->
             S n = span p (c :: rest) ->
             S n <= length (c :: rest)
             /\ (skipn (S n) (c :: rest) = []
                 \/ starts_breakable (skipn (S n) (c :: rest)) = true
                 \/ ends_breakable (firstn (S n) (c :: rest)) = true))
    as Run.
  { intros p n Soft E. split; [rewrite E; apply span_le|].
    right; right. rewrite E. apply ends_breakable_Forall.
    - rewrite <- E. discriminate.
    - assert (F := span_firstn p (c :: rest)). revert F. apply Forall_impl.
      exact Soft. }
  destruct (0 <? span is_whitespace (c :: rest)) eqn:Ws.
  { apply Nat.ltb_lt in Ws.
    destruct (span is_whitespace (c :: rest)) as [|n] eqn:E; [lia|].
    exists n. split; [reflexivity|]. apply (Run is_whitespace); [|now rewrite E].
    intros d Hd. unfold breakable. now rewrite Hd. }
  assert (is_whitespace c = false) as NotWs.
  { apply Nat.ltb_ge in Ws. cbn [span] in Ws.
    destruct (is_whitespace c); [lia | reflexivity]. }
  unfold alt_emdash.
  destruct (behind_word_punct before).
  - destruct (dashes_then_word (c :: rest)) as [k|] eqn:D.
    + apply dashes_then_word_hyphen in D as [-> Two].
      destruct (span is_hyphen (c :: rest)) as [|n] eqn:E; [lia|].
      exists n. split; [reflexivity|]. apply (Run is_hyphen); [|now rewrite E].
      intros d Hd. unfold breakable. now rewrite Hd, orb_true_r.
    + unfold alt_word. rewrite NotWs.
      exists (word_end (c :: before) rest). split; [reflexivity|].
      destruct (word_end_soft rest (c :: before)) as [Le Ends].
      split; [cbn [length]; lia|]. cbn [skipn firstn].
      destruct Ends as [End | [Soft | [Pos Soft]]]; auto.
      right; right. rewrite ends_breakable_cons; [exact Soft|].
      apply firstn_full; [exact Pos|].
      destruct rest; [simpl in *; lia | discriminate].
  - unfold alt_word. rewrite NotWs.
    exists (word_end (c :: before) rest). split; [reflexivity|].
    destruct (word_end_soft rest (c :: before)) as [Le Ends].
    split; [cbn [length]; lia|]. cbn [skipn firstn].
    destruct Ends as [End | [Soft | [Pos Soft]]]; auto.
    right; right. rewrite ends_breakable_cons; [exact Soft|].
    apply firstn_full; [exact Pos|].
    destruct rest; [simpl in *; lia | discriminate].
Qed.

Lemma re_split_from_soft :
  forall (fuel : nat) (before rest : str),
    length rest <= fuel ->
    soft_boundaries (filter nonempty (re_split_from fuel before [] rest))
    /\ match filter nonempty (re_split_from fuel before [] rest) with
       | [] => rest = []
       | m :: _ => exists k, m = firstn (S k) rest
       end.
Proof.
  induction fuel as [|fuel IH]; intros before rest Enough.
  - destruct rest; [simpl; auto | simpl in Enough; lia].
  - destruct rest as [|c rest]; [simpl; auto|].
    cbn [re_split_from].
    destruct (wordsep_re_soft before c rest) as (n & -> & Le & Ends).
    cbn [rev filter nonempty app].
    set (m := firstn (S n) (c :: rest)) in *.
    assert (nonempty m = true) as -> by reflexivity.
    destruct (IH (rev m ++ before) (skipn (S n) (c :: rest)))
      as [Soft Head].
    { rewrite length_skipn. simpl in *. lia. }
    split; [|now exists n]. split; [|exact Soft].
    destruct Ends as [End | [Start | End]].
    + rewrite End. destruct fuel; simpl; exact I.
    + destruct (filter nonempty
                  (re_split_from fuel (rev m ++ before) []
                     (skipn (S n) (c :: rest)))) as [|q more]; [exact I|].
      destruct Head as [k ->]. apply orb_true_iff. right.
      destruct (skipn (S n) (c :: rest)); [discriminate Start | exact Start].
    + destruct (filter nonempty
                  (re_split_from fuel (rev m ++ before) []
                     (skipn (S n) (c :: rest)))) as [|q more]; [exact I|].
      apply orb_true_iff. now left.
Qed.

(** Every boundary between two pieces of [_split] has a character of
    whitespace or a hyphen on one side. *)
Lemma split_soft (text : str) : soft_boundaries (_split text).
Proof.
  unfold _split, re_split. apply re_split_from_soft. lia.
Qed.

(** ** Words *)

Lemma words_from_lead (g rest : str) :
  forallb isspace g = true -> words_from [] (g ++ rest) = words_from [] rest.
Proof.
  induction g as [|c g IH]; simpl; [reflexivity|].
  intros B. apply andb_true_iff in B as [-> B]. simpl. auto.
Qed.

Lemma words_from_trail (t : str) :
  forallb isspace t = true ->
  forall (s cur : str), words_from cur (s ++ t) = words_from cur s.
Proof.
  intros B. induction s as [|c s IH]; intros cur.
  - destruct t as [|x t]; [reflexivity|]. simpl in B.
    apply andb_true_iff in B as [Bx B]. simpl. rewrite Bx.
    rewrite <- (app_nil_r t), (words_from_lead t [] B). reflexivity.
  - simpl. destruct (isspace c); [destruct (nonempty cur)|];
      now rewrite ?IH.
Qed.

Lemma words_from_gap (g rest : str) :
  forallb isspace g = true -> g <> [] ->
  forall (a cur : str),
    words_from cur (a ++ g ++ rest) = words_from cur a ++ words_from [] rest.
Proof.
  intros B Full. induction a as [|c a IH]; intros cur.
  - destruct g as [|x g]; [congruence|]. simpl in B.
    apply andb_true_iff in B as [Bx B]. simpl. rewrite Bx.
    rewrite (words_from_lead g rest B). now destruct (nonempty cur).
  - simpl. destruct (isspace c); [destruct (nonempty cur)|];
      now rewrite ?IH.
Qed.

Lemma words_from_interleave :
  forall (chunks gaps : list str),
    length gaps = pred (length chunks) ->
    Forall whitespace_gap gaps ->
    words_from [] (interleave chunks gaps)
    = concat (map (words_from []) chunks).
Proof.
  induction chunks as [|c chunks IH]; intros gaps Len Gaps; [reflexivity|].
  destruct chunks as [|c2 chunks].
  - destruct gaps; [|discriminate Len]. simpl. now rewrite !app_nil_r.
  - destruct gaps as [|g gaps]; [discriminate Len|].
    inversion Gaps as [|? ? [Full B] Gaps']; subst.
    cbn [interleave map concat].
    rewrite (words_from_gap g _ B Full). f_equal.
    apply IH; [simpl in *; lia | assumption].
Qed.

Lemma join_interleave (sep : str) :
  forall (parts : list str),
    join sep parts = interleave parts (repeat sep (pred (length parts))).
Proof.
  induction parts as [|p parts IH]; [reflexivity|].
  destruct parts as [|q parts]; [simpl; now rewrite app_nil_r|].
  change (join sep (p :: q :: parts)) with (p ++ sep ++ join sep (q :: parts)).
  rewrite IH. reflexivity.
Qed.

Lemma words_from_translate :
  forall (s cur : str),
    words_from cur (translate_whitespace s) = words_from cur s.
Proof.
  unfold translate_whitespace.
  induction s as [|c s IH]; intros cur; [reflexivity|].
  cbn [map words_from].
  destruct (is_whitespace c) eqn:Ws.
  - rewrite (is_whitespace_isspace c Ws).
    change (isspace SPACE) with true. cbn iota.
    now rewrite !IH.
  - destruct (isspace c); [destruct (nonempty cur)|]; now rewrite ?IH.
Qed.

Lemma words_from_expandtabs (tabsize : nat) :
  0 < tabsize ->
  forall (s : str) (column : nat) (cur : str),
    words_from cur (expandtabs_from tabsize column s) = words_from cur s.
Proof.
  intros Pos. induction s as [|c s IH]; intros column cur; [reflexivity|].
  cbn [expandtabs_from].
  destruct (is_char 9 c) eqn:Tab.
  - apply Nat.ltb_lt in Pos as Lt. rewrite Lt.
    assert (isspace c = true) as Space.
    { apply is_char_code in Tab. unfold isspace, between. now rewrite Tab. }
    cbn [words_from]. rewrite Space.
    assert (column mod tabsize < tabsize) as Mod
      by (apply Nat.mod_upper_bound; lia).
    destruct (tabsize - column mod tabsize) as [|k] eqn:E; [lia|].
    cbn [repeat app words_from]. change (isspace SPACE) with true. cbn iota.
    rewrite words_from_lead, IH.
    + reflexivity.
    + apply forallb_forall. intros x In. apply repeat_spec in In. now subst x.
  - cbn [words_from].
    destruct (isspace c); [destruct (nonempty cur)|]; now rewrite ?IH.
Qed.

Lemma normalize_munge (text : str) :
  normalize_whitespace (_munge_whitespace text) = normalize_whitespace text.
Proof.
  unfold normalize_whitespace, _munge_whitespace, expandtabs.
  now rewrite words_from_translate, words_from_expandtabs by lia.
Qed.

(** Chunks that lie in a text with whitespace between them, joined by
    single spaces, are the text up to whitespace. *)
Lemma normalize_joined (text : str) (chunks : list str) :
  breaks_at_whitespace text chunks ->
  normalize_whitespace (join [SPACE] chunks) = normalize_whitespace text.
Proof.
  intros (lead & trail & gaps & Len & Gaps & L & T & ->).
  unfold normalize_whitespace. f_equal.
  rewrite words_from_lead by assumption.
  rewrite words_from_trail by assumption.
  rewrite (words_from_interleave chunks gaps Len Gaps).
  rewrite join_interleave. apply words_from_interleave.
  - now rewrite repeat_length.
  - apply Forall_forall. intros g In. apply repeat_spec in In. subst g.
    split; [discriminate | reflexivity].
Qed.

(** ** Texts without hyphens *)

Lemma span_ext (p q : ascii -> bool) (s : str) :
  (forall c, p c = q c) -> span p s = span q s.
Proof.
  intros E. induction s as [|c s IH]; simpl; [reflexivity|].
  rewrite E, IH. reflexivity.
Qed.

Lemma dashes_then_word_hyphen_free (rest : str) :
  hyphen_free rest -> dashes_then_word rest = None.
Proof.
  intros F. unfold dashes_then_word.
  destruct F as [|c rest Hc _]; simpl; [reflexivity|]. now rewrite Hc.
Qed.

Lemma word_end_hyphen_free :
  forall (rest before : str),
    hyphen_free rest ->
    word_end before rest = span (fun c => negb (is_whitespace c)) rest.
Proof.
  induction rest as [|c rest IH]; intros before F; [reflexivity|].
  inversion F as [|? ? Hc F']; subst.
  cbn [word_end span]. unfold hyphen_break. rewrite Hc. cbn [andb].
  rewrite (dashes_then_word_hyphen_free (c :: rest) F), andb_false_r.
  destruct (is_whitespace c); cbn [negb]; [reflexivity|].
  now rewrite IH.
Qed.

Lemma wordsep_re_hyphen_free (before : str) (c : ascii) (rest : str) :
  hyphen_free (c :: rest) ->
  wordsep_re before (c :: rest) = Some (S (span (same_class c) rest)).
Proof.
  intros F. unfold wordsep_re, alt_whitespace, alt_emdash, alt_word.
  rewrite (dashes_then_word_hyphen_free (c :: rest) F).
  inversion F as [|? ? Hc F']; subst.
  cbn [span]. destruct (is_whitespace c) eqn:Ws.
  - cbn [Nat.ltb Nat.leb]. do 2 f_equal. apply span_ext. intros d.
    unfold same_class. rewrite Ws. now destruct (is_whitespace d).
  - cbn [Nat.ltb Nat.leb]. destruct (behind_word_punct before);
      rewrite word_end_hyphen_free by assumption;
      do 2 f_equal; apply span_ext; intros d;
      unfold same_class; rewrite Ws; now destruct (is_whitespace d).
Qed.

(** The first run of a text is its longest prefix of the class of its
    first character. *)
Lemma runs_cons :
  forall (rest : str) (c : ascii),
    runs (c :: rest)
    = (c :: firstn (span (same_class c) rest) rest)
        :: runs (skipn (span (same_class c) rest) rest).
Proof.
  induction rest as [|d rest IH]; intros c; [reflexivity|].
  change (runs (c :: d :: rest))
    with (match runs (d :: rest) with
          | (d' :: run) :: more =>
              if Bool.eqb (is_whitespace c) (is_whitespace d')
              then (c :: d' :: run) :: more
              else [c] :: (d' :: run) :: more
          | _ => [[c]]
          end).
  rewrite (IH d). cbn [span]. fold (same_class c d).
  destruct (same_class c d) eqn:Same;
    [|cbn [firstn skipn]; now rewrite (IH d)].
  cbn [firstn skipn].
  assert (span (same_class d) rest = span (same_class c) rest) as ->;
    [|reflexivity].
  apply span_ext. intros x. unfold same_class in *.
  apply eqb_prop in Same. now rewrite Same.
Qed.

Lemma hyphen_free_skipn (n : nat) (s : str) :
  hyphen_free s -> hyphen_free (skipn n s).
Proof.
  intros F. unfold hyphen_free in *.
  rewrite <- (firstn_skipn n s) in F. apply Forall_app in F. tauto.
Qed.

Lemma re_split_from_hyphen_free :
  forall (fuel : nat) (before rest : str),
    length rest <= fuel -> hyphen_free rest ->
    filter nonempty (re_split_from fuel before [] rest) = runs rest.
Proof.
  induction fuel as [|fuel IH]; intros before rest Enough F.
  - destruct rest; [reflexivity | simpl in Enough; lia].
  - destruct rest as [|c rest]; [reflexivity|].
    cbn [re_split_from]. rewrite (wordsep_re_hyphen_free before c rest F).
    rewrite runs_cons. cbn [rev filter nonempty firstn skipn]. f_equal.
    apply IH.
    + rewrite length_skipn. simpl in Enough. lia.
    + inversion F; subst. now apply hyphen_free_skipn.
Qed.

(** Without hyphens, [wordsep_re] splits at whitespace only. *)
Lemma split_hyphen_free (text : str) :
  hyphen_free text -> _split text = runs text.
Proof.
  intros F. unfold _split, re_split.
  apply re_split_from_hyphen_free; [lia | assumption].
Qed.

Lemma expandtabs_from_Forall (P : ascii -> Prop) (tabsize : nat) :
  P SPACE ->
  forall (s : str) (column : nat),
    Forall P s -> Forall P (expandtabs_from tabsize column s).
Proof.
  intros Space. induction s as [|c s IH]; intros column F; simpl;
    [constructor|].
  inversion F; subst. destruct (is_char 9 c).
  - destruct (0 <? tabsize); [|now apply IH].
    apply Forall_app. split; [|now apply IH].
    apply Forall_forall. intros x In. apply repeat_spec in In. now subst x.
  - constructor; [assumption | now apply IH].
Qed.

Lemma hyphen_free_munge (text : str) :
  hyphen_free text -> hyphen_free (_munge_whitespace text).
Proof.
  unfold _munge_whitespace, translate_whitespace, expandtabs, hyphen_free.
  intros F. apply Forall_map.
  apply (expandtabs_from_Forall (fun c => is_hyphen c = false) 8 eq_refl)
    with (column := 0) in F.
  revert F. apply Forall_impl. intros c Hc. now destruct (is_whitespace c).
Qed.

(** The runs of a text alternate between whitespace and words. *)

Lemma runs_alternating :
  forall (s : str),
    match s with
    | [] => runs s = []
    | c :: _ => alternating (is_whitespace c) (runs s)
    end.
Proof.
  induction s as [|c s IH]; [reflexivity|].
  destruct s as [|d s].
  { simpl. repeat split; [discriminate | repeat constructor]. }
  change (runs (c :: d :: s))
    with (match runs (d :: s) with
          | (d' :: run) :: more =>
              if Bool.eqb (is_whitespace c) (is_whitespace d')
              then (c :: d' :: run) :: more
              else [c] :: (d' :: run) :: more
          | _ => [[c]]
          end).
  destruct (runs (d :: s)) as [|[|d' run] more].
  - simpl. repeat split; [discriminate | repeat constructor].
  - destruct IH as [[[] _] _]. reflexivity.
  - destruct IH as [[_ Uniform] Rest].
    assert (is_whitespace d' = is_whitespace d) as Class
      by (now inversion Uniform).
    rewrite Class.
    destruct (Bool.eqb (is_whitespace c) (is_whitespace d)) eqn:Same.
    + apply eqb_prop in Same. rewrite Same. simpl. repeat split; auto.
      discriminate.
    + apply eqb_false_iff in Same. simpl. repeat split.
      * discriminate.
      * repeat constructor.
      * discriminate.
      * replace (negb (is_whitespace c)) with (is_whitespace d)
          by (destruct (is_whitespace c), (is_whitespace d); simpl; congruence).
        assumption.
      * replace (negb (negb (is_whitespace c))) with (negb (is_whitespace d))
          by (destruct (is_whitespace c), (is_whitespace d); simpl; congruence).
        assumption.
Qed.

Lemma uniform_blank (run : str) : uniform true run -> blank run.
Proof.
  intros [_ F]. unfold blank, strip_is_empty. apply forallb_forall.
  intros x In. rewrite Forall_forall in F. now apply is_whitespace_isspace, F.
Qed.

Lemma alternating_spaced :
  forall (l : list str) (b : bool),
    alternating b l -> spaced l /\ Forall (fun r => r <> []) l.
Proof.
  induction l as [|p l IH]; intros b A; [split; constructor|].
  destruct A as [Up Al]. destruct (IH _ Al) as [Sp Ne].
  split; [|constructor; [apply Up | assumption]].
  split; [|assumption].
  destruct l as [|q l]; [exact I|]. destruct Al as [Uq _].
  destruct b; [left | right]; now apply uniform_blank.
Qed.

Lemma runs_spaced (s : str) :
  spaced (runs s) /\ Forall (fun r => r <> []) (runs s).
Proof.
  assert (A := runs_alternating s). destruct s as [|c s].
  - rewrite A. split; constructor.
  - exact (alternating_spaced _ _ A).
Qed.

(** ** The chunker of the pipeline *)

Lemma wrap_ok (text : str) (width : nat) :
  0 < width ->
  wrap text width
  = Ok (wrap_loop (size (_split_chunks text)) width [] (_split_chunks text)).
Proof.
  intros Pos. unfold wrap, _wrap_chunks.
  destruct width; [lia | reflexivity].
Qed.

Lemma wrap_loop_done (fuel width : nat) (lines : list str) :
  wrap_loop fuel width lines [] = lines.
Proof. destruct fuel; reflexivity. Qed.

Lemma wrap_loop_single (width : nat) (chunks : list str) :
  0 < width ->
  length (concat chunks) <= width ->
  ~ Forall blank chunks ->
  exists line, wrap_loop (size chunks) width [] chunks = [line].
Proof.
  intros Pos Fits Visible.
  destruct chunks as [|c0 cs]; [contradiction Visible; constructor|].
  rewrite size_cons. cbn [plus wrap_loop].
  destruct (wrap_step_spec width [] (c0 :: cs) Pos ltac:(discriminate))
    as (lead & taken & tail & cur_line & kept & dropped & chunks'
        & Split & _ & _ & First & _ & _ & Cases & Kept & Dropped & _ & _
        & ->).
  rewrite (First eq_refl) in Split. simpl in Split.
  rewrite Split, concat_app, length_app in Fits.
  destruct Cases as [(-> & -> & Stop) | (c & r & e & -> & Long & _)].
  - destruct tail as [|c r].
    + rewrite wrap_loop_done. destruct kept as [|k ks].
      * exfalso. apply Visible. rewrite Split, app_nil_r, Kept. exact Dropped.
      * eexists. reflexivity.
    + rewrite length_concat_cons in Fits. lia.
  - rewrite length_concat_cons in Fits. lia.
Qed.

Lemma short_word_fitting (width : nat) (l : list str) :
  Forall (fun r => r <> []) l -> Forall (short_word width) l ->
  Forall (fitting width) l.
Proof.
  intros Full Short. rewrite Forall_forall in *. intros run In.
  split; [now apply Full|]. destruct (Short run In) as [Ws|Le]; [right | now left].
  unfold blank, strip_is_empty. apply forallb_forall. intros c Ic.
  rewrite forallb_forall in Ws. now apply is_whitespace_isspace, Ws.
Qed.

(** In a text without hyphens whose words fit the width, every chunk
    boundary falls at whitespace. *)
Lemma wrap_breaks_at_whitespace (text : str) :
  hyphen_free text ->
  Forall (short_word 2000) (runs (_munge_whitespace text)) ->
  _split_chunks text = runs (_munge_whitespace text)
  /\ breaks_at_whitespace (_munge_whitespace text)
       (wrap_loop (size (_split_chunks text)) 2000 [] (_split_chunks text)).
Proof.
  intros NoHyphen Short.
  assert (_split_chunks text = runs (_munge_whitespace text)) as Runs.
  { unfold _split_chunks. now apply split_hyphen_free, hyphen_free_munge. }
  split; [exact Runs|].
  destruct (runs_spaced (_munge_whitespace text)) as [Spaced Full].
  destruct (wrap_loop_gaps 2000 ltac:(lia) (size (_split_chunks text))
              [] (_split_chunks text) true (Nat.le_refl _))
    as (new & lead & gaps & trail & E & Text & Len & Gaps & L & T & _).
  - rewrite Runs. now apply short_word_fitting.
  - now rewrite Runs.
  - discriminate.
  - rewrite E. simpl. exists lead, trail, gaps.
    repeat split; auto.
    rewrite <- Text. unfold _split_chunks. now rewrite split_concat.
Qed.

Lemma wrap_lies_in (text : str) :
  lies_in (_munge_whitespace text)
    (wrap_loop (size (_split_chunks text)) 2000 [] (_split_chunks text)).
Proof.
  destruct (wrap_loop_lies 2000 ltac:(lia) (size (_split_chunks text)) []
              (_split_chunks text) (Nat.le_refl _))
    as (new & lead & gaps & trail & E & Text & Len & Gaps & L & T).
  rewrite E. simpl. exists lead, trail, gaps. repeat split; auto.
  rewrite <- Text. unfold _split_chunks. now rewrite split_concat.
Qed.

Lemma remove_whitespace_visible (text : str) :
  existsb (fun c => negb (isspace c)) text = true ->
  remove_whitespace text <> [].
Proof.
  induction text as [|c text IH]; simpl; [discriminate|].
  destruct (isspace c); simpl; [exact IH | discriminate].
Qed.

(** C9, as amended: a text with a visible character whose length, once
    its tabs are expanded, is at most 2000 gives exactly one chunk; the
    empty text gives no chunk. *)
Theorem chunker_degenerate_cases :
  (forall text : str,
      length (expandtabs 8 text) <= 2000 ->
      existsb (fun c => negb (isspace c)) text = true ->
      exists chunk, wrap text 2000 = Ok [chunk])
  /\ wrap [] 2000 = Ok [].
Proof.
  split; [|reflexivity].
  intros text Fits Visible. rewrite wrap_ok by lia.
  destruct (wrap_loop_single 2000 (_split_chunks text)) as [line ->].
  - lia.
  - unfold _split_chunks. now rewrite split_concat, length_munge.
  - intros Blank. apply (remove_whitespace_visible text Visible).
    rewrite <- split_chunks_content. now apply remove_whitespace_blanks.
  - now exists line.
Qed.

(** At most one chunk that lies in a text is the text up to whitespace. *)
Lemma normalize_one_chunk (text : str) (chunks : list str) :
  lies_in text chunks -> length chunks <= 1 ->
  normalize_whitespace (concat chunks) = normalize_whitespace text.
Proof.
  intros (lead & trail & gaps & Len & Gaps & L & T & Text) One.
  assert (gaps = []) as ->.
  { destruct chunks as [|c [|c' chunks]]; simpl in *; try lia;
      now destruct gaps. }
  assert (concat chunks = join [SPACE] chunks) as ->.
  { destruct chunks as [|c [|c' chunks]]; simpl in *; try lia;
      [reflexivity | apply app_nil_r]. }
  apply normalize_joined. exists lead, trail, []. repeat split; auto.
Qed.

(** C4, as amended: the chunks lie in the text (its tabs expanded and its
    whitespace turned into spaces) in order, and only whitespace, if
    anything, lies before the first, between two of them and after the
    last, so the chunks put end to end are the text less some of its
    whitespace; when there is at most one chunk, they are the text up to
    whitespace normalisation; in a text without hyphens whose words hold
    at most 2000 characters the chunks joined by single spaces are the
    text up to whitespace normalisation. *)
Theorem chunking_preserves_visible_text (text : str) :
  exists chunks,
    wrap text 2000 = Ok chunks
    /\ lies_in (_munge_whitespace text) chunks
    /\ remove_whitespace (concat chunks) = remove_whitespace text
    /\ (length chunks <= 1 ->
        normalize_whitespace (concat chunks) = normalize_whitespace text)
    /\ (hyphen_free text ->
        Forall (short_word 2000) (runs (_munge_whitespace text)) ->
        normalize_whitespace (join [SPACE] chunks)
        = normalize_whitespace text).
Proof.
  eexists. split; [apply wrap_ok; lia|]. split; [apply wrap_lies_in|].
  split; [|split].
  - rewrite wrap_loop_content by (lia || apply Nat.le_refl).
    apply split_chunks_content.
  - intros One. rewrite <- (normalize_munge text).
    apply normalize_one_chunk; [apply wrap_lies_in | exact One].
  - intros NoHyphen Short. rewrite <- (normalize_munge text).
    apply normalize_joined. now apply wrap_breaks_at_whitespace.
Qed.

(** C3, as amended: every chunk has at most 2000 characters; between two
    consecutive pieces cut by the word splitter the text has a character
    of whitespace or a hyphen, at the end of the first or at the start of
    the second; when no piece is longer than 2000, every chunk is made of
    whole consecutive pieces and only whitespace pieces are dropped; in a
    text without hyphens in which no run of characters other than
    whitespace is longer than 2000, the pieces are the maximal runs of
    whitespace and of other characters, and every chunk boundary falls at
    whitespace. *)
Theorem chunks_within_width (text : str) :
  exists chunks,
    wrap text 2000 = Ok chunks
    /\ Forall (fun chunk => length chunk <= 2000) chunks
    /\ soft_boundaries (_split_chunks text)
    /\ (Forall (fun p => length p <= 2000) (_split_chunks text) ->
        exists groups,
          chunks = map (@concat ascii) groups
          /\ Forall (fun g => g <> []) groups
          /\ drops_whitespace (_split_chunks text) (concat groups))
    /\ (hyphen_free text ->
        Forall (short_word 2000) (runs (_munge_whitespace text)) ->
        _split_chunks text = runs (_munge_whitespace text)
        /\ breaks_at_whitespace (_munge_whitespace text) chunks).
Proof.
  assert (0 < 2000) as Pos by lia.
  eexists. split; [apply wrap_ok; lia|]. split; [|split; [|split]].
  - apply wrap_loop_bound; [assumption | constructor].
  - apply split_soft.
  - intros Short.
    destruct (wrap_loop_groups 2000 Pos (size (_split_chunks text)) []
                (_split_chunks text) (Nat.le_refl _) Short)
      as (groups & E & Full & Drops).
    exists groups. auto.
  - apply wrap_breaks_at_whitespace.
Qed.

Lemma str_eqb_refl (s : str) : str_eqb s s = true.
Proof.
  induction s as [|c s IH]; simpl; [reflexivity|].
  now rewrite Ascii.eqb_refl, IH.
Qed.

Lemma Forall_leb (n : nat) (l : list str) :
  forallb (fun s => length s <=? n) l = true ->
  Forall (fun s => length s <= n) l.
Proof.
  intros F. apply Forall_forall. intros s In.
  rewrite forallb_forall in F. now apply Nat.leb_le, F.
Qed.

Lemma Forall_short_word (n : nat) (l : list str) :
  forallb (fun r => forallb is_whitespace r || (length r <=? n)) l = true ->
  Forall (short_word n) l.
Proof.
  intros F. apply Forall_forall. intros r In.
  rewrite forallb_forall in F. specialize (F r In).
  apply orb_true_iff in F as [Ws|Le]; [now left | right].
  now apply Nat.leb_le.
Qed.

Lemma hyphen_free_b (s : str) :
  forallb (fun c => negb (is_hyphen c)) s = true -> hyphen_free s.
Proof.
  intros F. apply Forall_forall. intros c In.
  rewrite forallb_forall in F. specialize (F c In).
  now destruct (is_hyphen c).
Qed.

Lemma wrap_hyphenated :
  wrap hyphenated_text 2000
  = Ok [repeat "a"%char 1995 ++ lit " bb-"; lit "cc"].
Proof. vm_compute. reflexivity. Qed.

Lemma wrap_two_word :
  wrap two_word_text 2000 = Ok [repeat "a"%char 2000; lit "b"].
Proof. vm_compute. reflexivity. Qed.

(** C3 as stated fails: in [hyphenated_text], where no run of visible
    characters is longer than 2000, the boundary between the two chunks
    falls after the hyphen of bb-cc, not at whitespace. *)
Lemma hyphenated_word_split :
  ~ (forall text chunks : _,
        wrap text 2000 = Ok chunks ->
        Forall (fun chunk => length chunk <= 2000) chunks
        /\ (Forall (fun run => length run <= 2000)
              (runs (_munge_whitespace text)) ->
            breaks_at_whitespace (_munge_whitespace text) chunks)).
Proof.
  intros Claim.
  destruct (Claim hyphenated_text _ wrap_hyphenated) as [_ Breaks].
  destruct Breaks as (lead & trail & gaps & Len & Gaps & _ & _ & Text).
  { apply Forall_leb. vm_compute. reflexivity. }
  destruct gaps as [|gap [|]]; try discriminate Len.
  inversion Gaps as [|? ? [Nonempty _] _]; subst.
  cbn [interleave] in Text. apply (f_equal (@length ascii)) in Text.
  rewrite !length_app in Text.
  assert (length (_munge_whitespace hyphenated_text) = 2001) as L0
    by (vm_compute; reflexivity).
  rewrite L0, repeat_length in Text.
  change (length (lit " bb-")) with 4 in Text.
  change (length (lit "cc")) with 2 in Text.
  destruct gap; [congruence|]. cbn [length] in Text. lia.
Qed.

(** C4 as stated fails: the chunks of [two_word_text] put end to end have
    lost the space between the two words, which normalisation keeps;
    normalising the concatenation does not bring it back. *)
Lemma concat_not_normalized :
  ~ (forall text chunks : _,
        wrap text 2000 = Ok chunks ->
        concat chunks = normalize_whitespace text)
  /\ ~ (forall text chunks : _,
           wrap text 2000 = Ok chunks ->
           normalize_whitespace (concat chunks) = normalize_whitespace text).
Proof.
  split; intros Claim; specialize (Claim two_word_text _ wrap_two_word).
  - assert (str_eqb (concat [repeat "a"%char 2000; lit "b"])
              (normalize_whitespace two_word_text) = false) as Differ
      by (vm_compute; reflexivity).
    rewrite Claim, str_eqb_refl in Differ. discriminate.
  - assert (str_eqb
              (normalize_whitespace (concat [repeat "a"%char 2000; lit "b"]))
              (normalize_whitespace two_word_text) = false) as Differ
      by (vm_compute; reflexivity).
    rewrite Claim, str_eqb_refl in Differ. discriminate.
Qed.

(** C9 as stated fails: a text of one space gives no chunk, and
    [tabbed_text], 600 characters long, gives two chunks. *)
Lemma degenerate_cases_fail :
  ~ (forall text : str,
        text <> [] -> length text <= 2000 ->
        exists chunk, wrap text 2000 = Ok [chunk])
  /\ ~ (forall text : str,
           existsb (fun c => negb (isspace c)) text = true ->
           length text <= 2000 ->
           exists chunk, wrap text 2000 = Ok [chunk]).
Proof.
  split; intros Claim.
  - destruct (Claim [SPACE]) as [chunk Wrapped].
    + discriminate.
    + simpl. lia.
    + vm_compute in Wrapped. discriminate.
  - destruct (Claim tabbed_text) as [chunk Wrapped].
    + vm_compute. reflexivity.
    + apply Nat.leb_le. vm_compute. reflexivity.
    + assert (match wrap tabbed_text 2000 with
              | Ok [_; _] => true
              | _ => false
              end = true) as Two by (vm_compute; reflexivity).
      rewrite Wrapped in Two. discriminate.
Qed.

(** ** Further facts about the chunker *)

(** Chunks stay non-empty through an iteration, and the line an iteration
    adds is not empty. *)
Lemma wrap_step_full (width : nat) (lines chunks : list str) :
  0 < width -> chunks <> [] ->
  Forall (fun l => l <> []) lines -> Forall (fun c => c <> []) chunks ->
  Forall (fun l => l <> []) (fst (wrap_step width lines chunks))
  /\ Forall (fun c => c <> []) (snd (wrap_step width lines chunks)).
Proof.
  intros Pos Nonempty Lines Chunks.
  destruct (wrap_step_spec width lines chunks Pos Nonempty)
    as (lead & taken & tail & cur_line & kept & dropped & chunks'
        & -> & _ & _ & _ & _ & Fit & Cases & Kept & _ & _ & _ & ->).
  apply Forall_app in Chunks as [_ Chunks].
  apply Forall_app in Chunks as [Taken Tail]. simpl. split.
  - apply Forall_app. split; [assumption|].
    destruct kept as [|k ks]; constructor; [|constructor].
    assert (k <> []) as Full; [|destruct k; [congruence | discriminate]].
    destruct Cases as [(-> & _) | (c & r & e & -> & Long & _ & Gt & -> & _)].
    + subst taken. now inversion Taken.
    + destruct taken as [|t ts].
      * injection Kept as <- _. specialize (Gt eq_refl).
        destruct e; [lia|]. destruct c; [simpl in Long; lia | discriminate].
      * injection Kept as <- _. now inversion Taken.
  - destruct Cases as [(_ & -> & _) | (c & r & e & -> & Long & Le & _ & _ & ->)];
      [assumption|].
    inversion Tail; subst. constructor; [|assumption].
    intros Empty. apply (f_equal (@length ascii)) in Empty.
    rewrite length_skipn in Empty. simpl in Empty. lia.
Qed.

Lemma wrap_loop_full (width : nat) :
  0 < width ->
  forall (fuel : nat) (lines chunks : list str),
    Forall (fun l => l <> []) lines -> Forall (fun c => c <> []) chunks ->
    Forall (fun l => l <> []) (wrap_loop fuel width lines chunks).
Proof.
  intros Pos. induction fuel as [|fuel IH]; intros lines chunks Lines Chunks.
  - assumption.
  - destruct chunks as [|c chunks]; [assumption|]. simpl.
    destruct (wrap_step_full width lines (c :: chunks) Pos ltac:(discriminate)
                Lines Chunks) as [L C].
    destruct (wrap_step width lines (c :: chunks)) as [lines' chunks'].
    now apply IH.
Qed.

Lemma split_full (text : str) : Forall (fun c => c <> []) (_split text).
Proof.
  apply Forall_forall. intros c In. apply filter_In in In as [_ Full].
  now destruct c.
Qed.

(** What [textwrap.wrap(text, width=2000)] returns: chunks that are not
    empty and hold at most 2000 characters. *)
Lemma wrap_chunks (text : str) (chunks : list str) :
  wrap text 2000 = Ok chunks ->
  Forall (fun chunk => chunk <> [] /\ length chunk <= 2000) chunks.
Proof.
  rewrite wrap_ok by lia. intros [= <-].
  assert (0 < 2000) as Pos by lia.
  assert (Full := wrap_loop_full 2000 Pos (size (_split_chunks text)) []
                    (_split_chunks text) ltac:(constructor) (split_full _)).
  assert (Bound := wrap_loop_bound 2000 Pos (size (_split_chunks text)) []
                     (_split_chunks text) ltac:(constructor)).
  rewrite Forall_forall in *. intros chunk In. split; auto.
Qed.

(** A chunk of whitespace alone gives no line, however long it is. *)
Lemma wrap_loop_blank (width : nat) :
  0 < width ->
  forall (fuel : nat) (c : str),
    blank c -> wrap_loop fuel width [] [c] = [].
Proof.
  intros Pos. induction fuel as [|fuel IH]; intros c Blank; [reflexivity|].
  simpl.
  destruct (wrap_step_spec width [] [c] Pos ltac:(discriminate))
    as (lead & taken & tail & cur_line & kept & dropped & chunks'
        & Split & _ & _ & First & _ & _ & Cases & Kept & Dropped & Short & Last
        & ->).
  rewrite (First eq_refl) in Split. simpl in Split.
  assert (Forall blank cur_line -> kept = []) as NoLine.
  { intros B. destruct dropped as [|d [|d' ds]]; [| |simpl in Short; lia].
    - destruct kept as [|k ks] using rev_ind; [reflexivity|].
      rewrite app_nil_r in Kept. subst cur_line.
      apply Forall_app in B as [_ B]. inversion B; subst.
      assert (strip_is_empty k = false) as Visible
        by exact (Last eq_refl ks k eq_refl).
      unfold blank in *. congruence.
    - destruct kept as [|k ks]; [reflexivity|].
      exfalso. destruct Cases as [(-> & _) | (c0 & r & e & -> & _ & _ & _ & -> & _)].
      + rewrite Kept in Split.
        destruct tail; simpl in Split;
          apply (f_equal (@length str)) in Split; simpl in Split;
          rewrite ?length_app in Split; simpl in Split; lia.
      + destruct taken as [|t ts]; [|destruct ts; discriminate Split].
        apply (f_equal (@length str)) in Kept. simpl in Kept.
        rewrite length_app in Kept. simpl in Kept. lia. }
  destruct Cases as [(-> & -> & Stop) | (c0 & r & e & -> & _ & _ & _ & -> & ->)].
  - destruct taken as [|t ts].
    + simpl in Split. subst tail. simpl in Stop. lia.
    + injection Split as <- Rest. symmetry in Rest.
      apply app_eq_nil in Rest as [-> ->].
      rewrite NoLine by (repeat constructor; assumption).
      apply wrap_loop_done.
  - destruct taken as [|t ts]; [|destruct ts; discriminate Split].
    injection Split as <- <-.
    rewrite NoLine by (repeat constructor; now apply blank_firstn).
    simpl. apply IH. now apply blank_skipn.
Qed.

(** The runs of a text whose characters are all of one class. *)
Lemma runs_uniform (b : bool) :
  forall (s : str),
    s <> [] -> Forall (fun c => is_whitespace c = b) s -> runs s = [s].
Proof.
  induction s as [|c s IH]; intros Full Same; [congruence|].
  destruct s as [|d s]; [reflexivity|].
  inversion Same as [|? ? Hc Rest]; subst.
  change (runs (c :: d :: s))
    with (match runs (d :: s) with
          | (d' :: run) :: more =>
              if Bool.eqb (is_whitespace c) (is_whitespace d')
              then (c :: d' :: run) :: more
              else [c] :: (d' :: run) :: more
          | _ => [[c]]
          end).
  rewrite (IH ltac:(discriminate) Rest).
  inversion Rest; subst.
  replace (is_whitespace d) with (is_whitespace c) by congruence.
  now rewrite eqb_reflx.
Qed.

Lemma whitespace_not_hyphen (c : ascii) :
  is_whitespace c = true -> is_hyphen c = false.
Proof.
  unfold is_whitespace, is_hyphen, between, is_char. intros Ws.
  apply Nat.eqb_neq. intros E. rewrite E in Ws. discriminate Ws.
Qed.

Lemma munge_whitespace_only (text : str) :
  forallb is_whitespace text = true ->
  Forall (fun c => is_whitespace c = true) (_munge_whitespace text).
Proof.
  intros Ws. unfold _munge_whitespace, translate_whitespace, expandtabs.
  apply Forall_map.
  assert (Forall (fun c => is_whitespace c = true) text) as F
    by (apply Forall_forall; now apply forallb_forall).
  apply (expandtabs_from_Forall (fun c => is_whitespace c = true) 8 eq_refl)
    with (column := 0) in F.
  revert F. apply Forall_impl. intros c ->. reflexivity.
Qed.

(** A text of whitespace alone gives no chunk. *)
Lemma wrap_whitespace_only (text : str) :
  forallb is_whitespace text = true -> wrap text 2000 = Ok [].
Proof.
  intros Ws. rewrite wrap_ok by lia. f_equal.
  assert (F := munge_whitespace_only text Ws).
  unfold _split_chunks. rewrite split_hyphen_free.
  2:{ revert F. apply Forall_impl. exact whitespace_not_hyphen. }
  destruct (_munge_whitespace text) as [|c s] eqn:Munged; [reflexivity|].
  rewrite (runs_uniform true (c :: s) ltac:(discriminate) F).
  apply wrap_loop_blank; [lia|].
  apply uniform_blank. split; [discriminate | assumption].
Qed.

(** A text without tabs in which every character of [_whitespace] is a
    space goes through [_munge_whitespace] unchanged. *)
Lemma expandtabs_from_no_tab (tabsize : nat) :
  forall (s : str) (column : nat),
    Forall (fun c => is_char 9 c = false) s ->
    expandtabs_from tabsize column s = s.
Proof.
  induction s as [|c s IH]; intros column F; [reflexivity|].
  inversion F as [|? ? Hc Rest]; subst. simpl. rewrite Hc. f_equal. now apply IH.
Qed.

Lemma munge_spaces_only (text : str) :
  Forall (fun c => is_whitespace c = true -> c = SPACE) text ->
  _munge_whitespace text = text.
Proof.
  intros Clean. unfold _munge_whitespace, expandtabs.
  rewrite expandtabs_from_no_tab.
  - unfold translate_whitespace. rewrite <- (map_id text) at 2.
    apply map_ext_in. intros c In. rewrite Forall_forall in Clean.
    specialize (Clean c In).
    destruct (is_whitespace c); [symmetry; auto | reflexivity].
  - revert Clean. apply Forall_impl. intros c Space.
    destruct (is_char 9 c) eqn:Tab; [|reflexivity].
    apply is_char_code in Tab.
    assert (is_whitespace c = true) as Ws
      by (unfold is_whitespace, between; now rewrite Tab).
    rewrite (Space Ws) in Tab. discriminate Tab.
Qed.

(** Chunks that fit the width together give one line: all of them but a
    whitespace chunk at the end. *)
Lemma wrap_loop_one_line (width : nat) (chunks : list str) :
  0 < width ->
  length (concat chunks) <= width ->
  exists kept dropped,
    chunks = kept ++ dropped
    /\ Forall blank dropped /\ length dropped <= 1
    /\ wrap_loop (size chunks) width [] chunks = new_line kept.
Proof.
  intros Pos Fits.
  destruct chunks as [|c0 cs]; [exists [], []; repeat split; auto|].
  rewrite size_cons. cbn [plus wrap_loop].
  destruct (wrap_step_spec width [] (c0 :: cs) Pos ltac:(discriminate))
    as (lead & taken & tail & cur_line & kept & dropped & chunks'
        & Split & _ & _ & First & _ & _ & Cases & Kept & Dropped & Short & _
        & ->).
  rewrite (First eq_refl) in Split. simpl in Split.
  rewrite Split, concat_app, length_app in Fits.
  destruct Cases as [(-> & -> & Stop) | (c & r & e & -> & Long & _)].
  - destruct tail as [|c r].
    + rewrite wrap_loop_done. exists kept, dropped.
      rewrite Split, app_nil_r. auto.
    + rewrite length_concat_cons in Fits. lia.
  - rewrite length_concat_cons in Fits. lia.
Qed.

Lemma last_char_of_concat (l : list str) (d : str) (front : str) (c : ascii) :
  d <> [] -> concat (l ++ [d]) = front ++ [c] -> exists d', d = d' ++ [c].
Proof.
  intros Full E. rewrite concat_snoc in E.
  destruct d as [|x d] using rev_ind; [congruence|].
  rewrite app_assoc in E. apply app_inj_tail in E as [_ <-]. now exists d.
Qed.

Lemma expandtabs_from_snoc (tabsize : nat) (c : ascii) :
  is_char 9 c = false ->
  forall (s : str) (column : nat),
    expandtabs_from tabsize column (s ++ [c])
    = expandtabs_from tabsize column s ++ [c].
Proof.
  intros NoTab. induction s as [|a s IH]; intros column; simpl.
  - now rewrite NoTab.
  - destruct (is_char 9 a).
    + destruct (0 <? tabsize); rewrite IH; [now rewrite app_assoc | reflexivity].
    + now rewrite IH.
Qed.

Lemma visible_not_whitespace (c : ascii) :
  isspace c = false -> is_whitespace c = false.
Proof.
  intros Visible. destruct (is_whitespace c) eqn:Ws; [|reflexivity].
  apply is_whitespace_isspace in Ws. congruence.
Qed.

Lemma munge_snoc (front : str) (c : ascii) :
  isspace c = false ->
  _munge_whitespace (front ++ [c]) = _munge_whitespace front ++ [c].
Proof.
  intros Visible. apply visible_not_whitespace in Visible as Ws.
  unfold _munge_whitespace, translate_whitespace, expandtabs.
  rewrite expandtabs_from_snoc, map_app; [simpl; now rewrite Ws|].
  destruct (is_char 9 c) eqn:Tab; [|reflexivity].
  apply is_char_code in Tab.
  unfold is_whitespace, between in Ws. now rewrite Tab in Ws.
Qed.

(** A text that ends with a visible character and holds at most 2000
    characters once its tabs are expanded gives one chunk: the text with
    its tabs expanded and every character of [_whitespace] turned into a
    space. *)
Lemma wrap_short (text front : str) (last_char : ascii) :
  text = front ++ [last_char] ->
  isspace last_char = false ->
  length (expandtabs 8 text) <= 2000 ->
  wrap text 2000 = Ok [_munge_whitespace text].
Proof.
  intros Ends Visible Fits. rewrite wrap_ok by lia. f_equal.
  unfold _split_chunks.
  destruct (wrap_loop_one_line 2000 (_split (_munge_whitespace text))
              ltac:(lia))
    as (kept & dropped & Split & Dropped & Short & ->).
  { now rewrite split_concat, length_munge. }
  assert (Full := split_full (_munge_whitespace text)). rewrite Split in Full.
  assert (Content := split_concat (_munge_whitespace text)).
  rewrite Split in Content. rewrite Ends, munge_snoc in Content by assumption.
  rewrite Ends, munge_snoc by assumption.
  destruct dropped as [|d [|d' ds]]; [| |simpl in Short; lia].
  - rewrite app_nil_r in Content. rewrite <- Content.
    destruct kept; [|reflexivity].
    simpl in Content. now destruct (_munge_whitespace front).
  - exfalso. apply Forall_app in Full as [_ Full].
    inversion Full as [|? ? NotEmpty _]; subst.
    inversion Dropped as [|? ? Blank _]; subst.
    destruct (last_char_of_concat kept d (_munge_whitespace front) last_char)
      as [d0 ->]; auto.
    unfold blank, strip_is_empty in Blank. rewrite forallb_app in Blank.
    apply andb_true_iff in Blank as [_ Blank]. simpl in Blank.
    rewrite Visible in Blank. discriminate Blank.
Qed.

(* ================================================================== *)
(** * Facts about the agent *)

Import Agent.

Lemma str_eqb_eq (a b : str) : str_eqb a b = true <-> a = b.
Proof.
  revert b. induction a as [|c a IH]; intros [|d b]; simpl;
    try (split; [discriminate | congruence]); [tauto|].
  rewrite andb_true_iff, Ascii.eqb_eq, IH.
  split; [intros [-> ->] | intros [= -> ->]]; auto.
Qed.

(** ** The layout of the output file *)

Lemma equals_sign_eqb (c : ascii) :
  is_char 61 c = false -> Ascii.eqb "="%char c = false.
Proof.
  intros N. apply Ascii.eqb_neq. intros <-. discriminate N.
Qed.

Lemma occurrences_skip (header_tail a b : str) :
  no_equals_sign a ->
  occurrences ("="%char :: header_tail) (a ++ b)
  = occurrences ("="%char :: header_tail) b.
Proof.
  induction 1 as [|c a Hc _ IH]; [reflexivity|].
  cbn [app occurrences starts_with]. rewrite (equals_sign_eqb c Hc).
  exact IH.
Qed.

Lemma occurrences_none (header_tail a : str) :
  no_equals_sign a -> occurrences ("="%char :: header_tail) a = 0.
Proof.
  intros N. rewrite <- (app_nil_r a), occurrences_skip by assumption.
  reflexivity.
Qed.

Ltac count_header :=
  unfold output_layout;
  repeat (cbn; rewrite occurrences_skip by assumption);
  cbn; rewrite occurrences_none by assumption; reflexivity.

Lemma layout_headers (source_type source_value combined_summary linkedin_post
                      tweet_thread video_script : str) :
  no_equals_sign source_type -> no_equals_sign source_value ->
  no_equals_sign combined_summary -> no_equals_sign linkedin_post ->
  no_equals_sign tweet_thread -> no_equals_sign video_script ->
  occurrences (lit "=== Combined Summary ===")
    (output_layout source_type source_value combined_summary linkedin_post
       tweet_thread video_script) = 1
  /\ occurrences (lit "=== LinkedIn Post ===")
       (output_layout source_type source_value combined_summary linkedin_post
          tweet_thread video_script) = 1
  /\ occurrences (lit "=== Tweet Thread ===")
       (output_layout source_type source_value combined_summary linkedin_post
          tweet_thread video_script) = 1
  /\ occurrences (lit "=== Video Script ===")
       (output_layout source_type source_value combined_summary linkedin_post
          tweet_thread video_script) = 1.
Proof.
  intros N1 N2 N3 N4 N5 N6. repeat split; count_header.
Qed.

(** ** The files *)

Lemma get_file_head (path data : str) (fs : store) :
  get_file path ((path, data) :: fs) = Some data.
Proof. simpl. now rewrite str_eqb_refl. Qed.

Lemma file_content_head (path data : str) (fs : store) :
  file_content path ((path, data) :: fs) = data.
Proof. unfold file_content. now rewrite get_file_head. Qed.

(** ** Traces *)

Lemma In_invocations (t : list event) (c : chain) (input : str) (out : res str) :
  In (c, input, out) (invocations t) <-> In (Invoked c input out) t.
Proof.
  induction t as [|ev t IH]; simpl; [tauto|].
  destruct ev; simpl; rewrite IH;
    intuition (try discriminate; try (left; congruence)).
Qed.

Lemma summary_calls_chain (chunks : list str) (rs : list (res str))
    (c : chain) (input : str) (out : res str) :
  In (c, input, out) (summary_calls chunks rs) -> c = summary_chain.
Proof.
  unfold summary_calls. rewrite in_map_iff. intros ([i o] & E & _).
  congruence.
Qed.

Lemma quiet_not_invoked (t : list event) (c : chain) (input : str)
    (out : res str) :
  Forall quiet t -> ~ In (Invoked c input out) t.
Proof.
  intros Q In. rewrite Forall_forall in Q. destruct (Q _ In) as [G _].
  discriminate.
Qed.

Lemma quiet_no_file_event (t : list event) :
  Forall quiet t -> Forall (fun ev => file_event ev = false) t.
Proof. apply Forall_impl. intros ev [_ F]. exact F. Qed.

Lemma no_file_event_not_opened (t : list event) (path : str)
    (outcome : option exn) :
  Forall (fun ev => file_event ev = false) t ->
  ~ In (Called (OpenForWriting path) outcome) t.
Proof.
  intros Q In. rewrite Forall_forall in Q. specialize (Q _ In). discriminate.
Qed.

Lemma In_combine_r (A B : Type) (l : list A) (l' : list B) (b : B) :
  length l' = length l -> In b l' -> exists a, In (a, b) (combine l l').
Proof.
  revert l'. induction l as [|a l IH]; intros [|b' l'] L I; simpl in *;
    try discriminate; try contradiction.
  destruct I as [->|I].
  - exists a. now left.
  - destruct (IH l' ltac:(lia) I) as [a' In']. exists a'. now right.
Qed.

Lemma successes_none (rs : list (res str)) :
  (forall r, In r rs -> exists e, r = Raise e) -> successes rs = [].
Proof.
  induction rs as [|r rs IH]; intros Failed; [reflexivity|].
  destruct (Failed r (or_introl eq_refl)) as [e ->]. simpl.
  apply IH. intros r' I. apply Failed. now right.
Qed.

Lemma repurposed_on_empty_summary_app (t0 t : list event) :
  repurposed_on_empty_summary t -> repurposed_on_empty_summary (t0 ++ t).
Proof.
  intros (out & I1 & Next). exists out. split; [apply in_or_app; now right|].
  intros post E. destruct (Next post E) as (out2 & I2 & Last).
  exists out2. split; [apply in_or_app; now right|].
  intros thread E2. destruct (Last thread E2) as (out3 & I3).
  exists out3. apply in_or_app. now right.
Qed.

Ltac members :=
  repeat match goal with
    | I : In _ (_ :: _) |- _ => destruct I as [I|I]
    | I : In _ (_ ++ _) |- _ => apply in_app_or in I; destruct I as [I|I]
    | I : In _ [] |- _ => destruct I
    | E : Invoked _ _ _ = Invoked _ _ _ |- _ => inversion E; subst; clear E
    | E : Called _ _ = Called _ _ |- _ => inversion E; subst; clear E
    | E : Ok _ = Raise _ |- _ => discriminate E
    | E : Raise _ = Ok _ |- _ => discriminate E
    | E : Printed _ = _ |- _ => discriminate E
    | E : Called _ _ = Invoked _ _ _ |- _ => discriminate E
    | E : Invoked _ _ _ = Called _ _ |- _ => discriminate E
    end.

Ltac find_event :=
  repeat first [left; reflexivity | apply in_or_app; right | right].

Section AgentFacts.

Variable W : Type.
Variable H : host W.

Ltac oracle :=
  match goal with
  | |- context [requests_get H ?u ?x] =>
      let r := fresh "r" in let x' := fresh "x" in
      destruct (requests_get H u x) as [r x'] eqn:?; destruct r
  | |- context [get_transcript H ?u ?x] =>
      let r := fresh "r" in let x' := fresh "x" in
      destruct (get_transcript H u x) as [r x'] eqn:?; destruct r
  | |- context [read_text_file H ?u ?x] =>
      let r := fresh "r" in let x' := fresh "x" in
      destruct (read_text_file H u x) as [r x'] eqn:?; destruct r
  | |- context [import_PyPDF2 H ?x] =>
      let r := fresh "r" in let x' := fresh "x" in
      destruct (import_PyPDF2 H x) as [r x'] eqn:?; destruct r
  | |- context [extract_pdf_text H ?u ?x] =>
      let r := fresh "r" in let x' := fresh "x" in
      destruct (extract_pdf_text H u x) as [r x'] eqn:?; destruct r
  | |- context [find_all_p H ?u] =>
      destruct (find_all_p H u) eqn:?
  | |- context [raise_for_status H ?u] =>
      destruct (raise_for_status H u) eqn:?
  end.

Ltac run_adapter :=
  unfold load_blog, load_youtube_transcript, load_text_file, load_pdf,
    bind, try_except, perform, compute, print, ret; cbn;
  repeat (oracle; cbn).

Ltac world :=
  match goal with
  | |- context [invoke H ?c ?i ?x] =>
      destruct (invoke H c i x) as [[?|?] ?] eqn:?
  | |- context [strftime_now H ?x] =>
      destruct (strftime_now H x) as [? ?] eqn:?
  | |- context [open_w H ?p ?x] =>
      destruct (open_w H p x) as [[?|?] ?] eqn:?
  | |- context [write H ?p ?d ?x] =>
      destruct (write H p d x) as [[?|?] ?] eqn:?
  | |- context [close H ?p ?x] =>
      destruct (close H p x) as [[?|?] ?] eqn:?
  end.


(** ** The adapters *)

Lemma load_blog_spec : adapter_spec (load_blog H).
Proof.
  intros url s. run_adapter;
    (repeat split; [repeat constructor | discriminate]).
Qed.

Lemma load_youtube_transcript_spec : adapter_spec (load_youtube_transcript H).
Proof.
  intros url s. run_adapter;
    (repeat split; [repeat constructor | discriminate]).
Qed.

Lemma load_text_file_spec : adapter_spec (load_text_file H).
Proof.
  intros url s. run_adapter;
    (repeat split; [repeat constructor | discriminate]).
Qed.

Lemma load_pdf_spec : adapter_spec (load_pdf H).
Proof.
  intros url s. run_adapter;
    (repeat split; [repeat constructor | try discriminate]).
  intros e0 [= ->]. reflexivity.
Qed.

Lemma adapter_for_spec (source_type : str) (load : str -> M W str) :
  adapter_for H source_type = Some load -> adapter_spec load.
Proof.
  unfold adapter_for.
  destruct (str_eqb (lower source_type) (lit "blog"));
    [intros [= <-]; apply load_blog_spec|].
  destruct (str_eqb (lower source_type) (lit "youtube"));
    [intros [= <-]; apply load_youtube_transcript_spec|].
  destruct (str_eqb (lower source_type) (lit "textfile"));
    [intros [= <-]; apply load_text_file_spec|].
  destruct (str_eqb (lower source_type) (lit "pdf"));
    [intros [= <-]; apply load_pdf_spec | discriminate].
Qed.

(** ** The summarisation stage *)

Lemma chunk_results_length :
  forall (chunks : list str) (x : W),
    length (fst (chunk_results H chunks x)) = length chunks.
Proof.
  induction chunks as [|chunk rest IH]; intros x; simpl; [reflexivity|].
  destruct (invoke H summary_chain chunk x) as [r x'].
  specialize (IH x'). destruct (chunk_results H rest x') as [rs x''].
  simpl in *. now rewrite IH.
Qed.

(** The loop never raises: it returns the summaries it was given followed
    by the outputs of the chunks that succeeded, has invoked the summary
    chain on every chunk in order, and has left the files alone. *)
Lemma summarize_chunks_spec :
  forall (chunks : list str) (n i : nat) (summaries : list str) (s : state W),
    let r := summarize_chunks H n i chunks summaries s in
    let rs := fst (chunk_results H chunks (outside s)) in
    result r = Ok (summaries ++ successes rs)
    /\ outside (final r) = snd (chunk_results H chunks (outside s))
    /\ files (final r) = files s
    /\ invocations (trace r) = summary_calls chunks rs
    /\ Forall (fun ev => file_event ev = false) (trace r).
Proof.
  induction chunks as [|chunk rest IH]; intros n i summaries s.
  - simpl. rewrite app_nil_r. repeat split; constructor.
  - cbn [summarize_chunks chunk_results].
    unfold bind, try_except, invoke_chain, print, ret. cbn.
    destruct (invoke H summary_chain chunk (outside s)) as [r x].
    destruct r as [summary_part|e]; cbn.
    + specialize (IH n (S i) (summaries ++ [summary_part])
                    {| outside := x; files := files s |}).
      cbn in IH.
      destruct (chunk_results H rest x) as [rs x'].
      destruct (summarize_chunks H n (S i) rest (summaries ++ [summary_part])
                  {| outside := x; files := files s |}) as [r1 s1 t1].
      destruct IH as (R & O & F & I & Q). cbn in *.
      rewrite <- app_assoc in R. rewrite I. repeat split; auto.
    + specialize (IH n (S i) summaries {| outside := x; files := files s |}).
      cbn in IH.
      destruct (chunk_results H rest x) as [rs x'].
      destruct (summarize_chunks H n (S i) rest summaries
                  {| outside := x; files := files s |}) as [r1 s1 t1].
      destruct IH as (R & O & F & I & Q). cbn in *.
      rewrite I. repeat split; auto.
Qed.

Lemma summarize_spec (chunks : list str) (s : state W) :
  let r := summarize H chunks s in
  let rs := fst (chunk_results H chunks (outside s)) in
  result r = Ok (join [LF] (successes rs))
  /\ outside (final r) = snd (chunk_results H chunks (outside s))
  /\ files (final r) = files s
  /\ invocations (trace r) = summary_calls chunks rs
  /\ Forall (fun ev => file_event ev = false) (trace r).
Proof.
  destruct (summarize_chunks_spec chunks (length chunks) 1 [] s)
    as (R & O & F & I & Q).
  unfold summarize, bind, ret.
  destruct (summarize_chunks H (length chunks) 1 chunks [] s) as [r1 s1 t1].
  cbn in *. subst r1. rewrite app_nil_r. auto.
Qed.

Lemma all_failed (chunks : list str) (s : state W) (t : list event) :
  invocations t
  = summary_calls chunks (fst (chunk_results H chunks (outside s))) ->
  (forall input out, In (Invoked summary_chain input out) t ->
                     exists e, out = Raise e) ->
  successes (fst (chunk_results H chunks (outside s))) = [].
Proof.
  intros I Failed. apply successes_none. intros r In.
  destruct (In_combine_r _ _ chunks _ r (chunk_results_length chunks _) In)
    as [chunk Pair].
  apply (Failed chunk). apply In_invocations. rewrite I.
  unfold summary_calls. apply in_map_iff. now exists (chunk, r).
Qed.

(** ** The body of the agent *)

Ltac enter_process :=
  match goal with
  | |- context [process H ?st ?sv ?content ?s] =>
      let r := fresh "r" in
      let Run := fresh "Run" in
      remember (process H st sv content s) as r eqn:Run; revert Run
  end;
  unfold process.

Ltac through_summary :=
  unfold bind at 1; cbn [print];
  unfold bind at 1, wrap_content; rewrite wrap_ok by lia;
  set (chunks := TextWrap.wrap_loop _ _ _ _); clearbody chunks;
  unfold bind at 1; cbn [print];
  unfold bind at 1;
  match goal with
  | |- context [summarize H chunks ?s] =>
      destruct (summarize_spec chunks s) as (R & _ & F & Inv & Q);
      destruct (summarize H chunks s) as [r1 s1 t1];
      cbn in R, F, Inv, Q; subst r1
  end;
  unfold repurpose, save, with_open, bind, invoke_chain, timestamp_now,
    open_for_writing, file_write, file_close, print, ret.

(** A failed repurposing task ends the run before the output sink. *)
Lemma process_failure (source_type source_value content : str) (s : state W)
    (c : chain) (input : str) (e : exn) :
  repurposing c = true ->
  In (Invoked c input (Raise e))
     (trace (process H source_type source_value content s)) ->
  result (process H source_type source_value content s) = Raise e
  /\ files (final (process H source_type source_value content s)) = files s
  /\ Forall (fun ev => file_event ev = false)
       (trace (process H source_type source_value content s)).
Proof.
  intros Rep. enter_process.
  destruct content as [|ch content]; cbn [TextWrap.nonempty negb].
  { cbn. intros -> [E|[]]. discriminate. }
  through_summary.
  assert (forall input out, In (Invoked c input out) t1 -> False) as NotSum.
  { intros i o In. apply In_invocations in In. rewrite Inv in In.
    apply summary_calls_chain in In. subst c. discriminate. }
  repeat (world; cbn -[lit]); intros -> In;
    cbn [result final trace files] in *; members;
    try (exfalso; eapply NotSum; eassumption);
    try discriminate Rep.
  all: split; [reflexivity | split; [exact F|]].
  all: do 2 (constructor; [reflexivity|]).
  all: apply Forall_app; split; [exact Q|].
  all: repeat (constructor; try reflexivity).
Qed.

(** No gate stands between an empty summary and the repurposing stage. *)
Lemma process_all_failed (source_type source_value content : str)
    (s : state W) :
  content <> [] ->
  (forall input out,
      In (Invoked summary_chain input out)
         (trace (process H source_type source_value content s)) ->
      exists e, out = Raise e) ->
  repurposed_on_empty_summary
    (trace (process H source_type source_value content s)).
Proof.
  intros Nonempty. enter_process.
  destruct content as [|ch content]; [congruence|].
  cbn [TextWrap.nonempty negb].
  through_summary.
  repeat (world; cbn -[lit]); intros -> Failed;
    cbn [result final trace files] in *.
  all: assert (successes (fst (chunk_results H chunks (outside s))) = [])
         as Empty
         by (apply (all_failed chunks s t1 Inv); intros i o In1;
             apply (Failed i o); do 2 right; apply in_or_app; left;
             exact In1).
  all: rewrite Empty; cbn [join]; unfold repurposed_on_empty_summary.
  all: eexists; (split; [find_event|]); intros ? Post; try discriminate Post.
  all: eexists; (split; [find_event|]); intros ? Thread;
    try discriminate Thread.
  all: eexists; find_event.
Qed.

(** A run that completes after opening a file has written the layout. *)
Lemma process_layout (source_type source_value content : str) (s : state W)
    (path : str) (outcome : option exn) :
  result (process H source_type source_value content s) = Ok tt ->
  In (Called (OpenForWriting path) outcome)
     (trace (process H source_type source_value content s)) ->
  exists summary post thread script,
    In (Invoked linkedin_chain summary (Ok post))
       (trace (process H source_type source_value content s))
    /\ In (Invoked tweet_chain summary (Ok thread))
         (trace (process H source_type source_value content s))
    /\ In (Invoked script_chain summary (Ok script))
         (trace (process H source_type source_value content s))
    /\ get_file path
         (files (final (process H source_type source_value content s)))
       = Some (output_layout source_type source_value summary post thread
                 script).
Proof.
  enter_process.
  destruct content as [|ch content]; cbn [TextWrap.nonempty negb].
  { cbn. intros -> _ [E|[]]. discriminate. }
  through_summary.
  repeat (world; cbn -[lit]); intros -> Done Opened;
    cbn [result final trace files] in *; try discriminate Done.
  members; try (exfalso; eapply no_file_event_not_opened; eassumption).
  do 4 eexists. repeat split; [find_event | find_event | find_event |].
  rewrite get_file_head, !file_content_head.
  unfold output_layout. cbn -[lit].
  rewrite <- !app_assoc. cbn -[lit]. rewrite <- !app_assoc. cbn -[lit].
  reflexivity.
Qed.

(** ** The claims about the agent *)


(** C6: if one of the three repurposing tasks fails, [ai_agent] ends
    with that very exception, the files are as they were before the run,
    and the run has neither opened nor written a file. *)
Theorem repurposing_failure_aborts (source_type source_value : str)
    (s : state W) (c : chain) (input : str) (e : exn) :
  repurposing c = true ->
  In (Invoked c input (Raise e))
     (trace (ai_agent H source_type source_value s)) ->
  result (ai_agent H source_type source_value s) = Raise e
  /\ files (final (ai_agent H source_type source_value s)) = files s
  /\ Forall (fun ev => file_event ev = false)
       (trace (ai_agent H source_type source_value s)).
Proof.
  intros Rep. unfold ai_agent.
  destruct (adapter_for H source_type) as [load|] eqn:Adapter.
  2:{ cbn. intros [E|[]]. discriminate. }
  destruct (adapter_for_spec _ _ Adapter source_value s) as (F & Q & _).
  unfold bind. destruct (load source_value s) as [r0 s0 t0].
  cbn in F, Q. destruct r0 as [content|e0].
  - assert (PF := process_failure source_type source_value content s0 c
                    input e Rep).
    destruct (process H source_type source_value content s0) as [r1 s1 t1].
    cbn [result final trace] in *.
    intros In. apply in_app_or in In as [In|In];
      [now apply quiet_not_invoked in In|].
    destruct (PF In) as (R & F' & Q'). repeat split.
    + exact R.
    + congruence.
    + apply Forall_app. split; [now apply quiet_no_file_event | exact Q'].
  - cbn. intros In. now apply quiet_not_invoked in In.
Qed.

(** C7: the summary is the outputs of the chunks whose summarisation
    succeeded, in the order of the chunks, joined by one newline; the
    chunks are summarised one after the other in that order, each in the
    state of the world left by the one before. *)
Theorem summary_joins_successes (chunks : list str) (s : state W) :
  result (summarize H chunks s)
  = Ok (join [LF] (successes (fst (chunk_results H chunks (outside s)))))
  /\ length (fst (chunk_results H chunks (outside s))) = length chunks
  /\ invocations (trace (summarize H chunks s))
     = map (fun p => (summary_chain, fst p, snd p))
         (combine chunks (fst (chunk_results H chunks (outside s))))
  /\ outside (final (summarize H chunks s))
     = snd (chunk_results H chunks (outside s)).
Proof.
  destruct (summarize_spec chunks s) as (R & O & _ & I & _).
  repeat split; auto. apply chunk_results_length.
Qed.

(** C8: when the adapter chosen for the source type returns the empty
    text, [ai_agent] returns normally after printing that there is no
    content: nothing is chunked, no chain is invoked, no file is opened or
    written. *)
Theorem empty_content_halts (source_type source_value : str) (s : state W)
    (load : str -> M W str) :
  adapter_for H source_type = Some load ->
  result (load source_value s) = Ok [] ->
  result (ai_agent H source_type source_value s) = Ok tt
  /\ trace (ai_agent H source_type source_value s)
     = trace (load source_value s) ++ [Printed NoContentFound]
  /\ final (ai_agent H source_type source_value s) = final (load source_value s)
  /\ files (final (ai_agent H source_type source_value s)) = files s
  /\ Forall quiet (trace (ai_agent H source_type source_value s)).
Proof.
  intros Adapter Empty. unfold ai_agent. rewrite Adapter.
  destruct (adapter_for_spec _ _ Adapter source_value s) as (F & Q & _).
  unfold bind. destruct (load source_value s) as [r0 s0 t0].
  cbn in *. subst r0. cbn. repeat split; auto.
  apply Forall_app. split; [exact Q | repeat constructor].
Qed.

(** C10: the adapter depends on the source type through its lower-casing
    alone, so Blog, BLOG and blog all select the adapter for blogs; a
    source type whose lower-casing is blog, youtube, textfile or pdf makes
    [ai_agent] run the adapter of that kind on the source value and then
    the body of the agent on what the adapter returns; for a source type
    whose lower-casing is none of the four, [ai_agent] prints that the
    type is invalid and returns, the state untouched and nothing else
    done. *)
Theorem dispatch_ignores_case :
  (forall st1 st2 : str,
      lower st1 = lower st2 -> adapter_for H st1 = adapter_for H st2)
  /\ (adapter_for H (lit "Blog") = Some (load_blog H)
      /\ adapter_for H (lit "BLOG") = Some (load_blog H)
      /\ adapter_for H (lit "blog") = Some (load_blog H))
  /\ (forall (source_type source_value : str) (s : state W),
         (lower source_type = lit "blog" ->
          ai_agent H source_type source_value s
          = bind (load_blog H source_value)
              (process H source_type source_value) s)
         /\ (lower source_type = lit "youtube" ->
             ai_agent H source_type source_value s
             = bind (load_youtube_transcript H source_value)
                 (process H source_type source_value) s)
         /\ (lower source_type = lit "textfile" ->
             ai_agent H source_type source_value s
             = bind (load_text_file H source_value)
                 (process H source_type source_value) s)
         /\ (lower source_type = lit "pdf" ->
             ai_agent H source_type source_value s
             = bind (load_pdf H source_value)
                 (process H source_type source_value) s))
  /\ (forall (source_type source_value : str) (s : state W),
         ~ In (lower source_type)
              [lit "blog"; lit "youtube"; lit "textfile"; lit "pdf"] ->
         ai_agent H source_type source_value s
         = {| result := Ok tt; final := s;
              trace := [Printed InvalidSourceType] |}).
Proof.
  split; [|split; [|split]].
  - intros st1 st2 Same. unfold adapter_for. now rewrite Same.
  - repeat split.
  - intros source_type source_value s. unfold ai_agent, adapter_for.
    repeat split; intros ->; reflexivity.
  - intros source_type source_value s Other. unfold ai_agent, adapter_for.
    destruct (str_eqb (lower source_type) (lit "blog")) eqn:E1.
    { apply str_eqb_eq in E1. contradiction Other. rewrite E1. simpl. auto. }
    destruct (str_eqb (lower source_type) (lit "youtube")) eqn:E2.
    { apply str_eqb_eq in E2. contradiction Other. rewrite E2. simpl. auto. }
    destruct (str_eqb (lower source_type) (lit "textfile")) eqn:E3.
    { apply str_eqb_eq in E3. contradiction Other. rewrite E3. simpl. auto. }
    destruct (str_eqb (lower source_type) (lit "pdf")) eqn:E4.
    { apply str_eqb_eq in E4. contradiction Other. rewrite E4. simpl. auto. }
    reflexivity.
Qed.

(** C1, as amended: when the content is not empty and every chunk's
    summarisation fails, the combined summary is the empty string and the
    repurposing stage runs all the same: the chain of the professional
    post is invoked on the empty summary, and the chains of the thread and
    of the script after it, each provided the one before it returned. *)
Theorem all_chunks_failed_still_repurposes (source_type source_value : str)
    (s : state W) (load : str -> M W str) (content : str) :
  adapter_for H source_type = Some load ->
  result (load source_value s) = Ok content ->
  content <> [] ->
  (forall input out,
      In (Invoked summary_chain input out)
         (trace (ai_agent H source_type source_value s)) ->
      exists e, out = Raise e) ->
  repurposed_on_empty_summary
    (trace (ai_agent H source_type source_value s)).
Proof.
  intros Adapter Loaded Nonempty. unfold ai_agent. rewrite Adapter.
  unfold bind. destruct (load source_value s) as [r0 s0 t0].
  cbn in Loaded. subst r0.
  assert (PA := process_all_failed source_type source_value content s0
                  Nonempty).
  destruct (process H source_type source_value content s0) as [r1 s1 t1].
  cbn [trace] in *. intros Failed.
  apply repurposed_on_empty_summary_app, PA.
  intros i o In. apply (Failed i o). apply in_or_app. now right.
Qed.

(** C2, as amended: a run that returns normally after opening an output
    file leaves in that file the layout that the program writes: the two
    lines of the source, then the sections Combined Summary, LinkedIn
    Post, Tweet Thread and Video Script, in that order, each header
    followed by the raw text of its artifact, the artifacts being the
    summary given to the three repurposing chains and what each of them
    returned; when neither the source nor an artifact holds an equals
    sign, each of the four headers occurs exactly once. *)
Theorem output_file_layout (source_type source_value : str) (s : state W)
    (path : str) (outcome : option exn) :
  result (ai_agent H source_type source_value s) = Ok tt ->
  In (Called (OpenForWriting path) outcome)
     (trace (ai_agent H source_type source_value s)) ->
  exists summary post thread script,
    In (Invoked linkedin_chain summary (Ok post))
       (trace (ai_agent H source_type source_value s))
    /\ In (Invoked tweet_chain summary (Ok thread))
         (trace (ai_agent H source_type source_value s))
    /\ In (Invoked script_chain summary (Ok script))
         (trace (ai_agent H source_type source_value s))
    /\ get_file path (files (final (ai_agent H source_type source_value s)))
       = Some (output_layout source_type source_value summary post thread
                 script)
    /\ (no_equals_sign source_type -> no_equals_sign source_value ->
        no_equals_sign summary -> no_equals_sign post ->
        no_equals_sign thread -> no_equals_sign script ->
        occurrences (lit "=== Combined Summary ===")
          (output_layout source_type source_value summary post thread script)
        = 1
        /\ occurrences (lit "=== LinkedIn Post ===")
             (output_layout source_type source_value summary post thread
                script) = 1
        /\ occurrences (lit "=== Tweet Thread ===")
             (output_layout source_type source_value summary post thread
                script) = 1
        /\ occurrences (lit "=== Video Script ===")
             (output_layout source_type source_value summary post thread
                script) = 1).
Proof.
  unfold ai_agent.
  destruct (adapter_for H source_type) as [load|] eqn:Adapter.
  2:{ cbn. intros _ [E|[]]. discriminate. }
  destruct (adapter_for_spec _ _ Adapter source_value s) as (F & Q & _).
  unfold bind. destruct (load source_value s) as [r0 s0 t0].
  cbn in F, Q. destruct r0 as [content|e0]; [|discriminate].
  assert (PL := process_layout source_type source_value content s0 path
                  outcome).
  destruct (process H source_type source_value content s0) as [r1 s1 t1].
  cbn [result final trace] in *. intros Done Opened.
  apply in_app_or in Opened as [Opened|Opened].
  { exfalso. apply quiet_no_file_event in Q.
    eapply no_file_event_not_opened; eassumption. }
  destruct (PL Done Opened) as (summary & post & thread & script
                                & I1 & I2 & I3 & Content).
  exists summary, post, thread, script.
  split; [apply in_or_app; now right|].
  split; [apply in_or_app; now right|].
  split; [apply in_or_app; now right|].
  split; [exact Content|].
  exact (layout_headers source_type source_value summary post thread script).
Qed.

(** ** Further facts about the traces and the files *)

Lemma invocations_app (a b : list event) :
  invocations (a ++ b) = invocations a ++ invocations b.
Proof.
  induction a as [|ev a IH]; [reflexivity|].
  destruct ev; simpl; now rewrite IH.
Qed.

Lemma quiet_invocations (t : list event) :
  Forall quiet t -> invocations t = [].
Proof.
  induction 1 as [|ev t [G _] _ IH]; [reflexivity|].
  destruct ev; simpl; [exact IH | exact IH | discriminate G].
Qed.

Lemma written_app (path : str) (a b : list event) :
  written path (a ++ b) = written path a ++ written path b.
Proof.
  induction a as [|ev a IH]; [reflexivity|].
  destruct ev as [m|c o|c i o]; simpl; try exact IH.
  destruct c; simpl; try exact IH.
  destruct o; simpl; [exact IH|].
  match goal with
  | |- context [str_eqb ?p path] => destruct (str_eqb p path)
  end; [|exact IH].
  now rewrite IH, app_assoc.
Qed.

Lemma written_none (path : str) (t : list event) :
  Forall (fun ev => file_event ev = false) t -> written path t = [].
Proof.
  induction 1 as [|ev t F _ IH]; [reflexivity|].
  destruct ev as [m|c o|c i o]; simpl; try exact IH.
  destruct c; simpl; try exact IH; discriminate F.
Qed.

Lemma get_file_other (p q data : str) (fs : store) :
  p <> q -> get_file q ((p, data) :: fs) = get_file q fs.
Proof.
  intros Other. simpl. destruct (str_eqb p q) eqn:Same; [|reflexivity].
  apply str_eqb_eq in Same. contradiction.
Qed.

Lemma In_summary_calls (chunks : list str) (rs : list (res str))
    (c : chain) (input : str) (out : res str) :
  In (c, input, out) (summary_calls chunks rs) -> In input chunks.
Proof.
  unfold summary_calls. rewrite in_map_iff. intros ([i o] & [= _ <- _] & In).
  now apply in_combine_l in In.
Qed.

Lemma join_nil (sep : str) (parts : list str) :
  sep <> [] -> join sep parts = [] <-> parts = [] \/ parts = [[]].
Proof.
  intros Sep. destruct parts as [|p [|q rest]]; simpl.
  - tauto.
  - split; [intros ->; auto | intros [E|[= ->]]; [discriminate | reflexivity]].
  - split.
    + intros E. apply app_eq_nil in E as [_ E].
      apply app_eq_nil in E as [E _]. contradiction.
    + intros [E|E]; discriminate.
Qed.

(** ** The log of the summarisation *)

Lemma summarize_chunks_log :
  forall (chunks : list str) (n i : nat) (summaries : list str) (s : state W),
    trace (summarize_chunks H n i chunks summaries s)
    = loop_log n i chunks (fst (chunk_results H chunks (outside s))).
Proof.
  induction chunks as [|chunk rest IH]; intros n i summaries s;
    [reflexivity|].
  cbn [summarize_chunks chunk_results].
  unfold bind, try_except, invoke_chain, print, ret. cbn.
  destruct (invoke H summary_chain chunk (outside s)) as [r x].
  destruct r as [summary_part|e]; cbn.
  - specialize (IH n (S i) (summaries ++ [summary_part])
                  {| outside := x; files := files s |}).
    cbn in IH.
    destruct (chunk_results H rest x) as [rs x'].
    destruct (summarize_chunks H n (S i) rest (summaries ++ [summary_part])
                {| outside := x; files := files s |}) as [r1 s1 t1].
    cbn in *. now rewrite IH.
  - specialize (IH n (S i) summaries {| outside := x; files := files s |}).
    cbn in IH.
    destruct (chunk_results H rest x) as [rs x'].
    destruct (summarize_chunks H n (S i) rest summaries
                {| outside := x; files := files s |}) as [r1 s1 t1].
    cbn in *. now rewrite IH.
Qed.

Lemma In_loop_log :
  forall (chunks : list str) (rs : list (res str)) (n i : nat) (ev : event),
    In ev (loop_log n i chunks rs) -> loop_event ev.
Proof.
  induction chunks as [|chunk chunks IH]; intros rs n i ev In;
    [destruct In|].
  destruct rs as [|r rs]; [destruct In|].
  cbn [loop_log chunk_log app] in In.
  destruct In as [<-|[<-|In]]; [exact I | exact I |].
  apply in_app_or in In as [In|In]; [|exact (IH rs n (S i) ev In)].
  destruct r; simpl in In; [destruct In | destruct In as [<-|[]]; exact I].
Qed.

Lemma In_summarize_log (chunks : list str) (s : state W) (ev : event) :
  In ev (trace (summarize H chunks s)) -> loop_event ev.
Proof.
  assert (Log := summarize_chunks_log chunks (length chunks) 1 [] s).
  unfold summarize, bind, ret.
  destruct (summarize_chunks H (length chunks) 1 chunks [] s) as [r1 s1 t1].
  cbn in Log. subst t1.
  destruct r1; cbn; rewrite ?app_nil_r; apply In_loop_log.
Qed.

Lemma one_last (pre l : list event) (x : event) :
  l = removelast l ++ [x] -> pre ++ l = (pre ++ removelast l) ++ [x].
Proof. intros E. rewrite <- app_assoc. now rewrite <- E. Qed.

Lemma two_last (pre l : list event) (x y : event) :
  l = removelast (removelast l) ++ [x; y] ->
  pre ++ l = (pre ++ removelast (removelast l)) ++ [x; y].
Proof. intros E. rewrite <- app_assoc. now rewrite <- E. Qed.

Lemma three_last (pre l : list event) (x y z : event) :
  l = removelast (removelast (removelast l)) ++ [x; y; z] ->
  pre ++ l = (pre ++ removelast (removelast (removelast l))) ++ [x; y; z].
Proof. intros E. rewrite <- app_assoc. now rewrite <- E. Qed.

Lemma adapter_never_saves (source_type : str) (load : str -> M W str)
    (locator : str) (s : state W) (path : str) :
  adapter_for H source_type = Some load ->
  ~ In (Printed (OutputSaved path)) (trace (load locator s)).
Proof.
  unfold adapter_for.
  destruct (str_eqb (lower source_type) (lit "blog"));
    [intros [= <-]; run_adapter; intros In;
     repeat (destruct In as [E|In]; [discriminate E|]); destruct In|].
  destruct (str_eqb (lower source_type) (lit "youtube"));
    [intros [= <-]; run_adapter; intros In;
     repeat (destruct In as [E|In]; [discriminate E|]); destruct In|].
  destruct (str_eqb (lower source_type) (lit "textfile"));
    [intros [= <-]; run_adapter; intros In;
     repeat (destruct In as [E|In]; [discriminate E|]); destruct In|].
  destruct (str_eqb (lower source_type) (lit "pdf"));
    [intros [= <-]; run_adapter; intros In;
     repeat (destruct In as [E|In]; [discriminate E|]); destruct In
    |discriminate].
Qed.

(** ** Further facts about the body of the agent *)

(** The summary chain is given chunks of the content and nothing else. *)
Lemma process_summary_inputs (source_type source_value content : str)
    (s : state W) (cs : list str) (input : str) (out : res str) :
  TextWrap.wrap content 2000 = Ok cs ->
  In (Invoked summary_chain input out)
     (trace (process H source_type source_value content s)) ->
  In input cs.
Proof.
  rewrite wrap_ok by lia. intros [= <-]. enter_process.
  destruct content as [|ch content]; cbn [TextWrap.nonempty negb].
  { cbn. intros -> [E|[]]. discriminate. }
  through_summary.
  assert (forall o, In (Invoked summary_chain input o) t1 -> In input chunks)
    as Sum.
  { intros o In. apply In_invocations in In. rewrite Inv in In.
    now apply In_summary_calls in In. }
  repeat (world; cbn -[lit]); intros -> In;
    cbn [result final trace files] in *; members;
    eapply Sum; eassumption.
Qed.

(** The invocations of a run: the summarisation of the chunks of the
    content, then the repurposing stage on the summary, which is reached
    unless the content is empty. *)
Lemma process_invocations (source_type source_value content : str)
    (s : state W) (cs : list str) :
  TextWrap.wrap content 2000 = Ok cs ->
  exists rs rep,
    invocations (trace (process H source_type source_value content s))
    = summary_calls cs rs ++ rep
    /\ length rs = length cs
    /\ repurposing_run (join [LF] (successes rs)) rep
    /\ (rep = [] <-> content = []).
Proof.
  rewrite wrap_ok by lia. intros [= <-]. enter_process.
  destruct content as [|ch content]; cbn [TextWrap.nonempty negb].
  { cbn. intros ->. exists [], []. split; [reflexivity|].
    split; [reflexivity|]. split; [constructor|]. split; reflexivity. }
  through_summary.
  repeat (world; cbn -[lit]); intros ->; cbn [result final trace files] in *.
  all: exists (fst (chunk_results H chunks (outside s))).
  all: eexists; split;
    [cbn [invocations]; rewrite invocations_app, Inv; cbn [invocations];
     reflexivity|].
  all: split; [apply chunk_results_length|].
  all: split; [constructor | split; discriminate].
Qed.

(** A file is opened only once the three repurposing chains have
    returned. *)
Lemma process_opened (source_type source_value content : str) (s : state W)
    (path : str) (outcome : option exn) :
  In (Called (OpenForWriting path) outcome)
     (trace (process H source_type source_value content s)) ->
  exists summary post thread script timestamp,
    In (Invoked linkedin_chain summary (Ok post))
       (trace (process H source_type source_value content s))
    /\ In (Invoked tweet_chain summary (Ok thread))
         (trace (process H source_type source_value content s))
    /\ In (Invoked script_chain summary (Ok script))
         (trace (process H source_type source_value content s))
    /\ path = lit "outputs/ai_agent_" ++ timestamp ++ lit ".txt".
Proof.
  enter_process.
  destruct content as [|ch content]; cbn [TextWrap.nonempty negb].
  { cbn. intros -> [E|[]]. discriminate. }
  through_summary.
  repeat (world; cbn -[lit]); intros -> Opened;
    cbn [result final trace files] in *;
    members; try (exfalso; eapply no_file_event_not_opened; eassumption).
  all: do 5 eexists.
  all: split; [find_event|].
  all: split; [find_event|].
  all: split; [find_event | reflexivity].
Qed.

(** A file that a run has opened is closed before the run goes on or
    ends, and no call of the output sink comes after the close; when no
    call of the sink has raised, the file holds what the run has written
    to it, and nothing else. *)
Lemma process_closed (source_type source_value content : str) (s : state W)
    (path : str) :
  In (Called (OpenForWriting path) None)
     (trace (process H source_type source_value content s)) ->
  (exists before outcome after,
      trace (process H source_type source_value content s)
      = before ++ Called (FileClose path) outcome :: after
      /\ Forall (fun ev => file_event ev = false) after)
  /\ ((forall c e,
         file_event (Called c (Some e)) = true ->
         ~ In (Called c (Some e))
             (trace (process H source_type source_value content s))) ->
      get_file path
        (files (final (process H source_type source_value content s)))
      = Some (written path
                (trace (process H source_type source_value content s)))).
Proof.
  enter_process.
  destruct content as [|ch content]; cbn [TextWrap.nonempty negb].
  { cbn. intros -> [E|[]]. discriminate. }
  through_summary.
  repeat (world; cbn -[lit]); intros -> Opened;
    cbn [result final trace files] in *;
    members; try (exfalso; eapply no_file_event_not_opened; eassumption).
  all: split.
  all: try match goal with
         | |- exists before outcome after,
                ?a :: ?b :: ?t ++ ?l = _ /\ _ =>
             first
               [ exists (a :: b :: t ++ removelast l); eexists; exists [];
                 split; [exact (one_last (a :: b :: t) l _ eq_refl)
                        |constructor]
               | exists (a :: b :: t
                           ++ removelast (removelast (removelast l)));
                 do 2 eexists;
                 split; [exact (three_last (a :: b :: t) l _ _ _ eq_refl)
                        |repeat constructor] ]
         end.
  all: intros NoFailure.
  all: try (exfalso; eapply NoFailure; [|find_event]; reflexivity).
  rewrite get_file_head, ?file_content_head.
  cbn [written]. rewrite written_app, (written_none _ _ Q).
  cbn -[lit str_eqb]. rewrite ?str_eqb_refl.
  cbn -[lit]. rewrite ?app_nil_r, <- ?app_assoc. cbn -[lit].
  rewrite <- ?app_assoc. reflexivity.
Qed.

(** A run leaves every file that it has not opened as it was. *)
Lemma process_frame (source_type source_value content : str) (s : state W)
    (path : str) :
  (forall outcome,
      ~ In (Called (OpenForWriting path) outcome)
          (trace (process H source_type source_value content s))) ->
  get_file path (files (final (process H source_type source_value content s)))
  = get_file path (files s).
Proof.
  enter_process.
  destruct content as [|ch content]; cbn [TextWrap.nonempty negb].
  { cbn. now intros ->. }
  through_summary.
  repeat (world; cbn -[lit]); intros -> NotOpened;
    cbn [result final trace files] in *;
    try (now rewrite F).
  all: match goal with
       | |- get_file _ ((?p, _) :: _) = _ =>
           assert (p <> path) as Other
             by (intros <-; eapply NotOpened; find_event)
       end.
  all: rewrite !get_file_other by exact Other; now rewrite F.
Qed.

(** A failure of the output sink ends the run with an exception: the
    one raised, unless a write raised it and the close of the file then
    raised another, which takes its place; when it is the opening that
    failed, the files are as they were. *)
Lemma process_sink_failure (source_type source_value content : str)
    (s : state W) (c : call) (e : exn) :
  file_event (Called c (Some e)) = true ->
  In (Called c (Some e))
     (trace (process H source_type source_value content s)) ->
  (result (process H source_type source_value content s) = Raise e
   \/ exists path data e',
        c = FileWrite path data
        /\ In (Called (FileClose path) (Some e'))
             (trace (process H source_type source_value content s))
        /\ result (process H source_type source_value content s) = Raise e')
  /\ (forall path, c = OpenForWriting path ->
        files (final (process H source_type source_value content s))
        = files s).
Proof.
  intros Sink. enter_process.
  destruct content as [|ch content]; cbn [TextWrap.nonempty negb].
  { cbn. intros -> [E|[]]. discriminate. }
  through_summary.
  assert (~ In (Called c (Some e)) t1) as NotSum.
  { intros In. rewrite Forall_forall in Q. specialize (Q _ In). congruence. }
  repeat (world; cbn -[lit]); intros -> In;
    cbn [result final trace files] in *;
    members; try contradiction; try discriminate Sink.
  all: split; [|intros path' E; try discriminate E; exact F].
  all: first [left; reflexivity
             |right; do 3 eexists; split; [reflexivity|];
              split; [find_event | reflexivity]].
Qed.

(** Past the adapter a run raises at a repurposing chain or at the output
    sink only; the call that raised is the last of the run, or the last
    but the close of the file when it is a write. *)
Lemma process_raises (source_type source_value content : str) (s : state W)
    (e : exn) :
  result (process H source_type source_value content s) = Raise e ->
  exists before ev after,
    trace (process H source_type source_value content s)
    = before ++ ev :: after
    /\ fatal e ev
    /\ (after = []
        \/ exists path data,
             ev = Called (FileWrite path data) (Some e)
             /\ after = [Called (FileClose path) None]).
Proof.
  enter_process.
  destruct content as [|ch content]; cbn [TextWrap.nonempty negb].
  { cbn. intros ->. discriminate. }
  through_summary.
  repeat (world; cbn -[lit]); intros -> Raised;
    cbn [result final trace files] in *;
    try discriminate Raised; injection Raised as ->.
  all: match goal with
       | |- exists before ev after, ?a :: ?b :: ?t ++ ?l = _ /\ _ =>
           first
             [ exists (a :: b :: t ++ removelast l); eexists; exists [];
               split; [exact (one_last (a :: b :: t) l _ eq_refl)|];
               split; [|now left];
               right;
               first [left; do 2 eexists; split; [|reflexivity]; reflexivity
                     |right; eexists; split; [|reflexivity]; reflexivity]
             | exists (a :: b :: t ++ removelast (removelast l));
               do 2 eexists;
               split; [exact (two_last (a :: b :: t) l _ _ eq_refl)|];
               split; [|right; do 2 eexists; split; reflexivity];
               right; right; eexists; split; [|reflexivity]; reflexivity ]
       end.
Qed.

(** With a content, repurposing chains that answer and an output sink
    that works, the body of the agent completes and has opened a file. *)
Lemma process_completes (source_type source_value content : str)
    (s : state W) :
  content <> [] ->
  (forall c input x,
      repurposing c = true -> exists out x', invoke H c input x = (Ok out, x')) ->
  (forall path x, exists x', open_w H path x = (Ok tt, x')) ->
  (forall path data x, exists x', write H path data x = (Ok tt, x')) ->
  (forall path x, exists x', close H path x = (Ok tt, x')) ->
  result (process H source_type source_value content s) = Ok tt
  /\ exists path,
       In (Called (OpenForWriting path) None)
          (trace (process H source_type source_value content s)).
Proof.
  intros Nonempty Answers Opens Writes Closes. enter_process.
  destruct content as [|ch content]; [congruence|].
  cbn [TextWrap.nonempty negb].
  through_summary.
  repeat (world; cbn -[lit]); intros ->; cbn [result final trace files] in *.
  all: try match goal with
           | Failed : invoke H ?c ?i ?x = (Raise _, _) |- _ =>
               destruct (Answers c i x eq_refl) as (? & ? & Answered);
               rewrite Answered in Failed; discriminate Failed
           | Failed : open_w H ?p ?x = (Raise _, _) |- _ =>
               destruct (Opens p x) as (? & Opened);
               rewrite Opened in Failed; discriminate Failed
           | Failed : write H ?p ?d ?x = (Raise _, _) |- _ =>
               destruct (Writes p d x) as (? & Written);
               rewrite Written in Failed; discriminate Failed
           | Failed : close H ?p ?x = (Raise _, _) |- _ =>
               destruct (Closes p x) as (? & Closed);
               rewrite Closed in Failed; discriminate Failed
           end.
  split; [reflexivity|]. eexists. find_event.
Qed.

Ltac through_logged_summary :=
  unfold bind at 1; cbn [print];
  unfold bind at 1, wrap_content; rewrite wrap_ok by lia;
  set (chunks := TextWrap.wrap_loop _ _ _ _); clearbody chunks;
  unfold bind at 1; cbn [print];
  unfold bind at 1;
  match goal with
  | |- context [summarize H chunks ?s] =>
      destruct (summarize_spec chunks s) as (R & _ & F & Inv & Q);
      assert (Log := In_summarize_log chunks s);
      destruct (summarize H chunks s) as [r1 s1 t1];
      cbn in R, F, Inv, Q, Log; subst r1
  end;
  unfold repurpose, save, with_open, bind, invoke_chain, timestamp_now,
    open_for_writing, file_write, file_close, print, ret.

(** The message that the output is saved comes after the last write. *)
Lemma process_saved (source_type source_value content : str) (s : state W)
    (path : str) :
  In (Printed (OutputSaved path))
     (trace (process H source_type source_value content s)) ->
  result (process H source_type source_value content s) = Ok tt
  /\ exists summary post thread script before,
       get_file path
         (files (final (process H source_type source_value content s)))
       = Some (output_layout source_type source_value summary post thread
                 script)
       /\ trace (process H source_type source_value content s)
          = before ++ [Printed (OutputSaved path);
                       Printed (SummaryPreview (firstn 500 summary))].
Proof.
  enter_process.
  destruct content as [|ch content]; cbn [TextWrap.nonempty negb].
  { cbn. intros -> [E|[]]. discriminate. }
  through_logged_summary.
  repeat (world; cbn -[lit]); intros -> Saved;
    cbn [result final trace files] in *;
    members; try discriminate Saved;
    try (apply Log in Saved; destruct Saved).
  injection Saved as <-. split; [reflexivity|].
  do 4 eexists.
  match goal with
  | |- exists before, _ /\ ?a :: ?b :: ?t ++ ?l = _ =>
      exists (a :: b :: t ++ removelast (removelast l))
  end.
  split.
  - rewrite get_file_head, !file_content_head.
    unfold output_layout. cbn -[lit].
    rewrite <- !app_assoc. cbn -[lit]. rewrite <- !app_assoc. cbn -[lit].
    reflexivity.
  - match goal with
    | |- ?a :: ?b :: ?t ++ ?l = _ =>
        exact (two_last (a :: b :: t) l _ _ eq_refl)
    end.
Qed.

(** ** Further properties of the agent *)

(** X1: whatever the source, every text that [ai_agent] gives to the
    summary chain is non-empty and holds at most 2000 characters. *)
Theorem summary_inputs_are_chunks (source_type source_value : str)
    (s : state W) (input : str) (out : res str) :
  In (Invoked summary_chain input out)
     (trace (ai_agent H source_type source_value s)) ->
  input <> [] /\ length input <= 2000.
Proof.
  unfold ai_agent.
  destruct (adapter_for H source_type) as [load|] eqn:Adapter.
  2:{ cbn. intros [E|[]]. discriminate. }
  destruct (adapter_for_spec _ _ Adapter source_value s) as (_ & Q & _).
  unfold bind. destruct (load source_value s) as [r0 s0 t0].
  cbn in Q. destruct r0 as [content|e0].
  - assert (0 < 2000) as Pos by lia.
    assert (PS := process_summary_inputs source_type source_value content s0
                    _ input out (wrap_ok content 2000 Pos)).
    assert (Chunks := wrap_chunks content _ (wrap_ok content 2000 Pos)).
    destruct (process H source_type source_value content s0) as [r1 s1 t1].
    cbn [trace] in *. intros In. apply in_app_or in In as [In|In];
      [now apply quiet_not_invoked in In|].
    rewrite Forall_forall in Chunks. exact (Chunks _ (PS In)).
  - cbn. intros In. now apply quiet_not_invoked in In.
Qed.

(** X3: a content that is not empty but made of characters of
    [_whitespace] alone (spaces, tabs, line breaks) passes the gate of
    the empty content and gives no chunk: the summary chain is not
    invoked, and the repurposing stage runs on the empty summary. *)
Theorem whitespace_content_is_repurposed (source_type source_value : str)
    (s : state W) (load : str -> M W str) (content : str) :
  adapter_for H source_type = Some load ->
  result (load source_value s) = Ok content ->
  content <> [] ->
  forallb TextWrap.is_whitespace content = true ->
  (forall input out,
      ~ In (Invoked summary_chain input out)
          (trace (ai_agent H source_type source_value s)))
  /\ repurposed_on_empty_summary
       (trace (ai_agent H source_type source_value s)).
Proof.
  intros Adapter Loaded Nonempty Ws. unfold ai_agent. rewrite Adapter.
  destruct (adapter_for_spec _ _ Adapter source_value s) as (_ & Q & _).
  unfold bind. destruct (load source_value s) as [r0 s0 t0].
  cbn in Loaded, Q. subst r0.
  assert (PS := fun input out =>
                  process_summary_inputs source_type source_value content s0
                    [] input out (wrap_whitespace_only content Ws)).
  assert (PA := process_all_failed source_type source_value content s0
                  Nonempty).
  destruct (process H source_type source_value content s0) as [r1 s1 t1].
  cbn [trace] in *.
  assert (forall input out, ~ In (Invoked summary_chain input out) t1)
    as NoSum by (intros input out In; exact (PS input out In)).
  split.
  - intros input out In. apply in_app_or in In as [In|In].
    + now apply quiet_not_invoked in In.
    + exact (NoSum input out In).
  - apply repurposed_on_empty_summary_app, PA.
    intros input out In. destruct (NoSum input out In).
Qed.

(** X4: when the adapter returns a content, the chains that [ai_agent]
    invokes are, in order: the summary chain once on each chunk that
    [textwrap.wrap] makes of the content at width 2000, in the order of
    the chunks; then the chain of the post, the chain of the thread if the
    post was returned and the chain of the script if the thread was
    returned, all three on the same text, the outputs of the summarised
    chunks joined by newlines. The chain of the post is invoked unless
    the content is empty. *)
Theorem invocations_in_order (source_type source_value : str) (s : state W)
    (load : str -> M W str) (content : str) :
  adapter_for H source_type = Some load ->
  result (load source_value s) = Ok content ->
  exists chunks rs rep,
    TextWrap.wrap content 2000 = Ok chunks
    /\ length rs = length chunks
    /\ invocations (trace (ai_agent H source_type source_value s))
       = summary_calls chunks rs ++ rep
    /\ repurposing_run (join [LF] (successes rs)) rep
    /\ (rep = [] <-> content = []).
Proof.
  intros Adapter Loaded. unfold ai_agent. rewrite Adapter.
  destruct (adapter_for_spec _ _ Adapter source_value s) as (_ & Q & _).
  unfold bind. destruct (load source_value s) as [r0 s0 t0].
  cbn in Loaded, Q. subst r0. apply quiet_invocations in Q.
  assert (0 < 2000) as Pos by lia.
  destruct (process_invocations source_type source_value content s0 _
              (wrap_ok content 2000 Pos))
    as (rs & rep & Inv & Len & Rep & Reached).
  destruct (process H source_type source_value content s0) as [r1 s1 t1].
  cbn [trace] in *. eexists. exists rs, rep.
  rewrite invocations_app, Q.
  split; [exact (wrap_ok content 2000 Pos)|].
  split; [exact Len|]. split; [exact Inv|]. split; [exact Rep | exact Reached].
Qed.

(** X5: [ai_agent] opens an output file only once the three repurposing
    chains have returned, all three invoked on the same summary; the
    file is [outputs/ai_agent_<timestamp>.txt]. *)
Theorem file_opened_after_repurposing (source_type source_value : str)
    (s : state W) (path : str) (outcome : option exn) :
  In (Called (OpenForWriting path) outcome)
     (trace (ai_agent H source_type source_value s)) ->
  exists summary post thread script timestamp,
    In (Invoked linkedin_chain summary (Ok post))
       (trace (ai_agent H source_type source_value s))
    /\ In (Invoked tweet_chain summary (Ok thread))
         (trace (ai_agent H source_type source_value s))
    /\ In (Invoked script_chain summary (Ok script))
         (trace (ai_agent H source_type source_value s))
    /\ path = lit "outputs/ai_agent_" ++ timestamp ++ lit ".txt".
Proof.
  unfold ai_agent.
  destruct (adapter_for H source_type) as [load|] eqn:Adapter.
  2:{ cbn. intros [E|[]]. discriminate. }
  destruct (adapter_for_spec _ _ Adapter source_value s) as (_ & Q & _).
  apply quiet_no_file_event in Q.
  unfold bind. destruct (load source_value s) as [r0 s0 t0].
  cbn in Q. destruct r0 as [content|e0].
  - assert (PO := process_opened source_type source_value content s0 path
                    outcome).
    destruct (process H source_type source_value content s0) as [r1 s1 t1].
    cbn [trace] in *. intros Opened.
    apply in_app_or in Opened as [Opened|Opened];
      [exfalso; eapply no_file_event_not_opened; eassumption|].
    destruct (PO Opened) as (summary & post & thread & script & timestamp
                             & I1 & I2 & I3 & Path).
    exists summary, post, thread, script, timestamp.
    repeat split; try (apply in_or_app; now right). exact Path.
  - cbn. intros Opened. exfalso.
    eapply no_file_event_not_opened; eassumption.
Qed.

(** X6: a file that [ai_agent] has opened is closed on every path, be it
    after the last write or after a write that raised, and no call of
    the output sink comes after the close; when no call of the sink has
    raised, the file holds the data of the writes, in order, and nothing
    of what the path held before. *)
Theorem opened_file_is_closed (source_type source_value : str)
    (s : state W) (path : str) :
  In (Called (OpenForWriting path) None)
     (trace (ai_agent H source_type source_value s)) ->
  (exists before outcome after,
      trace (ai_agent H source_type source_value s)
      = before ++ Called (FileClose path) outcome :: after
      /\ Forall (fun ev => file_event ev = false) after)
  /\ ((forall c e,
         file_event (Called c (Some e)) = true ->
         ~ In (Called c (Some e))
             (trace (ai_agent H source_type source_value s))) ->
      get_file path (files (final (ai_agent H source_type source_value s)))
      = Some (written path (trace (ai_agent H source_type source_value s)))).
Proof.
  unfold ai_agent.
  destruct (adapter_for H source_type) as [load|] eqn:Adapter.
  2:{ cbn. intros [E|[]]. discriminate. }
  destruct (adapter_for_spec _ _ Adapter source_value s) as (_ & Q & _).
  apply quiet_no_file_event in Q.
  unfold bind. destruct (load source_value s) as [r0 s0 t0].
  cbn in Q. destruct r0 as [content|e0].
  - assert (PC := process_closed source_type source_value content s0 path).
    destruct (process H source_type source_value content s0) as [r1 s1 t1].
    cbn [trace final] in *. intros Opened.
    apply in_app_or in Opened as [Opened|Opened];
      [exfalso; eapply no_file_event_not_opened; eassumption|].
    destruct (PC Opened) as [(before & outcome & after & -> & Quiet) Content].
    split.
    + exists (t0 ++ before), outcome, after.
      split; [now rewrite app_assoc | exact Quiet].
    + intros NoFailure. rewrite written_app, (written_none _ _ Q).
      apply Content. intros c e Sink In.
      apply (NoFailure c e Sink). apply in_or_app. now right.
  - cbn. intros Opened. exfalso.
    eapply no_file_event_not_opened; eassumption.
Qed.

(** X7: a run of [ai_agent] leaves every file that it has not opened as
    it was before the run. *)
Theorem other_files_untouched (source_type source_value : str) (s : state W)
    (path : str) :
  (forall outcome,
      ~ In (Called (OpenForWriting path) outcome)
          (trace (ai_agent H source_type source_value s))) ->
  get_file path (files (final (ai_agent H source_type source_value s)))
  = get_file path (files s).
Proof.
  unfold ai_agent.
  destruct (adapter_for H source_type) as [load|] eqn:Adapter;
    [|reflexivity].
  destruct (adapter_for_spec _ _ Adapter source_value s) as (F & _ & _).
  unfold bind. destruct (load source_value s) as [r0 s0 t0].
  cbn in F. destruct r0 as [content|e0].
  - assert (PF := process_frame source_type source_value content s0 path).
    destruct (process H source_type source_value content s0) as [r1 s1 t1].
    cbn [trace final] in *. intros NotOpened. rewrite <- F. apply PF.
    intros outcome In. apply (NotOpened outcome). apply in_or_app. now right.
  - cbn. now rewrite F.
Qed.

(** X8: when the opening of the output file, a write to it or its close
    raises, [ai_agent] ends with an exception, nothing catching it: the
    one raised, unless a write raised it and the close of the file then
    raised another, which takes its place; when the opening raised, the
    files are as they were before the run. *)
Theorem sink_failure_is_fatal (source_type source_value : str) (s : state W)
    (c : call) (e : exn) :
  file_event (Called c (Some e)) = true ->
  In (Called c (Some e)) (trace (ai_agent H source_type source_value s)) ->
  (result (ai_agent H source_type source_value s) = Raise e
   \/ exists path data e',
        c = FileWrite path data
        /\ In (Called (FileClose path) (Some e'))
             (trace (ai_agent H source_type source_value s))
        /\ result (ai_agent H source_type source_value s) = Raise e')
  /\ (forall path, c = OpenForWriting path ->
        files (final (ai_agent H source_type source_value s)) = files s).
Proof.
  intros Sink. unfold ai_agent.
  destruct (adapter_for H source_type) as [load|] eqn:Adapter.
  2:{ cbn. intros [E|[]]. discriminate. }
  destruct (adapter_for_spec _ _ Adapter source_value s) as (F & Q & _).
  apply quiet_no_file_event in Q.
  assert (forall t, Forall (fun ev => file_event ev = false) t ->
                    ~ In (Called c (Some e)) t) as Absent.
  { intros t Qt In. rewrite Forall_forall in Qt. specialize (Qt _ In).
    congruence. }
  unfold bind. destruct (load source_value s) as [r0 s0 t0].
  cbn in F, Q. destruct r0 as [content|e0].
  - assert (PS := process_sink_failure source_type source_value content s0 c e
                    Sink).
    destruct (process H source_type source_value content s0) as [r1 s1 t1].
    cbn [result trace final] in *. intros In.
    apply in_app_or in In as [In|In]; [destruct (Absent t0 Q In)|].
    destruct (PS In) as [R Fs]. split.
    + destruct R as [R | (path & data & e' & Ec & Closed & R)];
        [now left|].
      right. exists path, data, e'. split; [exact Ec|].
      split; [apply in_or_app; now right | exact R].
    + intros path E. rewrite (Fs path E). exact F.
  - cbn. intros In. destruct (Absent t0 Q In).
Qed.

(** X9: [ai_agent] ends with an exception only where nothing catches
    one: the exception was raised by the import of PyPDF2, by an
    invocation of a repurposing chain, by the opening of the output file,
    by a write to it or by its close, and the call that raised it is the
    last event of the run, or, when it is a write, the last but the
    close of the file.  No failure of a fetch, of a read or of the
    summary chain ends a run. *)
Theorem raises_only_where_uncaught (source_type source_value : str)
    (s : state W) (e : exn) :
  result (ai_agent H source_type source_value s) = Raise e ->
  exists before ev after,
    trace (ai_agent H source_type source_value s) = before ++ ev :: after
    /\ fatal e ev
    /\ (after = []
        \/ exists path data,
             ev = Called (FileWrite path data) (Some e)
             /\ after = [Called (FileClose path) None]).
Proof.
  unfold ai_agent.
  destruct (adapter_for H source_type) as [load|] eqn:Adapter;
    [|discriminate].
  destruct (adapter_for_spec _ _ Adapter source_value s) as (_ & _ & Import).
  unfold bind. destruct (load source_value s) as [r0 s0 t0].
  cbn in Import. destruct r0 as [content|e0].
  - assert (PR := process_raises source_type source_value content s0 e).
    destruct (process H source_type source_value content s0) as [r1 s1 t1].
    cbn [result trace] in *. intros Raised.
    destruct (PR Raised) as (before & ev & after & -> & Fatal & Last).
    exists (t0 ++ before), ev, after. now rewrite app_assoc.
  - cbn. intros [= ->]. rewrite (Import e eq_refl).
    exists [], (Called ImportPyPDF2 (Some e)), [].
    split; [reflexivity|]. split; [now left | now left].
Qed.

(** X2: a content that ends with a visible character and holds at most
    2000 characters once its tabs are expanded is one chunk: the summary
    chain is invoked once, before the repurposing stage, on the content
    with its tabs expanded and every tab, line break and other character
    of [_whitespace] turned into a space; this is the content itself when
    its only characters of [_whitespace] are spaces. *)
Theorem short_text_is_summarised_whole (source_type source_value : str)
    (s : state W) (load : str -> M W str) (content front : str)
    (last_char : ascii) :
  adapter_for H source_type = Some load ->
  result (load source_value s) = Ok content ->
  content = front ++ [last_char] ->
  isspace last_char = false ->
  length (expandtabs 8 content) <= 2000 ->
  (exists out rep,
      invocations (trace (ai_agent H source_type source_value s))
      = (summary_chain, TextWrap._munge_whitespace content, out) :: rep
      /\ repurposing_run (join [LF] (successes [out])) rep)
  /\ (Forall (fun c => TextWrap.is_whitespace c = true -> c = SPACE) content ->
      TextWrap._munge_whitespace content = content).
Proof.
  intros Adapter Loaded Ends Visible Fits.
  split; [|apply munge_spaces_only].
  unfold ai_agent. rewrite Adapter.
  destruct (adapter_for_spec _ _ Adapter source_value s) as (_ & Q & _).
  unfold bind. destruct (load source_value s) as [r0 s0 t0].
  cbn in Loaded, Q. subst r0. apply quiet_invocations in Q.
  destruct (process_invocations source_type source_value content s0 _
              (wrap_short content front last_char Ends Visible Fits))
    as (rs & rep & Inv & Len & Rep & _).
  destruct (process H source_type source_value content s0) as [r1 s1 t1].
  cbn [trace] in *.
  destruct rs as [|out [|out' rs]]; try discriminate Len.
  exists out, rep. rewrite invocations_app, Q. split; [exact Inv | exact Rep].
Qed.

(** X12: when the adapter returns a content that is not empty, the
    repurposing chains answer and the output file can be opened, written
    and closed, [ai_agent] completes and has opened its output file,
    whatever the summary chain does: no failure of the summarisation
    keeps the run from its end. *)
Theorem completes_whatever_the_summaries (source_type source_value : str)
    (s : state W) (load : str -> M W str) (content : str) :
  adapter_for H source_type = Some load ->
  result (load source_value s) = Ok content ->
  content <> [] ->
  (forall c input x,
      repurposing c = true -> exists out x', invoke H c input x = (Ok out, x')) ->
  (forall path x, exists x', open_w H path x = (Ok tt, x')) ->
  (forall path data x, exists x', write H path data x = (Ok tt, x')) ->
  (forall path x, exists x', close H path x = (Ok tt, x')) ->
  result (ai_agent H source_type source_value s) = Ok tt
  /\ exists path,
       In (Called (OpenForWriting path) None)
          (trace (ai_agent H source_type source_value s)).
Proof.
  intros Adapter Loaded Nonempty Answers Opens Writes Closes.
  unfold ai_agent.
  rewrite Adapter. unfold bind. destruct (load source_value s) as [r0 s0 t0].
  cbn in Loaded. subst r0.
  destruct (process_completes source_type source_value content s0 Nonempty
              Answers Opens Writes Closes) as (Done & path & Opened).
  destruct (process H source_type source_value content s0) as [r1 s1 t1].
  cbn [result trace] in *. split; [exact Done|].
  exists path. apply in_or_app. now right.
Qed.

(** X10: the combined summary is empty exactly when no chunk was
    summarised with success, or when one was and its output is empty. *)
Theorem summary_empty_iff (chunks : list str) (s : state W) :
  result (summarize H chunks s) = Ok []
  <-> (successes (fst (chunk_results H chunks (outside s))) = []
       \/ successes (fst (chunk_results H chunks (outside s))) = [[]]).
Proof.
  destruct (summarize_spec chunks s) as (R & _). cbn in R. rewrite R.
  assert ([LF] <> []) as Sep by discriminate.
  split.
  - intros [= E]. exact (proj1 (join_nil [LF] _ Sep) E).
  - intros E. f_equal. exact (proj2 (join_nil [LF] _ Sep) E).
Qed.

(** X11: for a PDF that is read but none of whose pages has text,
    [ai_agent] logs no error: the adapter returns the empty text and the
    run ends at the gate of the empty content. *)
Theorem pdf_without_text_halts (source_type file_path : str) (s : state W)
    (x1 x2 : W) (pages : list str) :
  lower source_type = lit "pdf" ->
  import_PyPDF2 H (outside s) = (Ok tt, x1) ->
  extract_pdf_text H file_path x1 = (Ok pages, x2) ->
  Forall (fun page => page = []) pages ->
  ai_agent H source_type file_path s
  = {| result := Ok tt;
       final := {| outside := x2; files := files s |};
       trace := [Called ImportPyPDF2 None; Printed (ReadingPDF file_path);
                 Called (ExtractPdfText file_path) None;
                 Printed NoContentFound] |}.
Proof.
  intros Type_ Imported Extracted Empty.
  assert (filter TextWrap.nonempty pages = []) as NoText.
  { clear Extracted.
    induction Empty as [|page pages -> _ IH]; [reflexivity | exact IH]. }
  unfold ai_agent, adapter_for. rewrite Type_. cbn -[load_pdf].
  unfold load_pdf, bind, try_except, perform, print, ret.
  cbn. rewrite Imported. cbn. rewrite Extracted. cbn. rewrite NoText.
  reflexivity.
Qed.

(** X16: the log of the summarisation: for each chunk in turn, numbered
    from 1, the progress message with the number of the chunk and the
    number of chunks, then the invocation of the summary chain on the
    chunk and, when it raised, the message that the chunk is skipped,
    with its number and the exception raised; nothing else. *)
Theorem summarisation_log (chunks : list str) (s : state W) :
  trace (summarize H chunks s)
  = loop_log (length chunks) 1 chunks
      (fst (chunk_results H chunks (outside s))).
Proof.
  assert (Log := summarize_chunks_log chunks (length chunks) 1 [] s).
  unfold summarize, bind, ret.
  destruct (summarize_chunks H (length chunks) 1 chunks [] s) as [r1 s1 t1].
  cbn in Log. subst t1. destruct r1; cbn; now rewrite ?app_nil_r.
Qed.

(** X17: when [ai_agent] has printed that the output is saved at a path,
    the run has completed, the file at that path holds the whole layout,
    and the message was the last but one, the last being the preview:
    the first 500 characters of the summary that is in the file. *)
Theorem saved_message_means_complete_file (source_type source_value : str)
    (s : state W) (path : str) :
  In (Printed (OutputSaved path))
     (trace (ai_agent H source_type source_value s)) ->
  result (ai_agent H source_type source_value s) = Ok tt
  /\ exists summary post thread script before,
       get_file path (files (final (ai_agent H source_type source_value s)))
       = Some (output_layout source_type source_value summary post thread
                 script)
       /\ trace (ai_agent H source_type source_value s)
          = before ++ [Printed (OutputSaved path);
                       Printed (SummaryPreview (firstn 500 summary))].
Proof.
  unfold ai_agent.
  destruct (adapter_for H source_type) as [load|] eqn:Adapter.
  2:{ cbn. intros [E|[]]. discriminate. }
  assert (NotYet := adapter_never_saves source_type load source_value s path
                      Adapter).
  unfold bind. destruct (load source_value s) as [r0 s0 t0].
  cbn in NotYet. destruct r0 as [content|e0]; [|intros In; contradiction].
  assert (PS := process_saved source_type source_value content s0 path).
  destruct (process H source_type source_value content s0) as [r1 s1 t1].
  cbn [result trace final] in *. intros Saved.
  apply in_app_or in Saved as [Saved|Saved]; [contradiction|].
  destruct (PS Saved) as (Done & summary & post & thread & script & before
                          & Content & ->).
  split; [exact Done|].
  exists summary, post, thread, script, (t0 ++ before).
  split; [exact Content | now rewrite app_assoc].
Qed.

End AgentFacts.

(* ================================================================== *)
(** * The claims on runs of the example host *)

(** The scenario of section 8 of the specification: of two chunks the
    first is summarised and the second fails; the summary is the output of
    the first, with no separator left by the second. *)
Example summary_skips_failed_chunk :
  result (summarize (stub [] all_but_first_chunk) [lit "AAA BBB"; lit "CCC"]
            start)
  = Ok (lit "summary1").
Proof. reflexivity. Qed.

(** C1 as stated fails: on a text file whose only chunk fails to be
    summarised, the three repurposing chains are invoked, each on the empty
    summary, and the run completes. *)
Lemma no_empty_summary_gate :
  invocations
    (trace (ai_agent (stub (lit "AAA BBB CCC") summaries_fail)
              (lit "textfile") (lit "notes.txt") start))
  = [(summary_chain, lit "AAA BBB CCC", Raise GenerationError);
     (linkedin_chain, [], Ok (lit "post"));
     (tweet_chain, [], Ok (lit "thread"));
     (script_chain, [], Ok (lit "script"))]
  /\ result (ai_agent (stub (lit "AAA BBB CCC") summaries_fail)
               (lit "textfile") (lit "notes.txt") start)
     = Ok tt
  /\ ~ (forall (W : Type) (H : host W) (source_type source_value : str)
               (s : state W),
           (forall input out,
               In (Invoked summary_chain input out)
                  (trace (ai_agent H source_type source_value s)) ->
               exists e, out = Raise e) ->
           forall c input out,
             In (Invoked c input out)
                (trace (ai_agent H source_type source_value s)) ->
             repurposing c = false).
Proof.
  split; [vm_compute; reflexivity|]. split; [vm_compute; reflexivity|].
  intros Claim.
  specialize (Claim unit (stub (lit "AAA BBB CCC") summaries_fail)
                (lit "textfile") (lit "notes.txt") start).
  assert (repurposing linkedin_chain = false) as Absurd; [|discriminate].
  apply (Claim
           ltac:(vm_compute; intros input out In;
                 repeat (destruct In as [E|In];
                         [try discriminate E; inversion E; eexists;
                          reflexivity|]);
                 destruct In)
           linkedin_chain [] (Ok (lit "post"))).
  vm_compute. find_event.
Qed.

Lemma all_chunks_failed_still_repurposes_witness :
  repurposed_on_empty_summary
    (trace (ai_agent (stub (lit "AAA BBB CCC") summaries_fail)
              (lit "textfile") (lit "notes.txt") start)).
Proof.
  apply (all_chunks_failed_still_repurposes unit
           (stub (lit "AAA BBB CCC") summaries_fail)
           (lit "textfile") (lit "notes.txt") start
           (load_text_file (stub (lit "AAA BBB CCC") summaries_fail))
           (lit "AAA BBB CCC")).
  - reflexivity.
  - reflexivity.
  - discriminate.
  - vm_compute. intros input out In.
    repeat (destruct In as [E|In];
            [try discriminate E; inversion E; eexists; reflexivity|]).
    destruct In.
Defined.

(** C2 as stated fails: the file written for the source kind textfile
    and the locator notes.txt holds none of the headers Professional Post,
    Micro Thread and Short Script. *)
Lemma spec_headers_absent :
  result (ai_agent (stub (lit "AAA BBB CCC") never)
            (lit "textfile") (lit "notes.txt") start)
  = Ok tt
  /\ exists content,
       get_file (lit "outputs/ai_agent_20260101_120000.txt")
         (files (final (ai_agent (stub (lit "AAA BBB CCC") never)
                          (lit "textfile") (lit "notes.txt") start)))
       = Some content
       /\ occurrences (lit "=== Professional Post ===") content = 0
       /\ occurrences (lit "=== Micro Thread ===") content = 0
       /\ occurrences (lit "=== Short Script ===") content = 0.
Proof.
  split; [vm_compute; reflexivity|].
  eexists. split; [vm_compute; reflexivity|].
  repeat split; vm_compute; reflexivity.
Qed.

Lemma output_file_layout_witness :
  get_file (lit "outputs/ai_agent_20260101_120000.txt")
    (files (final (ai_agent (stub (lit "AAA BBB CCC") never)
                     (lit "textfile") (lit "notes.txt") start)))
  = Some (output_layout (lit "textfile") (lit "notes.txt") (lit "summary1")
            (lit "post") (lit "thread") (lit "script"))
  /\ occurrences (lit "=== LinkedIn Post ===")
       (output_layout (lit "textfile") (lit "notes.txt") (lit "summary1")
          (lit "post") (lit "thread") (lit "script")) = 1.
Proof.
  destruct (output_file_layout unit (stub (lit "AAA BBB CCC") never)
              (lit "textfile") (lit "notes.txt") start
              (lit "outputs/ai_agent_20260101_120000.txt") None)
    as (summary & post & thread & script & _ & _ & _ & Content & _).
  - reflexivity.
  - vm_compute. find_event.
  - split; reflexivity.
Defined.

Lemma repurposing_failure_aborts_witness :
  result (ai_agent (stub (lit "AAA BBB CCC") post_fails)
            (lit "textfile") (lit "notes.txt") start)
  = Raise GenerationError
  /\ files (final (ai_agent (stub (lit "AAA BBB CCC") post_fails)
                     (lit "textfile") (lit "notes.txt") start))
     = files start
  /\ Forall (fun ev => file_event ev = false)
       (trace (ai_agent (stub (lit "AAA BBB CCC") post_fails)
                 (lit "textfile") (lit "notes.txt") start)).
Proof.
  apply (repurposing_failure_aborts unit (stub (lit "AAA BBB CCC") post_fails)
           (lit "textfile") (lit "notes.txt") start linkedin_chain
           (lit "summary1") GenerationError).
  - reflexivity.
  - vm_compute. find_event.
Defined.

(** The unreachable blog of section 8: the adapter returns the empty
    text and the run ends at the gate. *)
Lemma empty_content_halts_witness :
  result (ai_agent (stub [] never) (lit "blog") (lit "http://example.invalid")
            start)
  = Ok tt
  /\ trace (ai_agent (stub [] never) (lit "blog")
              (lit "http://example.invalid") start)
     = trace (load_blog (stub [] never) (lit "http://example.invalid") start)
       ++ [Printed NoContentFound]
  /\ final (ai_agent (stub [] never) (lit "blog")
              (lit "http://example.invalid") start)
     = final (load_blog (stub [] never) (lit "http://example.invalid") start)
  /\ files (final (ai_agent (stub [] never) (lit "blog")
                     (lit "http://example.invalid") start))
     = files start
  /\ Forall quiet
       (trace (ai_agent (stub [] never) (lit "blog")
                 (lit "http://example.invalid") start)).
Proof.
  apply (empty_content_halts unit (stub [] never) (lit "blog")
           (lit "http://example.invalid") start (load_blog (stub [] never)));
    reflexivity.
Defined.

(** The source type BLOG runs the adapter for blogs, which logs the
    fetch first; the source type csv is invalid. *)
Lemma dispatch_ignores_case_witness :
  (ai_agent (stub [] never) (lit "BLOG") (lit "http://example.invalid") start
   = bind (load_blog (stub [] never) (lit "http://example.invalid"))
       (process (stub [] never) (lit "BLOG") (lit "http://example.invalid"))
       start
   /\ hd_error
        (trace (ai_agent (stub [] never) (lit "BLOG")
                  (lit "http://example.invalid") start))
      = Some (Printed (FetchingBlog (lit "http://example.invalid"))))
  /\ ai_agent (stub [] never) (lit "csv") (lit "data.csv") start
     = {| result := Ok tt; final := start;
          trace := [Printed InvalidSourceType] |}.
Proof.
  destruct (dispatch_ignores_case unit (stub [] never))
    as (_ & _ & Runs & Invalid).
  split; [split|].
  - apply (Runs (lit "BLOG") (lit "http://example.invalid") start).
    reflexivity.
  - rewrite (proj1 (Runs (lit "BLOG") (lit "http://example.invalid") start)
               eq_refl).
    reflexivity.
  - apply Invalid. vm_compute. intuition discriminate.
Defined.

(** C5 fails for the adapter of PDFs: where PyPDF2 cannot be imported,
    [load_pdf] returns no text and logs nothing; the exception of the
    import, which line 45 runs before the [try], leaves the adapter and,
    with it, [ai_agent]. *)
Theorem pdf_import_error_propagates :
  load_pdf no_PyPDF2 (lit "inputs/scan.pdf") start
  = {| result := Raise ModuleNotFoundError;
       final := start;
       trace := [Called ImportPyPDF2 (Some ModuleNotFoundError)] |}
  /\ ai_agent no_PyPDF2 (lit "pdf") (lit "inputs/scan.pdf") start
     = {| result := Raise ModuleNotFoundError;
          final := start;
          trace := [Called ImportPyPDF2 (Some ModuleNotFoundError)] |}.
Proof. split; reflexivity. Qed.


(** Two words 2001 spaces apart: the chunks are the two words, and the
    boundary between them falls at the spaces. *)
Lemma chunks_within_width_witness :
  exists chunks,
    wrap wide_gap_text 2000 = Ok chunks
    /\ Forall (fun chunk => length chunk <= 2000) chunks
    /\ breaks_at_whitespace (_munge_whitespace wide_gap_text) chunks.
Proof.
  destruct (chunks_within_width wide_gap_text)
    as (chunks & Wrapped & Bound & _ & _ & Gaps).
  exists chunks. split; [exact Wrapped|]. split; [exact Bound|].
  apply Gaps.
  - apply hyphen_free_b. vm_compute. reflexivity.
  - apply Forall_short_word. vm_compute. reflexivity.
Defined.

Example wrap_wide_gap : wrap wide_gap_text 2000 = Ok [lit "a"; lit "b"].
Proof. vm_compute. reflexivity. Qed.

(** A word of 2000 letters and a word of one: two chunks, which joined
    by a space are the text up to whitespace. *)
Lemma chunking_preserves_visible_text_witness :
  exists chunks,
    wrap two_word_text 2000 = Ok chunks
    /\ normalize_whitespace (join [SPACE] chunks)
       = normalize_whitespace two_word_text.
Proof.
  destruct (chunking_preserves_visible_text two_word_text)
    as (chunks & Wrapped & _ & _ & _ & Joined).
  exists chunks. split; [exact Wrapped|]. apply Joined.
  - apply hyphen_free_b. vm_compute. reflexivity.
  - apply Forall_short_word. vm_compute. reflexivity.
Defined.

(** Joined by a space, the chunks of [hyphenated_text] are not the text
    up to whitespace: the space falls inside bb-cc. *)
Example joined_chunks_of_hyphenated_word :
  str_eqb
    (normalize_whitespace
       (join [SPACE] [repeat "a"%char 1995 ++ lit " bb-"; lit "cc"]))
    (normalize_whitespace hyphenated_text)
  = false.
Proof. vm_compute. reflexivity. Qed.

Lemma chunker_degenerate_cases_witness :
  exists chunk, wrap (lit "AAA BBB CCC") 2000 = Ok [chunk].
Proof.
  apply (proj1 chunker_degenerate_cases).
  - apply Nat.leb_le. vm_compute. reflexivity.
  - reflexivity.
Defined.

(* ================================================================== *)
(** * Facts about the menu *)

Import Cli.

Lemma lstrip_blank_app (l s : str) :
  forallb isspace l = true -> lstrip (l ++ s) = lstrip s.
Proof.
  induction l as [|c l IH]; simpl; [reflexivity|].
  intros B. apply andb_true_iff in B as [-> B]. auto.
Qed.

Lemma lstrip_nil (s : str) : lstrip s = [] -> forallb isspace s = true.
Proof.
  induction s as [|c s IH]; simpl; [reflexivity|].
  destruct (isspace c); [exact IH | discriminate].
Qed.

Lemma lstrip_app (s r : str) : lstrip s <> [] -> lstrip (s ++ r) = lstrip s ++ r.
Proof.
  induction s as [|c s IH]; simpl; [congruence|].
  destruct (isspace c); [exact IH | reflexivity].
Qed.

Lemma forallb_rev (f : ascii -> bool) (s : str) :
  forallb f s = true -> forallb f (rev s) = true.
Proof.
  rewrite !forallb_forall. intros F c In. apply F. now apply in_rev.
Qed.

(** [strip] takes no account of the whitespace around a text. *)
Lemma strip_padded (l s r : str) :
  forallb isspace l = true -> forallb isspace r = true ->
  strip (l ++ s ++ r) = strip s.
Proof.
  intros L R. unfold strip, rstrip. rewrite (lstrip_blank_app l _ L).
  destruct (lstrip s) as [|c s'] eqn:Left.
  - apply lstrip_nil in Left.
    rewrite (lstrip_blank_app s r Left).
    rewrite <- (app_nil_r r), (lstrip_blank_app r [] R). reflexivity.
  - rewrite lstrip_app by (rewrite Left; discriminate). rewrite Left.
    rewrite rev_app_distr, lstrip_blank_app by now apply forallb_rev.
    reflexivity.
Qed.

(** X13: the menu takes no account of the whitespace typed around the
    choice and around the value that follows it. *)
Theorem menu_ignores_padding (l1 r1 l2 r2 choice answer : str) :
  forallb isspace l1 = true -> forallb isspace r1 = true ->
  forallb isspace l2 = true -> forallb isspace r2 = true ->
  menu (l1 ++ choice ++ r1) (l2 ++ answer ++ r2) = menu choice answer.
Proof.
  intros L1 R1 L2 R2. unfold menu.
  now rewrite (strip_padded l1 choice r1 L1 R1),
    (strip_padded l2 answer r2 L2 R2).
Qed.

(** X14: every source type that the menu passes to [ai_agent] selects an
    adapter there: choice 1 the adapter for blogs, 2 the one for
    transcripts, 3 the one for text files and 4 the one for PDFs; the
    branch of the invalid source type is never taken from the menu. *)
Theorem menu_selects_an_adapter (W : Type) (H : host W)
    (choice_line answer_line source_type source_value : str) :
  menu choice_line answer_line = RunAgent source_type source_value ->
  (strip choice_line = lit "1"
   /\ adapter_for H source_type = Some (load_blog H))
  \/ (strip choice_line = lit "2"
      /\ adapter_for H source_type = Some (load_youtube_transcript H))
  \/ (strip choice_line = lit "3"
      /\ adapter_for H source_type = Some (load_text_file H))
  \/ (strip choice_line = lit "4"
      /\ adapter_for H source_type = Some (load_pdf H)).
Proof.
  unfold menu.
  destruct (str_eqb (strip choice_line) (lit "1")) eqn:E1.
  { apply str_eqb_eq in E1. intros [= <- _]. left. now split. }
  destruct (str_eqb (strip choice_line) (lit "2")) eqn:E2.
  { apply str_eqb_eq in E2. intros [= <- _]. right; left. now split. }
  destruct (str_eqb (strip choice_line) (lit "3")) eqn:E3.
  { apply str_eqb_eq in E3. intros [= <- _]. do 2 right; left. now split. }
  destruct (str_eqb (strip choice_line) (lit "4")) eqn:E4.
  { apply str_eqb_eq in E4. intros [= <- _]. do 3 right. now split. }
  discriminate.
Qed.

(** X15: for a text file or a PDF the locator that the menu passes is the
    name typed, stripped, under [inputs/], unless the name starts with a
    slash: the name is then passed as it is, and the file is read outside
    [inputs/]. *)
Theorem menu_file_locator
    (choice_line answer_line source_type source_value : str) :
  menu choice_line answer_line = RunAgent source_type source_value ->
  source_type = lit "textfile" \/ source_type = lit "pdf" ->
  source_value
  = if startswith_sep (strip answer_line) then strip answer_line
    else lit "inputs/" ++ strip answer_line.
Proof.
  unfold menu.
  destruct (str_eqb (strip choice_line) (lit "1"));
    [intros [= <- _] [E|E]; discriminate E|].
  destruct (str_eqb (strip choice_line) (lit "2"));
    [intros [= <- _] [E|E]; discriminate E|].
  assert (os_path_join (lit "inputs") (strip answer_line)
          = if startswith_sep (strip answer_line) then strip answer_line
            else lit "inputs/" ++ strip answer_line) as Join.
  { unfold os_path_join. now destruct (startswith_sep (strip answer_line)). }
  destruct (str_eqb (strip choice_line) (lit "3"));
    [intros [= _ <-] _; exact Join|].
  destruct (str_eqb (strip choice_line) (lit "4"));
    [intros [= _ <-] _; exact Join | discriminate].
Qed.

(* ================================================================== *)
(** * The further properties on runs of the example hosts *)

Lemma summary_inputs_are_chunks_witness :
  lit "AAA BBB CCC" <> [] /\ length (lit "AAA BBB CCC") <= 2000.
Proof.
  apply (summary_inputs_are_chunks unit (stub (lit "AAA BBB CCC") never)
           (lit "textfile") (lit "notes.txt") start (lit "AAA BBB CCC")
           (Ok (lit "summary1"))).
  vm_compute. find_event.
Defined.

(** A text file of two lines: the line break reaches the summary chain
    as a space. *)
Lemma short_text_is_summarised_whole_witness :
  (exists out rep,
      invocations
        (trace (ai_agent (stub (lit "AAA" ++ [LF] ++ lit "BBB") never)
                  (lit "textfile") (lit "notes.txt") start))
      = (summary_chain,
         TextWrap._munge_whitespace (lit "AAA" ++ [LF] ++ lit "BBB"), out)
          :: rep
      /\ repurposing_run (join [LF] (successes [out])) rep)
  /\ (Forall (fun c => TextWrap.is_whitespace c = true -> c = SPACE)
        (lit "AAA" ++ [LF] ++ lit "BBB") ->
      TextWrap._munge_whitespace (lit "AAA" ++ [LF] ++ lit "BBB")
      = lit "AAA" ++ [LF] ++ lit "BBB").
Proof.
  apply (short_text_is_summarised_whole unit
           (stub (lit "AAA" ++ [LF] ++ lit "BBB") never)
           (lit "textfile") (lit "notes.txt") start
           (load_text_file (stub (lit "AAA" ++ [LF] ++ lit "BBB") never))
           (lit "AAA" ++ [LF] ++ lit "BBB") (lit "AAA" ++ [LF] ++ lit "BB")
           "B"%char).
  - reflexivity.
  - reflexivity.
  - reflexivity.
  - reflexivity.
  - apply Nat.leb_le. vm_compute. reflexivity.
Defined.

Example line_break_becomes_space :
  TextWrap._munge_whitespace (lit "AAA" ++ [LF] ++ lit "BBB") = lit "AAA BBB".
Proof. reflexivity. Qed.

Lemma whitespace_content_is_repurposed_witness :
  (forall input out,
      ~ In (Invoked summary_chain input out)
          (trace (ai_agent (stub [SPACE; TAB; LF] never) (lit "textfile")
                    (lit "blank.txt") start)))
  /\ repurposed_on_empty_summary
       (trace (ai_agent (stub [SPACE; TAB; LF] never) (lit "textfile")
                 (lit "blank.txt") start)).
Proof.
  apply (whitespace_content_is_repurposed unit (stub [SPACE; TAB; LF] never)
           (lit "textfile") (lit "blank.txt") start
           (load_text_file (stub [SPACE; TAB; LF] never)) [SPACE; TAB; LF]).
  - reflexivity.
  - reflexivity.
  - discriminate.
  - reflexivity.
Defined.

Lemma invocations_in_order_witness :
  exists chunks rs rep,
    TextWrap.wrap two_word_text 2000 = Ok chunks
    /\ length rs = length chunks
    /\ invocations
         (trace (ai_agent (stub two_word_text never) (lit "textfile")
                   (lit "notes.txt") start))
       = summary_calls chunks rs ++ rep
    /\ repurposing_run (join [LF] (successes rs)) rep
    /\ (rep = [] <-> two_word_text = []).
Proof.
  apply (invocations_in_order unit (stub two_word_text never)
           (lit "textfile") (lit "notes.txt") start
           (load_text_file (stub two_word_text never)) two_word_text).
  - reflexivity.
  - reflexivity.
Defined.

(** A content of two chunks: two summaries, then the three repurposing
    chains on the two outputs joined by a newline. *)
Example two_chunks_two_summaries :
  invocations
    (trace (ai_agent (stub two_word_text never) (lit "textfile")
              (lit "notes.txt") start))
  = [(summary_chain, repeat "a"%char 2000, Ok (lit "summary1"));
     (summary_chain, lit "b", Ok (lit "summary1"));
     (linkedin_chain, lit "summary1" ++ [LF] ++ lit "summary1",
      Ok (lit "post"));
     (tweet_chain, lit "summary1" ++ [LF] ++ lit "summary1",
      Ok (lit "thread"));
     (script_chain, lit "summary1" ++ [LF] ++ lit "summary1",
      Ok (lit "script"))].
Proof. vm_compute. reflexivity. Qed.

Lemma file_opened_after_repurposing_witness :
  exists summary post thread script timestamp,
    In (Invoked linkedin_chain summary (Ok post))
       (trace (ai_agent (stub (lit "AAA BBB CCC") never) (lit "textfile")
                 (lit "notes.txt") start))
    /\ In (Invoked tweet_chain summary (Ok thread))
         (trace (ai_agent (stub (lit "AAA BBB CCC") never) (lit "textfile")
                   (lit "notes.txt") start))
    /\ In (Invoked script_chain summary (Ok script))
         (trace (ai_agent (stub (lit "AAA BBB CCC") never) (lit "textfile")
                   (lit "notes.txt") start))
    /\ lit "outputs/ai_agent_20260101_120000.txt"
       = lit "outputs/ai_agent_" ++ timestamp ++ lit ".txt".
Proof.
  apply (file_opened_after_repurposing unit (stub (lit "AAA BBB CCC") never)
           (lit "textfile") (lit "notes.txt") start
           (lit "outputs/ai_agent_20260101_120000.txt") None).
  vm_compute. find_event.
Defined.

(** A run whose writes and close succeed: the file is closed before the
    two last messages, and holds the five blocks written. *)
Lemma opened_file_is_closed_witness :
  (exists before outcome after,
      trace (ai_agent (stub (lit "AAA BBB CCC") never) (lit "textfile")
               (lit "notes.txt") start)
      = before
        ++ Called (FileClose (lit "outputs/ai_agent_20260101_120000.txt"))
             outcome
           :: after
      /\ Forall (fun ev => file_event ev = false) after)
  /\ get_file (lit "outputs/ai_agent_20260101_120000.txt")
       (files (final (ai_agent (stub (lit "AAA BBB CCC") never)
                        (lit "textfile") (lit "notes.txt") start)))
     = Some (written (lit "outputs/ai_agent_20260101_120000.txt")
               (trace (ai_agent (stub (lit "AAA BBB CCC") never)
                         (lit "textfile") (lit "notes.txt") start))).
Proof.
  destruct (opened_file_is_closed unit (stub (lit "AAA BBB CCC") never)
              (lit "textfile") (lit "notes.txt") start
              (lit "outputs/ai_agent_20260101_120000.txt"))
    as [Closed Content].
  - vm_compute. find_event.
  - split; [exact Closed|]. apply Content.
    vm_compute. intros c e _ In.
    repeat (destruct In as [E|In]; [discriminate E|]).
    destruct In.
Defined.

(** The close of the file raises after the five writes have returned:
    the run ends with that exception, the message that the output is
    saved is not printed, and the file holds what the system has left,
    here nothing. *)
Example close_failure_loses_output :
  result (ai_agent (failing_sink true (fun _ => true) false) (lit "textfile")
            (lit "notes.txt") start)
  = Raise (Exception (lit "OSError"))
  /\ get_file (lit "outputs/ai_agent_20260101_120000.txt")
       (files (final (ai_agent (failing_sink true (fun _ => true) false)
                        (lit "textfile") (lit "notes.txt") start)))
     = Some []
  /\ written (lit "outputs/ai_agent_20260101_120000.txt")
       (trace (ai_agent (failing_sink true (fun _ => true) false)
                 (lit "textfile") (lit "notes.txt") start))
     = output_layout (lit "textfile") (lit "notes.txt") (lit "summary1")
         (lit "post") (lit "thread") (lit "script").
Proof. repeat split; vm_compute; reflexivity. Qed.

(** The write of the section of the thread raises and so does the close
    of the file: the run ends with the exception of the close. *)
Example close_exception_replaces_write_exception :
  In (Called (FileWrite (lit "outputs/ai_agent_20260101_120000.txt")
                (lit "=== Tweet Thread ===" ++ [LF] ++ lit "thread"
                 ++ [LF; LF]))
        (Some (Exception (lit "UnicodeEncodeError"))))
     (trace (ai_agent (failing_sink true until_thread false) (lit "textfile")
               (lit "notes.txt") start))
  /\ result (ai_agent (failing_sink true until_thread false) (lit "textfile")
               (lit "notes.txt") start)
     = Raise (Exception (lit "OSError")).
Proof. split; [vm_compute; find_event | vm_compute; reflexivity]. Qed.

Lemma other_files_untouched_witness :
  get_file (lit "outputs/old.txt")
    (files (final (ai_agent (stub (lit "AAA BBB CCC") never) (lit "textfile")
                     (lit "notes.txt") with_old_file)))
  = get_file (lit "outputs/old.txt") (files with_old_file).
Proof.
  apply (other_files_untouched unit (stub (lit "AAA BBB CCC") never)
           (lit "textfile") (lit "notes.txt") with_old_file
           (lit "outputs/old.txt")).
  vm_compute. intros outcome In.
  repeat (destruct In as [E|In]; [discriminate E|]).
  destruct In.
Defined.

(** A write raises and the close of the file returns: the run ends with
    the exception of the write. *)
Lemma sink_failure_is_fatal_witness :
  (result (ai_agent (failing_sink true until_thread true) (lit "textfile")
             (lit "notes.txt") start)
   = Raise (Exception (lit "UnicodeEncodeError"))
   \/ exists path data e',
        FileWrite (lit "outputs/ai_agent_20260101_120000.txt")
          (lit "=== Tweet Thread ===" ++ [LF] ++ lit "thread" ++ [LF; LF])
        = FileWrite path data
        /\ In (Called (FileClose path) (Some e'))
             (trace (ai_agent (failing_sink true until_thread true)
                       (lit "textfile") (lit "notes.txt") start))
        /\ result (ai_agent (failing_sink true until_thread true)
                     (lit "textfile") (lit "notes.txt") start)
           = Raise e')
  /\ (forall path,
        FileWrite (lit "outputs/ai_agent_20260101_120000.txt")
          (lit "=== Tweet Thread ===" ++ [LF] ++ lit "thread" ++ [LF; LF])
        = OpenForWriting path ->
        files (final (ai_agent (failing_sink true until_thread true)
                        (lit "textfile") (lit "notes.txt") start))
        = files start).
Proof.
  apply (sink_failure_is_fatal unit (failing_sink true until_thread true)
           (lit "textfile") (lit "notes.txt") start
           (FileWrite (lit "outputs/ai_agent_20260101_120000.txt")
              (lit "=== Tweet Thread ===" ++ [LF] ++ lit "thread"
               ++ [LF; LF]))
           (Exception (lit "UnicodeEncodeError"))).
  - reflexivity.
  - vm_compute. find_event.
Defined.

Lemma raises_only_where_uncaught_witness :
  exists before ev after,
    trace (ai_agent (failing_sink true until_thread true) (lit "textfile")
             (lit "notes.txt") start)
    = before ++ ev :: after
    /\ fatal (Exception (lit "UnicodeEncodeError")) ev
    /\ (after = []
        \/ exists path data,
             ev = Called (FileWrite path data)
                    (Some (Exception (lit "UnicodeEncodeError")))
             /\ after = [Called (FileClose path) None]).
Proof.
  apply (raises_only_where_uncaught unit
           (failing_sink true until_thread true)
           (lit "textfile") (lit "notes.txt") start
           (Exception (lit "UnicodeEncodeError"))).
  reflexivity.
Defined.

(** Every chunk fails to be summarised and the run completes all the
    same. *)
Lemma completes_whatever_the_summaries_witness :
  result (ai_agent (stub (lit "AAA BBB CCC") summaries_fail) (lit "textfile")
            (lit "notes.txt") start)
  = Ok tt
  /\ exists path,
       In (Called (OpenForWriting path) None)
          (trace (ai_agent (stub (lit "AAA BBB CCC") summaries_fail)
                    (lit "textfile") (lit "notes.txt") start)).
Proof.
  apply (completes_whatever_the_summaries unit
           (stub (lit "AAA BBB CCC") summaries_fail)
           (lit "textfile") (lit "notes.txt") start
           (load_text_file (stub (lit "AAA BBB CCC") summaries_fail))
           (lit "AAA BBB CCC")).
  - reflexivity.
  - reflexivity.
  - discriminate.
  - intros c input x Rep. destruct c; [discriminate Rep| | |];
      do 2 eexists; reflexivity.
  - intros path x. eexists. reflexivity.
  - intros path data x. eexists. reflexivity.
  - intros path x. eexists. reflexivity.
Defined.

Lemma pdf_without_text_halts_witness :
  ai_agent (pdf_stub [[]; []]) (lit "PDF") (lit "inputs/scan.pdf") start
  = {| result := Ok tt;
       final := {| outside := tt; files := files start |};
       trace := [Called ImportPyPDF2 None;
                 Printed (ReadingPDF (lit "inputs/scan.pdf"));
                 Called (ExtractPdfText (lit "inputs/scan.pdf")) None;
                 Printed NoContentFound] |}.
Proof.
  apply (pdf_without_text_halts unit (pdf_stub [[]; []]) (lit "PDF")
           (lit "inputs/scan.pdf") start tt tt [[]; []]).
  - reflexivity.
  - reflexivity.
  - reflexivity.
  - repeat constructor.
Defined.

Lemma menu_ignores_padding_witness :
  menu (lit "  " ++ lit "3" ++ [LF]) ([TAB] ++ lit "notes.txt" ++ lit " ")
  = menu (lit "3") (lit "notes.txt").
Proof.
  apply (menu_ignores_padding (lit "  ") [LF] [TAB] (lit " ") (lit "3")
           (lit "notes.txt")); reflexivity.
Defined.

Lemma menu_selects_an_adapter_witness :
  (strip (lit " 3 ") = lit "1"
   /\ adapter_for (stub [] never) (lit "textfile")
      = Some (load_blog (stub [] never)))
  \/ (strip (lit " 3 ") = lit "2"
      /\ adapter_for (stub [] never) (lit "textfile")
         = Some (load_youtube_transcript (stub [] never)))
  \/ (strip (lit " 3 ") = lit "3"
      /\ adapter_for (stub [] never) (lit "textfile")
         = Some (load_text_file (stub [] never)))
  \/ (strip (lit " 3 ") = lit "4"
      /\ adapter_for (stub [] never) (lit "textfile")
         = Some (load_pdf (stub [] never))).
Proof.
  apply (menu_selects_an_adapter unit (stub [] never) (lit " 3 ")
           (lit "notes.txt") (lit "textfile") (lit "inputs/notes.txt")).
  reflexivity.
Defined.

(** A name that starts with a slash leaves [inputs/]. *)
Lemma menu_file_locator_witness :
  lit "/etc/hosts"
  = if startswith_sep (strip (lit "/etc/hosts ")) then strip (lit "/etc/hosts ")
    else lit "inputs/" ++ strip (lit "/etc/hosts ").
Proof.
  apply (menu_file_locator (lit "3") (lit "/etc/hosts ") (lit "textfile")
           (lit "/etc/hosts")).
  - reflexivity.
  - now left.
Defined.

Lemma saved_message_means_complete_file_witness :
  result (ai_agent (stub (lit "AAA BBB CCC") never) (lit "textfile")
            (lit "notes.txt") start)
  = Ok tt
  /\ exists summary post thread script before,
       get_file (lit "outputs/ai_agent_20260101_120000.txt")
         (files (final (ai_agent (stub (lit "AAA BBB CCC") never)
                          (lit "textfile") (lit "notes.txt") start)))
       = Some (output_layout (lit "textfile") (lit "notes.txt") summary post
                 thread script)
       /\ trace (ai_agent (stub (lit "AAA BBB CCC") never) (lit "textfile")
                   (lit "notes.txt") start)
          = before
            ++ [Printed (OutputSaved
                           (lit "outputs/ai_agent_20260101_120000.txt"));
                Printed (SummaryPreview (firstn 500 summary))].
Proof.
  apply (saved_message_means_complete_file unit
           (stub (lit "AAA BBB CCC") never) (lit "textfile")
           (lit "notes.txt") start
           (lit "outputs/ai_agent_20260101_120000.txt")).
  vm_compute. find_event.
Defined.
